(** * Partial path lookup inside a root (filepath-securejoin, lookup_linux.go)

    A shallow embedding of [partialLookupInRoot] and of the [symlinkStack]
    it uses for book-keeping, together with the properties claimed for them.

    The walk is the descriptor-based one, i.e. the body that runs when
    [hasOpenat2()] reports false; [partialLookupOpenat2] lives in another
    file and is outside this development.

    Layout: Go library functions ([strings], [path]), the operating-system
    model (a static directory tree, a table of open files, a log of the calls
    made), the symlink stack, the lookup loop, and then the theorems. *)

From Stdlib Require Import String Ascii List Bool Arith Lia.
Import ListNotations.

Local Open Scope string_scope.
Local Open Scope list_scope.

Notation "a +++ b" := (String.append a b) (at level 60, right associativity).

(* ================================================================== *)
(** ** Go's [strings] package, as far as the lookup uses it *)
(* ================================================================== *)

Module Strings.

(** [strings.IndexByte]: position of the first [c] in [s]; Go's [-1] is
    [None] here. *)
Fixpoint IndexByte (s : string) (c : ascii) : option nat :=
  match s with
  | EmptyString => None
  | String a s' =>
      if Ascii.eqb a c then Some 0 else option_map S (IndexByte s' c)
  end.

(** The slice expressions [s[:i]] and [s[i:]]. *)
Fixpoint slice_to (i : nat) (s : string) : string :=
  match i, s with
  | S i', String a s' => String a (slice_to i' s')
  | _, _ => EmptyString
  end.

Fixpoint slice_from (i : nat) (s : string) : string :=
  match i, s with
  | S i', String _ s' => slice_from i' s'
  | _, _ => s
  end.

(** [strings.Split(s, sep)] for a one-byte separator: never the empty list. *)
Fixpoint Split (s : string) (sep : ascii) : list string :=
  match s with
  | EmptyString => [EmptyString]
  | String a s' =>
      if Ascii.eqb a sep then EmptyString :: Split s' sep
      else match Split s' sep with
           | [] => [String a EmptyString]
           | h :: t => String a h :: t
           end
  end.

(** [strings.Join(elems, sep)]. *)
Fixpoint Join (elems : list string) (sep : string) : string :=
  match elems with
  | [] => EmptyString
  | [e] => e
  | e :: rest => e +++ sep +++ Join rest sep
  end.

End Strings.

(** [slices.DeleteFunc(l, del)]. *)
Definition DeleteFunc {A} (l : list A) (del : A -> bool) : list A :=
  filter (fun x => negb (del x)) l.

(* ================================================================== *)
(** ** Go's [path] package: [Clean], [Join], [IsAbs] *)
(* ================================================================== *)

Module Path.

(** One pass over the elements of a path, keeping the cleaned elements as a
    stack (last kept element first).  It follows the rules documented for
    [path.Clean]: empty and [.] elements vanish, an inner [..] removes the
    element before it, a [..] at the start of a rooted path vanishes and
    at the start of a relative path is kept. *)
Fixpoint clean_fold (rooted : bool) (acc : list string) (elems : list string)
  : list string :=
  match elems with
  | [] => acc
  | e :: rest =>
      if (e =? "")%string then clean_fold rooted acc rest
      else if (e =? ".")%string then clean_fold rooted acc rest
      else if (e =? "..")%string then
        match acc with
        | top :: acc' =>
            if (top =? "..")%string then clean_fold rooted (e :: acc) rest
            else clean_fold rooted acc' rest
        | [] =>
            if rooted then clean_fold rooted [] rest
            else clean_fold rooted [e] rest
        end
      else clean_fold rooted (e :: acc) rest
  end.

(** [path.IsAbs]. *)
Definition IsAbs (p : string) : bool :=
  match p with
  | String a _ => Ascii.eqb a "/"
  | EmptyString => false
  end.

(** [path.Clean]. *)
Definition Clean (p : string) : string :=
  let rooted := IsAbs p in
  let out :=
    (if rooted then "/" else "")
    +++ Strings.Join (rev (clean_fold rooted [] (Strings.Split p "/"))) "/" in
  if (out =? "")%string then "." else out.

(** The buffer [path.Join] builds before cleaning: leading empty elements
    are skipped, every later element is appended after a slash. *)
Fixpoint join_buf (buf : string) (elem : list string) : string :=
  match elem with
  | [] => buf
  | e :: rest =>
      if negb (buf =? "")%string || negb (e =? "")%string then
        join_buf ((if (buf =? "")%string then buf else buf +++ "/") +++ e) rest
      else join_buf buf rest
  end.

(** [path.Join]. *)
Definition Join (elem : list string) : string :=
  if forallb (fun e => (e =? "")%string) elem then ""
  else Clean (join_buf "" elem).

End Path.

(* ================================================================== *)
(** ** Errors *)
(* ================================================================== *)

Inductive Errno := ENOENT | ENOTDIR | EINVAL | ELOOP | EBADF | ENAMETOOLONG.

(** The sentinel errors that [errors.Is] is asked about. *)
Inductive Sentinel :=
| errEmptyStack
| errBrokenSymlinkStack
| errPossibleAttack
| errPossibleBreakout
| Sys (e : Errno).

(** Error values: a sentinel, [fmt.Errorf] with one or two [%w] operands
    (the message is kept without its formatted arguments), and
    [os.PathError]. *)
Inductive Error :=
| Base (s : Sentinel)
| Wrap (msg : string) (inner : Error)
| Wrap2 (msg : string) (e1 e2 : Error)
| PathError (op path : string) (e : Errno).

Definition Errno_eqb (a b : Errno) : bool :=
  match a, b with
  | ENOENT, ENOENT | ENOTDIR, ENOTDIR | EINVAL, EINVAL
  | ELOOP, ELOOP | EBADF, EBADF | ENAMETOOLONG, ENAMETOOLONG => true
  | _, _ => false
  end.

Definition Sentinel_eqb (a b : Sentinel) : bool :=
  match a, b with
  | errEmptyStack, errEmptyStack
  | errBrokenSymlinkStack, errBrokenSymlinkStack
  | errPossibleAttack, errPossibleAttack
  | errPossibleBreakout, errPossibleBreakout => true
  | Sys x, Sys y => Errno_eqb x y
  | _, _ => false
  end.

(** [errors.Is(err, target)] for a sentinel target. *)
Fixpoint errors_Is (err : Error) (target : Sentinel) : bool :=
  match err with
  | Base s => Sentinel_eqb s target
  | Wrap _ e => errors_Is e target
  | Wrap2 _ e1 e2 => errors_Is e1 target || errors_Is e2 target
  | PathError _ _ e => Sentinel_eqb (Sys e) target
  end.

(** [os.ErrNotExist] matches [ENOENT]. *)
Definition ErrNotExist : Sentinel := Sys ENOENT.

(* ================================================================== *)
(** ** The operating system: a directory tree, open files, a call log *)
(* ================================================================== *)

(** A file-system object.  The tree is the whole host file system; it does
    not change during a lookup. *)
#[warnings="-register-all"]
Inductive Inode :=
| Dir (entries : list (string * Inode))
| Symlink (target : string)
| Other.

(** A location is the list of names leading from the host's [/] to an
    object. *)
Definition Loc := list string.

(** [os.File] values are told apart by a number that is never reused. *)
Definition Handle := nat.

(** What [st.Mode() & os.ModeType] is switched on. *)
Inductive FileMode := ModeDir | ModeSymlink | ModeOther.

Inductive Event :=
| EvProcSelfFdReadlink (h : Handle)
| EvCheckProcSelfFdPath (path : string) (h : Handle)
| EvDup (h : Handle)
| EvOpenat (dir : Handle) (name : string)
| EvStat (h : Handle)
| EvReadlinkat (dir : Handle) (name : string)
| EvClose (h : Handle).

Record World := mkWorld {
  host : Inode;
  open_files : list (Handle * Loc);
  next_handle : Handle;
  log : list Event
}.

Module OS.

Fixpoint find_entry (name : string) (es : list (string * Inode))
  : option Inode :=
  match es with
  | [] => None
  | (n, i) :: rest => if (n =? name)%string then Some i else find_entry name rest
  end.

Fixpoint lookup (n : Inode) (l : Loc) : option Inode :=
  match l with
  | [] => Some n
  | name :: rest =>
      match n with
      | Dir es =>
          match find_entry name es with
          | Some c => lookup c rest
          | None => None
          end
      | _ => None
      end
  end.

Definition handle_loc (w : World) (h : Handle) : option Loc :=
  option_map snd (find (fun p => Nat.eqb (fst p) h) (open_files w)).

Definition emit (ev : Event) (w : World) : World :=
  mkWorld (host w) (open_files w) (next_handle w) (log w ++ [ev]).

(** A new open file at location [l]. *)
Definition alloc (w : World) (l : Loc) : World * Handle :=
  (mkWorld (host w) ((next_handle w, l) :: open_files w)
           (S (next_handle w)) (log w),
   next_handle w).

(** [Close] of [os.File]: every caller discards its error. *)
Definition Close (w : World) (h : Handle) : World :=
  emit (EvClose h)
    (mkWorld (host w)
       (filter (fun p => negb (Nat.eqb (fst p) h)) (open_files w))
       (next_handle w) (log w)).

(** Modelled from the spec: [dupFile] is in another file of the package;
    "duplicate(handle) -> owned_handle, fails with an I/O error if the
    underlying duplication syscall fails". *)
Definition dupFile (w : World) (h : Handle) : World * (Error + Handle) :=
  let w := emit (EvDup h) w in
  match handle_loc w h with
  | None => (w, inl (Base (Sys EBADF)))
  | Some l => let '(w, n) := alloc w l in (w, inr n)
  end.

(** Linux's limits on the bytes of one name and of a whole path. *)
Definition NAME_MAX : nat := 255.
Definition PATH_MAX : nat := 4096.

(** The name has more than [n] bytes. *)
Definition longer_than (n : nat) (name : string) : bool :=
  Nat.ltb n (String.length name).

(** The name holds a NUL byte. *)
Fixpoint has_nul (name : string) : bool :=
  match name with
  | EmptyString => false
  | String c rest => Ascii.eqb c Ascii.zero || has_nul rest
  end.

(** What [openat] answers for a name it does not open, [e] being what the
    directory handle or the directory gives: a name with a NUL byte never
    reaches the kernel ([unix.Openat] fails with [EINVAL] converting it), the
    kernel takes no empty name and no name that with its final NUL is over
    [PATH_MAX] bytes, and no directory holds a name over [NAME_MAX]
    bytes. *)
Definition openat_errno (name : string) (e : Errno) : Errno :=
  if has_nul name then EINVAL
  else if (name =? "")%string then ENOENT
  else if longer_than (PATH_MAX - 1) name then ENAMETOOLONG
  else match e with
       | ENOENT => if longer_than NAME_MAX name then ENAMETOOLONG else ENOENT
       | _ => e
       end.

(** Modelled from the spec: [openatFile] is in another file of the package;
    "opens exactly one path component relative to a directory without
    following a trailing symlink ...; fails with not-found,
    not-a-directory, or generic I/O errors"; the flags are the ones the
    lookup passes ([O_PATH|O_NOFOLLOW|O_CLOEXEC]), so a symlink is opened
    itself.  Of the generic errors the ones that depend on the name alone
    are kept, see [openat_errno]; the ones that depend on the process or
    the machine (permissions, exhausted resources) have no counterpart in
    [World].  A name that the tree holds is opened. *)
Definition openatFile (w : World) (dir : Handle) (name : string)
  : World * (Error + Handle) :=
  let w := emit (EvOpenat dir name) w in
  match handle_loc w dir with
  | None => (w, inl (Base (Sys (openat_errno name EBADF))))
  | Some l =>
      match lookup (host w) l with
      | Some (Dir es) =>
          if (name =? ".")%string then
            let '(w, n) := alloc w l in (w, inr n)
          else if (name =? "..")%string then
            let '(w, n) := alloc w (removelast l) in (w, inr n)
          else
            match find_entry name es with
            | Some _ => let '(w, n) := alloc w (l ++ [name]) in (w, inr n)
            | None => (w, inl (Base (Sys (openat_errno name ENOENT))))
            end
      | Some _ => (w, inl (Base (Sys (openat_errno name ENOTDIR))))
      | None => (w, inl (Base (Sys (openat_errno name EBADF))))
      end
  end.

(** [Stat] of [os.File] followed by [Mode() & os.ModeType]. *)
Definition Stat (w : World) (h : Handle) : World * (Error + FileMode) :=
  let w := emit (EvStat h) w in
  match handle_loc w h with
  | None => (w, inl (Base (Sys EBADF)))
  | Some l =>
      match lookup (host w) l with
      | Some (Dir _) => (w, inr ModeDir)
      | Some (Symlink _) => (w, inr ModeSymlink)
      | Some Other => (w, inr ModeOther)
      | None => (w, inl (Base (Sys EBADF)))
      end
  end.

(** Modelled from the spec: [readlinkatFile] is in another file of the
    package; "read_symlink(directory, name) -> target_string, fails with
    not a symlink ... or generic I/O error". *)
Definition readlinkatFile (w : World) (dir : Handle) (name : string)
  : World * (Error + string) :=
  let w := emit (EvReadlinkat dir name) w in
  match handle_loc w dir with
  | None => (w, inl (Base (Sys EBADF)))
  | Some l =>
      match lookup (host w) l with
      | Some (Dir es) =>
          if (name =? ".")%string || (name =? "..")%string then
            (w, inl (Base (Sys EINVAL)))
          else
            match find_entry name es with
            | Some (Symlink t) => (w, inr t)
            | Some _ => (w, inl (Base (Sys EINVAL)))
            | None => (w, inl (Base (Sys ENOENT)))
            end
      | Some _ => (w, inl (Base (Sys ENOTDIR)))
      | None => (w, inl (Base (Sys EBADF)))
      end
  end.

(** The path the kernel reports for an open file. *)
Definition path_of_loc (l : Loc) : string := "/" +++ Strings.Join l "/".

(** Modelled from the spec: [procSelfFdReadlink] is in another file of the
    package; "resolve_self_path(handle) -> path_string". *)
Definition procSelfFdReadlink (w : World) (h : Handle)
  : World * (Error + string) :=
  let w := emit (EvProcSelfFdReadlink h) w in
  match handle_loc w h with
  | None => (w, inl (Base (Sys EBADF)))
  | Some l => (w, inr (path_of_loc l))
  end.

(** Modelled from the spec: [checkProcSelfFdPath] is in another file of the
    package; "verify_self_path(expected_path, handle)", a mismatch being
    "reported as a detected-attack condition". *)
Definition checkProcSelfFdPath (w : World) (path : string) (h : Handle)
  : World * option Error :=
  let w := emit (EvCheckProcSelfFdPath path h) w in
  match handle_loc w h with
  | None => (w, Some (Base (Sys EBADF)))
  | Some l =>
      if (path_of_loc l =? path)%string then (w, None)
      else (w, Some (Wrap "unexpected path for handle" (Base errPossibleBreakout)))
  end.

End OS.

(* ================================================================== *)
(** ** The symlink stack *)
(* ================================================================== *)

(** [(dir, remainingPath)] is what the lookup would have returned if the
    link did not exist; [linkUnwalked] holds the components of the link
    target that have not been walked yet. *)
Record symlinkStackEntry := mkEntry {
  dir : Handle;
  remainingPath : string;
  linkUnwalked : list string
}.

(** The slice of entries: the oldest entry first, the newest last. *)
Definition symlinkStack := list symlinkStackEntry.

(** The methods.  A method with a pointer receiver returns the stack it
    leaves behind, next to its error ([None] is Go's [nil]). *)
Module SymlinkStack.

Definition IsEmpty (s : symlinkStack) : bool := Nat.eqb (length s) 0.

(** [Close] closes every entry; the caller's stack is [nil] afterwards. *)
Fixpoint Close (w : World) (s : symlinkStack) : World :=
  match s with
  | [] => w
  | link :: rest => Close (OS.Close w (dir link)) rest
  end.

Definition popPart (s : symlinkStack) (part : string)
  : symlinkStack * option Error :=
  if IsEmpty s then (s, Some (Base errEmptyStack))
  else
    match nth_error s (length s - 1) with
    | None => (s, Some (Base errEmptyStack))
    | Some tailEntry =>
        match linkUnwalked tailEntry with
        | [] =>
            (s, Some (Wrap "trying to pop component of empty stack entry"
                           (Base errBrokenSymlinkStack)))
        | headPart :: unwalked' =>
            if negb (headPart =? part)%string then
              (s, Some (Wrap "trying to pop component but the last stack entry is"
                             (Base errBrokenSymlinkStack)))
            else
              (firstn (length s - 1) s
                 ++ [mkEntry (dir tailEntry) (remainingPath tailEntry) unwalked'],
               None)
        end
    end.

(** The loop of [PopPart]: [n] is [lastGood + 1]. *)
Fixpoint cleanup (n : nat) (w : World) (s : symlinkStack)
  : World * symlinkStack :=
  match n with
  | 0 => (w, s)
  | S lastGood =>
      match nth_error s lastGood with
      | None => (w, s)
      | Some entry =>
          if Nat.ltb 0 (length (linkUnwalked entry)) then (w, s)
          else cleanup lastGood (OS.Close w (dir entry)) (firstn lastGood s)
      end
  end.

Definition PopPart (w : World) (s : symlinkStack) (part : string)
  : World * symlinkStack * option Error :=
  match popPart s part with
  | (s, Some err) =>
      (w, s, if errors_Is err errEmptyStack then None else Some err)
  | (s, None) =>
      let '(w, s) := cleanup (length s) w s in (w, s, None)
  end.

Definition push (w : World) (s : symlinkStack) (dir : Handle)
  (remainingPath linkTarget : string) : World * symlinkStack * option Error :=
  let linkTargetParts :=
    DeleteFunc (Strings.Split linkTarget "/") (fun part => (part =? "")%string) in
  if Nat.eqb (length linkTargetParts) 0 then (w, s, None)
  else
    match OS.dupFile w dir with
    | (w, inl err) => (w, s, Some err)
    | (w, inr dirCopy) =>
        (w, s ++ [mkEntry dirCopy remainingPath linkTargetParts], None)
    end.

Definition SwapLink (w : World) (s : symlinkStack) (linkPart : string)
  (dir : Handle) (remainingPath linkTarget : string)
  : World * symlinkStack * option Error :=
  match popPart s linkPart with
  | (s, Some err) =>
      if negb (errors_Is err errEmptyStack) then (w, s, Some err)
      else push w s dir remainingPath linkTarget
  | (s, None) => push w s dir remainingPath linkTarget
  end.

Definition PopTopSymlink (s : symlinkStack)
  : symlinkStack * option (Handle * string) :=
  match s with
  | [] => (s, None)
  | tailEntry :: rest => (rest, Some (dir tailEntry, remainingPath tailEntry))
  end.

End SymlinkStack.

(* ================================================================== *)
(** ** [partialLookupInRoot] *)
(* ================================================================== *)

(** What the function returns: an error, or a handle and the remaining
    path. *)
Definition Result := (Error + (Handle * string))%type.

(** The local variables the loop updates. *)
Module Walk.
Record t := mk {
  currentDir : Handle;
  symlinkStack : symlinkStack;
  linksWalked : nat;
  currentPath : string;
  remainingPath : string
}.
End Walk.

(** How one iteration ends: with the next iteration, or with a [return];
    the variables are kept for the deferred calls. *)
Inductive Step :=
| Continue (st : Walk.t)
| Return (st : Walk.t) (res : Result).

Section Lookup.

(** [maxSymlinkLimit] is a constant of another file of the package. *)
Variable maxSymlinkLimit : nat.
Variable root : Handle.
Variable unsafePath : string.
Variable logicalRootPath : string.

(** The next path component and what is left after it. *)
Definition next_part (oldRemainingPath : string) : string * string :=
  match Strings.IndexByte oldRemainingPath "/" with
  | None => (oldRemainingPath, "")
  | Some i => (Strings.slice_to i oldRemainingPath,
               Strings.slice_from (i + 1) oldRemainingPath)
  end.

(** One iteration of [for remainingPath != ""]. *)
Definition loop_body (w : World) (st : Walk.t) : World * Step :=
  let currentDir := Walk.currentDir st in
  let stack := Walk.symlinkStack st in
  let linksWalked := Walk.linksWalked st in
  let currentPath := Walk.currentPath st in
  let oldRemainingPath := Walk.remainingPath st in
  let '(part, remainingPath) := next_part oldRemainingPath in
  if (part =? "")%string then
    (w, Continue (Walk.mk currentDir stack linksWalked currentPath remainingPath))
  else
    let nextPath := Path.Join ["/"; currentPath; part] in
    if (nextPath =? "/")%string then
      let '(w, stack, err) := SymlinkStack.PopPart w stack part in
      match err with
      | Some err =>
          (w, Return (Walk.mk currentDir stack linksWalked currentPath remainingPath)
                     (inl (Wrap "walking into root with part failed" err)))
      | None =>
          match OS.dupFile w root with
          | (w, inl err) =>
              (w, Return (Walk.mk currentDir stack linksWalked currentPath remainingPath)
                         (inl (Wrap "clone root fd" err)))
          | (w, inr rootClone) =>
              let w := OS.Close w currentDir in
              (w, Continue (Walk.mk rootClone stack linksWalked nextPath remainingPath))
          end
      end
    else
      match OS.openatFile w currentDir part with
      | (w, inr nextDir) =>
          match OS.Stat w nextDir with
          | (w, inl err) =>
              let w := OS.Close w nextDir in
              (w, Return (Walk.mk currentDir stack linksWalked currentPath remainingPath)
                         (inl (Wrap "stat component" err)))
          | (w, inr ModeDir) =>
              let w := OS.Close w currentDir in
              let '(w, stack, err) := SymlinkStack.PopPart w stack part in
              let st' := Walk.mk nextDir stack linksWalked nextPath remainingPath in
              match err with
              | Some err =>
                  (w, Return st' (inl (Wrap "walking into directory failed" err)))
              | None =>
                  if (part =? "..")%string then
                    match OS.checkProcSelfFdPath w logicalRootPath root with
                    | (w, Some err) =>
                        (w, Return st' (inl (Wrap "root path moved during lookup" err)))
                    | (w, None) =>
                        let fullPath := logicalRootPath +++ nextPath in
                        match OS.checkProcSelfFdPath w fullPath nextDir with
                        | (w, Some err) =>
                            (w, Return st'
                                  (inl (Wrap "walking into part had unexpected result" err)))
                        | (w, None) => (w, Continue st')
                        end
                    end
                  else (w, Continue st')
              end
          | (w, inr ModeSymlink) =>
              let w := OS.Close w nextDir in
              match OS.readlinkatFile w currentDir part with
              | (w, inl err) =>
                  let err :=
                    if errors_Is err (Sys EINVAL) then
                      Wrap2 "path component is invalid"
                            (Base errPossibleAttack) (Base (Sys ENOTDIR))
                    else err in
                  (w, Return (Walk.mk currentDir stack linksWalked currentPath remainingPath)
                             (inl err))
              | (w, inr linkDest) =>
                  let linksWalked := linksWalked + 1 in
                  if Nat.ltb maxSymlinkLimit linksWalked then
                    (w, Return (Walk.mk currentDir stack linksWalked currentPath remainingPath)
                               (inl (PathError "partialLookupInRoot"
                                       (logicalRootPath +++ "/" +++ unsafePath) ELOOP)))
                  else
                    let '(w, stack, err) :=
                      SymlinkStack.SwapLink w stack part currentDir
                        oldRemainingPath linkDest in
                    match err with
                    | Some err =>
                        (w, Return (Walk.mk currentDir stack linksWalked currentPath remainingPath)
                                   (inl (Wrap "walking into symlink failed: push symlink" err)))
                    | None =>
                        let remainingPath := linkDest +++ "/" +++ remainingPath in
                        if Path.IsAbs linkDest then
                          match OS.dupFile w root with
                          | (w, inl err) =>
                              (w, Return (Walk.mk currentDir stack linksWalked currentPath remainingPath)
                                         (inl (Wrap "clone root fd" err)))
                          | (w, inr rootClone) =>
                              let w := OS.Close w currentDir in
                              (w, Continue (Walk.mk rootClone stack linksWalked "/" remainingPath))
                          end
                        else
                          (w, Continue (Walk.mk currentDir stack linksWalked currentPath remainingPath))
                    end
              end
          | (w, inr ModeOther) =>
              let w := OS.Close w currentDir in
              let '(w, stack, err) := SymlinkStack.PopPart w stack part in
              let st' := Walk.mk currentDir stack linksWalked currentPath remainingPath in
              match err with
              | Some err =>
                  (w, Return st' (inl (Wrap "walking into non-directory failed" err)))
              | None =>
                  match SymlinkStack.PopTopSymlink stack with
                  | (stack, Some (oldDir, remainingPath)) =>
                      let w := OS.Close w nextDir in
                      (w, Return (Walk.mk currentDir stack linksWalked currentPath remainingPath)
                                 (inr (oldDir, remainingPath)))
                  | (stack, None) =>
                      (w, Return (Walk.mk currentDir stack linksWalked currentPath remainingPath)
                                 (inr (nextDir, remainingPath)))
                  end
              end
          end
      | (w, inl err) =>
          if errors_Is err ErrNotExist then
            match SymlinkStack.PopTopSymlink stack with
            | (stack, Some (oldDir, remainingPath)) =>
                let w := OS.Close w currentDir in
                (w, Return (Walk.mk currentDir stack linksWalked currentPath remainingPath)
                           (inr (oldDir, remainingPath)))
            | (stack, None) =>
                (w, Return (Walk.mk currentDir stack linksWalked currentPath remainingPath)
                           (inr (currentDir, oldRemainingPath)))
            end
          else
            (w, Return (Walk.mk currentDir stack linksWalked currentPath remainingPath)
                       (inl err))
      end.

(** The loop, with the all-components-existed return after it.  Each unit
    of [fuel] pays for one test of the loop condition. *)
Fixpoint loop (fuel : nat) (w : World) (st : Walk.t)
  : option (World * Walk.t * Result) :=
  match fuel with
  | 0 => None
  | S fuel' =>
      if (Walk.remainingPath st =? "")%string then
        Some (w, st, inr (Walk.currentDir st, ""))
      else
        match loop_body w st with
        | (w, Continue st') => loop fuel' w st'
        | (w, Return st' res) => Some (w, st', res)
        end
  end.

End Lookup.

(** The two deferred calls, the one registered last first: the stack is
    closed, and [currentDir] is closed when an error is returned. *)
Definition deferred (w : World) (st : Walk.t) (res : Result) : World :=
  let w := SymlinkStack.Close w (Walk.symlinkStack st) in
  match res with
  | inl _ => OS.Close w (Walk.currentDir st)
  | inr _ => w
  end.

Definition partialLookupInRoot (maxSymlinkLimit fuel : nat) (w : World)
  (root : Handle) (unsafePath : string) : option (World * Result) :=
  match OS.procSelfFdReadlink w root with
  | (w, inl err) => Some (w, inl (Wrap "get real root path" err))
  | (w, inr logicalRootPath) =>
      match OS.dupFile w root with
      | (w, inl err) => Some (w, inl (Wrap "clone root fd" err))
      | (w, inr currentDir) =>
          match loop maxSymlinkLimit root unsafePath logicalRootPath fuel w
                     (Walk.mk currentDir [] 0 "" unsafePath) with
          | None => None
          | Some (w, st, res) => Some (deferred w st res, res)
          end
      end
  end.

(* ================================================================== *)
(** ** Example trees *)
(* ================================================================== *)

Module Examples.

(** A world whose host has the directory [/r] with the given entries, and
    one open file, handle 0, for [/r]. *)
Definition world_r (entries : list (string * Inode)) : World :=
  mkWorld (Dir [("r", Dir entries)]) [(0, ["r"])] 1 [].

(** [/r/a -> b/c], [/r/b] a directory without [c]. *)
Definition dangling := world_r [("a", Symlink "b/c"); ("b", Dir [])].

(** [/r/a -> b], [/r/b -> c], [/r/c] a regular file. *)
Definition tail_chain :=
  world_r [("a", Symlink "b"); ("b", Symlink "c"); ("c", Other)].

(** [/r/a -> a]. *)
Definition self_loop := world_r [("a", Symlink "a")].

(** [/r/a -> b], [/r/b -> a]. *)
Definition mutual_loop := world_r [("a", Symlink "b"); ("b", Symlink "a")].

(** [/r/a -> b], [/r/b -> /], [/r/x] a regular file. *)
Definition link_to_root :=
  world_r [("a", Symlink "b"); ("b", Symlink "/"); ("x", Other)].

(** [/r/a -> f/], [/r/f] a regular file. *)
Definition trailing_slash := world_r [("a", Symlink "f/"); ("f", Other)].

(** [/r/a] a directory. *)
Definition one_dir := world_r [("a", Dir [])].

(** The host has [/etc]; [/r/evil -> /../../etc] and [/r/etc] is a
    regular file. *)
Definition escape : World :=
  mkWorld (Dir [("etc", Dir [("x", Other)]);
                ("r", Dir [("evil", Symlink "/../../etc"); ("etc", Other)])])
          [(0, ["r"])] 1 [].

End Examples.

(* ================================================================== *)
(** ** What the claims are stated with *)
(* ================================================================== *)

(** An entry all of whose link components have been walked. *)
Definition entry_is_empty (e : symlinkStackEntry) : bool :=
  match linkUnwalked e with
  | [] => true
  | _ :: _ => false
  end.

Fixpoint take_while {A} (p : A -> bool) (l : list A) : list A :=
  match l with
  | [] => []
  | x :: rest => if p x then x :: take_while p rest else []
  end.

Fixpoint drop_while {A} (p : A -> bool) (l : list A) : list A :=
  match l with
  | [] => []
  | x :: rest => if p x then drop_while p rest else l
  end.

(** The stack without its run of empty entries at the tail, and that run,
    the last entry first. *)
Definition without_trailing_empty (s : symlinkStack) : symlinkStack :=
  rev (drop_while entry_is_empty (rev s)).

Definition trailing_empty (s : symlinkStack) : list symlinkStackEntry :=
  take_while entry_is_empty (rev s).

Definition close_entries (w : World) (es : list symlinkStackEntry) : World :=
  fold_left (fun w e => OS.Close w (dir e)) es w.

(** The tail entry with its first unwalked component consumed. *)
Definition consume_head (e : symlinkStackEntry) : symlinkStackEntry :=
  mkEntry (dir e) (remainingPath e) (tl (linkUnwalked e)).

(** The non-empty components of a path. *)
Definition components (p : string) : list string :=
  DeleteFunc (Strings.Split p "/") (fun part => (part =? "")%string).

(** The events logged between two worlds. *)
Definition new_events (w w' : World) : list Event :=
  skipn (length (log w)) (log w').

Definition is_check (ev : Event) : bool :=
  match ev with EvCheckProcSelfFdPath _ _ => true | _ => false end.

Definition is_openat (ev : Event) : bool :=
  match ev with EvOpenat _ _ => true | _ => false end.

Definition is_close (ev : Event) : bool :=
  match ev with EvClose _ => true | _ => false end.

Definition closed_handle (ev : Event) : option Handle :=
  match ev with EvClose h => Some h | _ => None end.

(** Every open file was handed out by the allocator. *)
Definition world_ok (w : World) : Prop :=
  forall h l, In (h, l) (open_files w) -> h < next_handle w.

Definition is_prefix (p l : Loc) : Prop := exists rest, l = p ++ rest.

Definition is_suffix (t s : string) : Prop := exists p, s = p +++ t.

(** A run of [n] slashes. *)
Fixpoint slashes (n : nat) : string :=
  match n with
  | 0 => ""
  | S k => String "/" (slashes k)
  end.

Definition no_slash (s : string) : Prop := Strings.IndexByte s "/" = None.

(** Segments laid out one after the other, each followed by a slash. *)
Fixpoint flat (segs : list string) : string :=
  match segs with
  | [] => ""
  | seg :: rest => seg +++ "/" +++ flat rest
  end.

Definition nonempty (s : string) : bool := negb (s =? "")%string.

(** Where [openatFile] lands, when it succeeds. *)
Definition open_target (w : World) (d : Handle) (name : string) : Error + Loc :=
  match OS.handle_loc w d with
  | None => inl (Base (Sys (OS.openat_errno name EBADF)))
  | Some l =>
      match OS.lookup (host w) l with
      | Some (Dir es) =>
          if (name =? ".")%string then inr l
          else if (name =? "..")%string then inr (removelast l)
          else match OS.find_entry name es with
               | Some _ => inr (l ++ [name])
               | None => inl (Base (Sys (OS.openat_errno name ENOENT)))
               end
      | Some _ => inl (Base (Sys (OS.openat_errno name ENOTDIR)))
      | None => inl (Base (Sys (OS.openat_errno name EBADF)))
      end
  end.

(** All link components still to be walked, the newest link's first. *)
Definition unwalked_of (s : symlinkStack) : list string :=
  concat (map linkUnwalked (rev s)).

(** The oldest entry saved a suffix of the request. *)
Definition front_ok (path : string) (s : symlinkStack) : Prop :=
  match s with
  | [] => True
  | e :: _ => is_suffix (remainingPath e) path
  end.

(** How the remaining path and the stack hang together during a lookup of
    [path]: the remaining path is a run of segments, the text of the links
    followed so far, and then a suffix of the request; the non-empty
    segments are the unwalked link components of the stack. *)
Definition rem_inv (path rem : string) (s : symlinkStack) : Prop :=
  exists segs t,
    rem = flat segs +++ t
    /\ Forall no_slash segs
    /\ is_suffix t path
    /\ filter nonempty segs = unwalked_of s
    /\ front_ok path s.


(** From [w] to [w']: the tree is the same, handles are only added, an
    open file of [w] that is not among [closed] stays where it is, and the
    log grows by events whose closes are all among [closed]. *)
Definition evolves (w w' : World) (closed : list Handle) : Prop :=
  host w' = host w
  /\ next_handle w <= next_handle w'
  /\ (forall h, h < next_handle w -> ~ In h closed ->
        OS.handle_loc w' h = OS.handle_loc w h)
  /\ exists evs, log w' = log w ++ evs
                 /\ forall h, In (EvClose h) evs -> In h closed.

(** The handles the loop owns: the current directory and the directories
    parked in the stack. *)
Definition held (st : Walk.t) : list Handle :=
  Walk.currentDir st :: map dir (Walk.symlinkStack st).

(** A component that is a name. *)
Definition plain (c : string) : Prop := c <> "." /\ c <> "..".

(** A successful allocation: the handle is the next one and stands at the
    location asked for. *)
Definition allocated (w w' : World) (n : Handle) (l : Loc) : Prop :=
  n = next_handle w /\ next_handle w' = S n /\ OS.handle_loc w' n = Some l
  /\ evolves w w' [].

(** The variables an iteration leaves behind. *)
Definition state_of (step : Step) : Walk.t :=
  match step with
  | Continue st => st
  | Return st _ => st
  end.

(** A component applied to the components of a clean rooted path. *)
Definition apply_part (C : list string) (part : string) : list string :=
  if (part =? ".")%string then C
  else if (part =? "..")%string then removelast C
  else C ++ [part].

(** What the loop keeps true of its handles during a lookup under the
    root at [rootLoc]; [n0] is the first handle the call allocated. *)
Record own_inv (n0 root : Handle) (rootLoc : Loc) (w : World) (st : Walk.t)
  : Prop := mk_own_inv {
  oi_root_lt : root < n0;
  oi_root_loc : OS.handle_loc w root = Some rootLoc;
  oi_nodup : NoDup (held st);
  oi_bound : forall h, In h (held st) -> n0 <= h < next_handle w;
  oi_cur : OS.handle_loc w (Walk.currentDir st)
           = Some (rootLoc ++ components (Walk.currentPath st));
  oi_plain : Forall plain (components (Walk.currentPath st));
  oi_stack : forall h, In h (map dir (Walk.symlinkStack st)) ->
             exists l, OS.handle_loc w h = Some l /\ is_prefix rootLoc l
}.

(** A returned handle is open below the root and is not one of the
    directories still parked in the stack. *)
Definition good_result (rootLoc : Loc) (w : World) (st : Walk.t) (res : Result)
  : Prop :=
  forall h rem, res = inr (h, rem) ->
    h < next_handle w
    /\ ~ In h (map dir (Walk.symlinkStack st))
    /\ (forall x, In x (map dir (Walk.symlinkStack st)) -> x < next_handle w)
    /\ exists l, OS.handle_loc w h = Some l /\ is_prefix rootLoc l.

(* ================================================================== *)
(** ** What the further properties are stated with *)
(* ================================================================== *)

(** [PopPart] for each component in turn, up to the first error. *)
Fixpoint pop_parts (w : World) (s : symlinkStack) (parts : list string)
  : World * symlinkStack * option Error :=
  match parts with
  | [] => (w, s, None)
  | part :: rest =>
      match SymlinkStack.PopPart w s part with
      | (w, s, Some err) => (w, s, Some err)
      | (w, s, None) => pop_parts w s rest
      end
  end.

(** A handle that is in the table of open files. *)
Definition is_open (w : World) (h : Handle) : Prop := OS.handle_loc w h <> None.

(** Every open handle from [n0] on is among [hs]. *)
Definition tidy (n0 : Handle) (w : World) (hs : list Handle) : Prop :=
  forall h, n0 <= h -> is_open w h -> In h hs.

(** What a finished iteration leaves open: the returned handle and the
    stack on success; on an error what is still held, and one handle more
    only when a non-directory could not be popped. *)
Definition tidy_result (n0 : Handle) (w : World) (st : Walk.t) (res : Result)
  : Prop :=
  match res with
  | inr (h, _) => tidy n0 w (h :: map dir (Walk.symlinkStack st))
  | inl err =>
      exists extra,
        tidy n0 w (extra ++ held st)
        /\ length extra <= 1
        /\ (extra <> [] ->
            exists e, err = Wrap "walking into non-directory failed" e
                      /\ errors_Is e errBrokenSymlinkStack = true)
  end.

(** What the lookup may do with a handle: query the path of the root;
    duplicate or check the root or a handle from [n0] on; and open a
    component of, read a link of, stat or close only handles from [n0] on,
    a component being a non-empty name without a slash. *)
Definition own_event (root n0 : Handle) (ev : Event) : Prop :=
  match ev with
  | EvProcSelfFdReadlink h => h = root
  | EvDup h => h = root \/ n0 <= h
  | EvCheckProcSelfFdPath _ h => h = root \/ n0 <= h
  | EvOpenat d name => n0 <= d /\ name <> "" /\ no_slash name
  | EvReadlinkat d name => n0 <= d /\ name <> "" /\ no_slash name
  | EvStat h => n0 <= h
  | EvClose h => n0 <= h
  end.

Definition is_readlinkat (ev : Event) : bool :=
  match ev with EvReadlinkat _ _ => true | _ => false end.

(** How many links the logged events read. *)
Definition links_read (evs : list Event) : nat :=
  length (filter is_readlinkat evs).

(** A component that is an ordinary name: not empty, without a slash,
    neither [.] nor [..]. *)
Definition name_ok (c : string) : Prop := c <> "" /\ no_slash c /\ plain c.

(** A name that a directory can hold: without a NUL byte and of at most
    [NAME_MAX] bytes. *)
Definition fits (c : string) : Prop :=
  OS.has_nul c = false /\ String.length c <= OS.NAME_MAX.

(** A name of [n] bytes. *)
Fixpoint xs (n : nat) : string :=
  match n with
  | 0 => ""
  | S k => String "x" (xs k)
  end.

(** Two results that agree up to the text of an error. *)
Definition same_outcome (r1 r2 : Result) : Prop :=
  match r1, r2 with
  | inr a, inr b => a = b
  | inl _, inl _ => True
  | _, _ => False
  end.

(** Two iterations that end alike: the same world and variables, and
    results that agree up to the text of an error. *)
Definition same_step (a b : World * Step) : Prop :=
  fst a = fst b
  /\ match snd a, snd b with
     | Continue s1, Continue s2 => s1 = s2
     | Return s1 r1, Return s2 r2 => s1 = s2 /\ same_outcome r1 r2
     | _, _ => False
     end.

(** The object at a location is a directory. *)
Definition is_dir (n : Inode) (l : Loc) : Prop :=
  exists es, OS.lookup n l = Some (Dir es).

(** The world after [..] has been opened, examined and checked. *)
Definition after_dotdot (root : Handle) (rootLoc : Loc) (w : World)
  (cur : Handle) (cp : string) : World :=
  OS.emit (EvCheckProcSelfFdPath
             (OS.path_of_loc rootLoc +++ Path.Join ["/"; cp; ".."])
             (next_handle w))
    (OS.emit (EvCheckProcSelfFdPath (OS.path_of_loc rootLoc) root)
       (OS.Close (OS.emit (EvStat (next_handle w))
                    (fst (OS.alloc (OS.emit (EvOpenat cur "..") w)
                            (removelast (rootLoc ++ components cp))))) cur)).

(** The world after a name has been opened, found to be a directory and
    walked into. *)
Definition after_enter (w : World) (cur : Handle) (c : string) (l : Loc) : World :=
  OS.Close (OS.emit (EvStat (next_handle w))
              (fst (OS.alloc (OS.emit (EvOpenat cur c) w) l))) cur.

(** The world after a name has been opened, found to be a symlink and
    read, and its entry pushed on an empty stack. *)
Definition after_link (w : World) (cur : Handle) (c : string) (l lcur : Loc)
  : World :=
  fst (OS.alloc
         (OS.emit (EvDup cur)
            (OS.emit (EvReadlinkat cur c)
               (OS.Close (OS.emit (EvStat (next_handle w))
                            (fst (OS.alloc (OS.emit (EvOpenat cur c) w) l)))
                  (next_handle w))))
         lcur).

(* ================================================================== *)
(** ** The stack methods *)
(* ================================================================== *)

Section StackFacts.

Implicit Types (s : symlinkStack) (e : symlinkStackEntry) (w : World).

Lemma nth_error_snoc s e : nth_error (s ++ [e]) (length s) = Some e.
Proof.
  induction s as [|x s IH]; simpl; auto.
Qed.

Lemma firstn_snoc s e : firstn (length s) (s ++ [e]) = s.
Proof.
  induction s as [|x s IH]; simpl; auto. now rewrite IH.
Qed.

Lemma length_snoc_pred s e : length (s ++ [e]) - 1 = length s.
Proof.
  rewrite length_app. simpl. lia.
Qed.

Lemma IsEmpty_snoc s e : SymlinkStack.IsEmpty (s ++ [e]) = false.
Proof.
  unfold SymlinkStack.IsEmpty. rewrite length_app. simpl.
  apply Nat.eqb_neq. lia.
Qed.

(** [popPart] on a stack with tail entry [e]. *)
Lemma popPart_snoc s e part :
  SymlinkStack.popPart (s ++ [e]) part =
  match linkUnwalked e with
  | [] => (s ++ [e],
           Some (Wrap "trying to pop component of empty stack entry"
                      (Base errBrokenSymlinkStack)))
  | headPart :: _ =>
      if (headPart =? part)%string then (s ++ [consume_head e], None)
      else (s ++ [e],
            Some (Wrap "trying to pop component but the last stack entry is"
                       (Base errBrokenSymlinkStack)))
  end.
Proof.
  unfold SymlinkStack.popPart.
  rewrite IsEmpty_snoc, length_snoc_pred, nth_error_snoc, firstn_snoc.
  destruct e as [d r u]; simpl. destruct u as [|h u]; auto.
  unfold consume_head; simpl. destruct (h =? part)%string; auto.
Qed.

Lemma cleanup_spec s : forall w,
  SymlinkStack.cleanup (length s) w s =
  (close_entries w (trailing_empty s), without_trailing_empty s).
Proof.
  induction s as [|e s IH] using rev_ind; intros w.
  - reflexivity.
  - unfold trailing_empty, without_trailing_empty.
    rewrite rev_app_distr, length_app. simpl.
    replace (length s + 1) with (S (length s)) by lia. simpl.
    rewrite nth_error_snoc, firstn_snoc.
    unfold entry_is_empty at 1 3. destruct (linkUnwalked e) as [|h u]; simpl.
    + rewrite IH. reflexivity.
    + rewrite rev_involutive. reflexivity.
Qed.

End StackFacts.

(** C8 ([PopPart]).  On an empty stack [PopPart] succeeds and changes
    nothing.  On a stack with tail entry [e] it succeeds exactly when the
    first unwalked component of [e] is the given component; it then consumes
    that component, drops the run of empty entries at the tail and closes
    their directories.  When [e] has no unwalked component, and when its
    first one differs, the stack and the world stay as they were and the
    error is a broken-symlink-stack one. *)
Theorem PopPart_spec :
  forall (w : World) (part : string),
    SymlinkStack.PopPart w [] part = (w, [], None)
    /\ forall (s : symlinkStack) (e : symlinkStackEntry),
         (snd (SymlinkStack.PopPart w (s ++ [e]) part) = None
          <-> hd_error (linkUnwalked e) = Some part)
         /\ SymlinkStack.PopPart w (s ++ [e]) part =
            match linkUnwalked e with
            | [] =>
                (w, s ++ [e],
                 Some (Wrap "trying to pop component of empty stack entry"
                            (Base errBrokenSymlinkStack)))
            | headPart :: _ =>
                if (headPart =? part)%string then
                  (close_entries w (trailing_empty (s ++ [consume_head e])),
                   without_trailing_empty (s ++ [consume_head e]),
                   None)
                else
                  (w, s ++ [e],
                   Some (Wrap "trying to pop component but the last stack entry is"
                              (Base errBrokenSymlinkStack)))
            end
         /\ (forall err,
               snd (SymlinkStack.PopPart w (s ++ [e]) part) = Some err ->
               errors_Is err errBrokenSymlinkStack = true).
Proof.
  intros w part. split; [reflexivity|].
  intros s e.
  assert (E : SymlinkStack.PopPart w (s ++ [e]) part =
            match linkUnwalked e with
            | [] =>
                (w, s ++ [e],
                 Some (Wrap "trying to pop component of empty stack entry"
                            (Base errBrokenSymlinkStack)))
            | headPart :: _ =>
                if (headPart =? part)%string then
                  (close_entries w (trailing_empty (s ++ [consume_head e])),
                   without_trailing_empty (s ++ [consume_head e]),
                   None)
                else
                  (w, s ++ [e],
                   Some (Wrap "trying to pop component but the last stack entry is"
                              (Base errBrokenSymlinkStack)))
            end).
  { unfold SymlinkStack.PopPart. rewrite popPart_snoc.
    destruct (linkUnwalked e) as [|h u]; [reflexivity|].
    destruct (h =? part)%string; [|reflexivity].
    rewrite cleanup_spec. reflexivity. }
  rewrite E. split; [|split; [reflexivity|]].
  - destruct (linkUnwalked e) as [|h u]; simpl.
    + split; discriminate.
    + destruct (String.eqb_spec h part) as [->|N]; simpl.
      * split; auto.
      * split; [discriminate|]. intros H. inversion H. contradiction.
  - intros err. destruct (linkUnwalked e) as [|h u]; simpl.
    + intros H. inversion H. reflexivity.
    + destruct (h =? part)%string; simpl; intros H; inversion H. reflexivity.
Qed.

(* ================================================================== *)
(** ** The loop: fuel and termination *)
(* ================================================================== *)

Ltac break_match_hyp H :=
  match type of H with
  | context [match ?x with _ => _ end] => destruct x eqn:?
  end.

Ltac break_match_goal :=
  match goal with
  | |- context [match ?x with _ => _ end] => destruct x eqn:?
  end.

Ltac inv H := inversion H; subst; clear H.

Section LoopFacts.

Variable maxSymlinkLimit : nat.
Variable root : Handle.
Variable unsafePath : string.
Variable logicalRootPath : string.

Local Abbreviation body := (loop_body maxSymlinkLimit root unsafePath logicalRootPath).
Local Abbreviation walk := (loop maxSymlinkLimit root unsafePath logicalRootPath).

Lemma loop_unfold fuel w st :
  walk (S fuel) w st =
  if (Walk.remainingPath st =? "")%string then
    Some (w, st, inr (Walk.currentDir st, ""))
  else
    match body w st with
    | (w, Continue st') => walk fuel w st'
    | (w, Return st' res) => Some (w, st', res)
    end.
Proof.
  reflexivity.
Qed.

Lemma loop_fuel_S fuel : forall w st r,
  walk fuel w st = Some r -> walk (S fuel) w st = Some r.
Proof.
  induction fuel as [|fuel IH]; intros w st r H; [discriminate|].
  rewrite loop_unfold in H. rewrite loop_unfold.
  destruct (Walk.remainingPath st =? "")%string; auto.
  destruct (body w st) as [w1 [st1|st1 res]]; auto.
Qed.

Lemma loop_fuel_le fuel fuel' w st r :
  fuel <= fuel' -> walk fuel w st = Some r -> walk fuel' w st = Some r.
Proof.
  induction 1; auto using loop_fuel_S.
Qed.

Lemma length_slice_from s : forall i,
  Strings.IndexByte s "/" = Some i ->
  String.length (Strings.slice_from (i + 1) s) < String.length s.
Proof.
  induction s as [|a s IH]; intros i H; simpl in H; [discriminate|].
  destruct (Ascii.eqb a "/").
  - inv H. simpl. destruct s; simpl; lia.
  - destruct (Strings.IndexByte s "/") as [j|] eqn:E; [|discriminate].
    inv H. simpl. specialize (IH j eq_refl). lia.
Qed.

Lemma next_part_shorter s part rest :
  s <> "" -> next_part s = (part, rest) ->
  String.length rest < String.length s.
Proof.
  unfold next_part. intros N H.
  destruct (Strings.IndexByte s "/") as [i|] eqn:E; inv H.
  - now apply length_slice_from.
  - destruct part; [contradiction|simpl; lia].
Qed.

(** A step that continues either shortens the remaining path or follows a
    symlink within the limit. *)
Lemma continue_measure w st w' st' :
  Walk.remainingPath st <> "" ->
  body w st = (w', Continue st') ->
  (Walk.linksWalked st' = Walk.linksWalked st
   /\ String.length (Walk.remainingPath st') < String.length (Walk.remainingPath st))
  \/ (Walk.linksWalked st' = Walk.linksWalked st + 1
      /\ Walk.linksWalked st' <= maxSymlinkLimit).
Proof.
  intros N H. unfold loop_body in H.
  destruct (next_part (Walk.remainingPath st)) as [part rest] eqn:EP.
  pose proof (next_part_shorter _ _ _ N EP) as L.
  repeat (break_match_hyp H; try discriminate); inv H; simpl; auto;
    right; split; auto;
    match goal with
    | E : Nat.ltb _ _ = false |- _ => apply Nat.ltb_ge in E; lia
    end.
Qed.

(** What a finished loop says about the symlink counter. *)
Lemma return_counter w st w' st' res :
  Walk.linksWalked st <= maxSymlinkLimit ->
  body w st = (w', Return st' res) ->
  Walk.linksWalked st' <= maxSymlinkLimit + 1
  /\ (maxSymlinkLimit < Walk.linksWalked st' ->
      res = inl (PathError "partialLookupInRoot"
                   (logicalRootPath +++ "/" +++ unsafePath) ELOOP)).
Proof.
  intros B H. unfold loop_body in H.
  repeat (break_match_hyp H; try discriminate); inv H; simpl;
    try (split; [lia|intros; lia]).
  all: split; [lia|auto].
  all: match goal with
    | E : Nat.ltb _ _ = false |- _ => apply Nat.ltb_ge in E; intros; lia
    end.
Qed.

Lemma loop_terminates_aux : forall n m w st,
  maxSymlinkLimit + 1 - Walk.linksWalked st <= n ->
  String.length (Walk.remainingPath st) <= m ->
  exists fuel r, walk fuel w st = Some r.
Proof.
  induction n as [|n IHn]; induction m as [|m IHm]; intros w st Hn Hm.
  all: destruct (String.eqb_spec (Walk.remainingPath st) "") as [E|N];
    [exists 1; eexists; rewrite loop_unfold, E; reflexivity|].
  all: try (destruct (Walk.remainingPath st); [contradiction|simpl in Hm; lia]).
  all: destruct (body w st) as [w1 [st1|st1 res]] eqn:EB;
    [|exists 1; eexists; rewrite loop_unfold;
      destruct (String.eqb_spec (Walk.remainingPath st) ""); [contradiction|];
      rewrite EB; reflexivity].
  all: destruct (continue_measure _ _ _ _ N EB) as [[L1 L2]|[L1 L2]].
  - destruct (IHm w1 st1) as (fuel & r & Hr); [lia|lia|].
    exists (S fuel), r. rewrite loop_unfold.
    destruct (String.eqb_spec (Walk.remainingPath st) ""); [contradiction|].
    now rewrite EB.
  - lia.
  - destruct (IHm w1 st1) as (fuel & r & Hr); [lia|lia|].
    exists (S fuel), r. rewrite loop_unfold.
    destruct (String.eqb_spec (Walk.remainingPath st) ""); [contradiction|].
    now rewrite EB.
  - destruct (IHn (String.length (Walk.remainingPath st1)) w1 st1)
      as (fuel & r & Hr); [lia|lia|].
    exists (S fuel), r. rewrite loop_unfold.
    destruct (String.eqb_spec (Walk.remainingPath st) ""); [contradiction|].
    now rewrite EB.
Qed.

Lemma loop_terminates w st : exists fuel r, walk fuel w st = Some r.
Proof.
  eapply loop_terminates_aux; eauto.
Qed.

Lemma loop_counter fuel : forall w st w' st' res,
  Walk.linksWalked st <= maxSymlinkLimit ->
  walk fuel w st = Some (w', st', res) ->
  Walk.linksWalked st' <= maxSymlinkLimit + 1
  /\ (maxSymlinkLimit < Walk.linksWalked st' ->
      res = inl (PathError "partialLookupInRoot"
                   (logicalRootPath +++ "/" +++ unsafePath) ELOOP)).
Proof.
  induction fuel as [|fuel IH]; intros w st w' st' res B H; [discriminate|].
  rewrite loop_unfold in H.
  destruct (String.eqb_spec (Walk.remainingPath st) "") as [E|N].
  - inv H. split; [lia|intros; lia].
  - destruct (body w st) as [w1 [st1|st1 res1]] eqn:EB.
    + apply (IH _ _ _ _ _) in H; auto.
      destruct (continue_measure _ _ _ _ N EB) as [[L1 L2]|[L1 L2]]; lia.
    + inv H. eapply return_counter; eauto.
Qed.

End LoopFacts.

(* ================================================================== *)
(** ** The operating-system calls, one by one *)
(* ================================================================== *)

Section OSFacts.

Implicit Types (w : World) (h d : Handle) (l : Loc).

Lemma log_emit ev w : log (OS.emit ev w) = log w ++ [ev].
Proof. reflexivity. Qed.

Lemma log_alloc w l : log (fst (OS.alloc w l)) = log w.
Proof. reflexivity. Qed.

Lemma log_Close w h : log (OS.Close w h) = log w ++ [EvClose h].
Proof. reflexivity. Qed.

Lemma host_emit ev w : host (OS.emit ev w) = host w.
Proof. reflexivity. Qed.

Lemma host_alloc w l : host (fst (OS.alloc w l)) = host w.
Proof. reflexivity. Qed.

Lemma host_Close w h : host (OS.Close w h) = host w.
Proof. reflexivity. Qed.

Lemma next_emit ev w : next_handle (OS.emit ev w) = next_handle w.
Proof. reflexivity. Qed.

Lemma next_alloc w l : next_handle (fst (OS.alloc w l)) = S (next_handle w).
Proof. reflexivity. Qed.

Lemma next_Close w h : next_handle (OS.Close w h) = next_handle w.
Proof. reflexivity. Qed.

Lemma loc_emit ev w h : OS.handle_loc (OS.emit ev w) h = OS.handle_loc w h.
Proof. reflexivity. Qed.

Lemma loc_alloc w l h :
  OS.handle_loc (fst (OS.alloc w l)) h =
  if Nat.eqb (next_handle w) h then Some l else OS.handle_loc w h.
Proof.
  unfold OS.handle_loc. simpl. destruct (Nat.eqb (next_handle w) h); reflexivity.
Qed.

Lemma loc_Close w h h' :
  OS.handle_loc (OS.Close w h) h' =
  if Nat.eqb h' h then None else OS.handle_loc w h'.
Proof.
  unfold OS.handle_loc, OS.Close. simpl.
  induction (open_files w) as [|[x lx] fs IH]; simpl.
  - destruct (Nat.eqb h' h); reflexivity.
  - destruct (Nat.eqb_spec x h) as [->|N]; simpl.
    + rewrite IH. destruct (Nat.eqb_spec h' h) as [->|N'].
      * reflexivity.
      * destruct (Nat.eqb_spec h h'); [congruence|reflexivity].
    + destruct (Nat.eqb_spec x h') as [->|N'].
      * destruct (Nat.eqb_spec h' h); [congruence|reflexivity].
      * exact IH.
Qed.

Lemma loc_open_lt w h l :
  world_ok w -> OS.handle_loc w h = Some l -> h < next_handle w.
Proof.
  unfold world_ok, OS.handle_loc. intros OK H.
  destruct (find (fun p => Nat.eqb (fst p) h) (open_files w)) as [[x lx]|] eqn:E;
    [|discriminate].
  apply find_some in E. destruct E as [I E]. simpl in E.
  apply Nat.eqb_eq in E. subst. eauto.
Qed.

(** The calls written out: the world each one leaves, by case. *)

Lemma dupFile_eq w h :
  OS.dupFile w h =
  match OS.handle_loc w h with
  | None => (OS.emit (EvDup h) w, inl (Base (Sys EBADF)))
  | Some l => (fst (OS.alloc (OS.emit (EvDup h) w) l), inr (next_handle w))
  end.
Proof.
  unfold OS.dupFile. rewrite loc_emit. destruct (OS.handle_loc w h); reflexivity.
Qed.

Lemma openatFile_eq w d name :
  OS.openatFile w d name =
  match open_target w d name with
  | inl err => (OS.emit (EvOpenat d name) w, inl err)
  | inr l => (fst (OS.alloc (OS.emit (EvOpenat d name) w) l), inr (next_handle w))
  end.
Proof.
  unfold OS.openatFile, open_target. rewrite loc_emit, host_emit.
  destruct (OS.handle_loc w d) as [l|]; [|reflexivity].
  destruct (OS.lookup (host w) l) as [[es|t|]|]; try reflexivity.
  destruct (name =? ".")%string; [reflexivity|].
  destruct (name =? "..")%string; [reflexivity|].
  destruct (OS.find_entry name es); reflexivity.
Qed.

Lemma Stat_world w h : fst (OS.Stat w h) = OS.emit (EvStat h) w.
Proof.
  unfold OS.Stat. rewrite loc_emit, host_emit.
  destruct (OS.handle_loc w h) as [l|]; [|reflexivity].
  destruct (OS.lookup (host w) l) as [[es|t|]|]; reflexivity.
Qed.

Lemma readlinkatFile_world w d name :
  fst (OS.readlinkatFile w d name) = OS.emit (EvReadlinkat d name) w.
Proof.
  unfold OS.readlinkatFile. rewrite loc_emit, host_emit.
  destruct (OS.handle_loc w d) as [l|]; [|reflexivity].
  destruct (OS.lookup (host w) l) as [[es|t|]|]; try reflexivity.
  destruct ((name =? ".")%string || (name =? "..")%string); [reflexivity|].
  destruct (OS.find_entry name es) as [[?|?|]|]; reflexivity.
Qed.

Lemma procSelfFdReadlink_world w h :
  fst (OS.procSelfFdReadlink w h) = OS.emit (EvProcSelfFdReadlink h) w.
Proof.
  unfold OS.procSelfFdReadlink. rewrite loc_emit.
  destruct (OS.handle_loc w h); reflexivity.
Qed.

Lemma checkProcSelfFdPath_world w p h :
  fst (OS.checkProcSelfFdPath w p h) = OS.emit (EvCheckProcSelfFdPath p h) w.
Proof.
  unfold OS.checkProcSelfFdPath. rewrite loc_emit.
  destruct (OS.handle_loc w h) as [l|]; [|reflexivity].
  destruct (OS.path_of_loc l =? p)%string; reflexivity.
Qed.

End OSFacts.

(* ================================================================== *)
(** ** The whole call: fuel *)
(* ================================================================== *)

Lemma partialLookupInRoot_fuel_le limit fuel fuel' w root path r :
  fuel <= fuel' ->
  partialLookupInRoot limit fuel w root path = Some r ->
  partialLookupInRoot limit fuel' w root path = Some r.
Proof.
  unfold partialLookupInRoot. intros L H.
  destruct (OS.procSelfFdReadlink w root) as [w1 [err|lrp]]; auto.
  destruct (OS.dupFile w1 root) as [w2 [err|cur]]; auto.
  destruct (loop limit root path lrp fuel w2 _) as [[[w3 st] res]|] eqn:E;
    [|discriminate].
  now rewrite (loop_fuel_le _ _ _ _ _ _ _ _ _ L E).
Qed.

Lemma partialLookupInRoot_terminates limit w root path :
  exists fuel, forall fuel', fuel <= fuel' ->
    exists r, partialLookupInRoot limit fuel' w root path = Some r.
Proof.
  unfold partialLookupInRoot.
  destruct (OS.procSelfFdReadlink w root) as [w1 [err|lrp]];
    [exists 0; eauto|].
  destruct (OS.dupFile w1 root) as [w2 [err|cur]]; [exists 0; eauto|].
  destruct (loop_terminates limit root path lrp w2 (Walk.mk cur [] 0 "" path))
    as (fuel & [[w3 st] res] & H).
  exists fuel. intros fuel' L.
  rewrite (loop_fuel_le _ _ _ _ _ _ _ _ _ L H). eauto.
Qed.

(* ================================================================== *)
(** ** Dangling chains and tail chains *)
(* ================================================================== *)

(** C2 (dangling-chain attribution).  When opening the component fails
    with not-found and the stack is [e :: es], the iteration returns, with
    no error, the directory and remaining path saved in [e], the oldest
    entry, and closes the current directory.  When the component is neither
    a directory nor a symlink and the stack left by [PopPart] is [e :: es],
    it returns the same pair and closes the handle it had just opened.  For
    [/r/a -> b/c] with [/r/b] a directory without [c], looking up [a]
    returns a handle for [/r] and the remaining path [a]. *)
Theorem dangling_chain_attribution :
  (forall limit root path lrp w st part rest w1 err e es,
     next_part (Walk.remainingPath st) = (part, rest) ->
     part <> "" ->
     Path.Join ["/"; Walk.currentPath st; part] <> "/" ->
     OS.openatFile w (Walk.currentDir st) part = (w1, inl err) ->
     errors_Is err ErrNotExist = true ->
     Walk.symlinkStack st = e :: es ->
     exists st',
       loop_body limit root path lrp w st =
         (OS.Close w1 (Walk.currentDir st),
          Return st' (inr (dir e, remainingPath e)))
       /\ Walk.symlinkStack st' = es)
  /\ (forall limit root path lrp w st part rest w1 nextDir w2 w3 e es,
        next_part (Walk.remainingPath st) = (part, rest) ->
        part <> "" ->
        Path.Join ["/"; Walk.currentPath st; part] <> "/" ->
        OS.openatFile w (Walk.currentDir st) part = (w1, inr nextDir) ->
        OS.Stat w1 nextDir = (w2, inr ModeOther) ->
        SymlinkStack.PopPart (OS.Close w2 (Walk.currentDir st))
          (Walk.symlinkStack st) part = (w3, e :: es, None) ->
        exists st',
          loop_body limit root path lrp w st =
            (OS.Close w3 nextDir, Return st' (inr (dir e, remainingPath e)))
          /\ Walk.symlinkStack st' = es)
  /\ (forall fuel, 4 <= fuel ->
        exists w' h,
          partialLookupInRoot 255 fuel Examples.dangling 0 "a"
            = Some (w', inr (h, "a"))
          /\ OS.handle_loc w' h = Some ["r"]).
Proof.
  split; [|split].
  - intros limit root path lrp w st part rest w1 err e es HP N NR HO HE HS.
    unfold loop_body. rewrite HP.
    destruct (String.eqb_spec part ""); [contradiction|].
    destruct (String.eqb_spec (Path.Join ["/"; Walk.currentPath st; part]) "/");
      [contradiction|].
    rewrite HO, HE, HS. simpl. eexists. split; reflexivity.
  - intros limit root path lrp w st part rest w1 nextDir w2 w3 e es
      HP N NR HO HT HS.
    unfold loop_body. rewrite HP.
    destruct (String.eqb_spec part ""); [contradiction|].
    destruct (String.eqb_spec (Path.Join ["/"; Walk.currentPath st; part]) "/");
      [contradiction|].
    rewrite HO, HT, HS. simpl. eexists. split; reflexivity.
  - intros fuel L.
    destruct (partialLookupInRoot 255 4 Examples.dangling 0 "a")
      as [[w' res]|] eqn:E; [|vm_compute in E; discriminate].
    rewrite (partialLookupInRoot_fuel_le _ _ _ _ _ _ _ L E).
    vm_compute in E. inv E. eexists. eexists. split; reflexivity.
Qed.

(** C5 (tail-chain preservation).  [SwapLink] on a stack whose tail entry
    has the link's component as its only unwalked one leaves that entry in
    place, emptied, and appends the entry of the new link; [PopPart] of the
    new link's last component then drops both.  For [/r/a -> b],
    [/r/b -> c] and a regular file [/r/c], looking up [a/extra] returns a
    handle for [/r/c] and the remaining path [extra]. *)
Theorem tail_chain_preserved :
  (forall w s d rem part cur l rem' target,
     OS.handle_loc w cur = Some l ->
     components target <> [] ->
     SymlinkStack.SwapLink w (s ++ [mkEntry d rem [part]]) part cur rem' target =
       (fst (OS.alloc (OS.emit (EvDup cur) w) l),
        s ++ [mkEntry d rem [];
              mkEntry (next_handle w) rem' (components target)],
        None))
  /\ (forall w s d rem d' rem' part,
        SymlinkStack.PopPart w
          (s ++ [mkEntry d rem []; mkEntry d' rem' [part]]) part =
          (close_entries (OS.Close (OS.Close w d') d) (trailing_empty s),
           without_trailing_empty s, None))
  /\ (forall fuel, 4 <= fuel ->
        exists w' h,
          partialLookupInRoot 255 fuel Examples.tail_chain 0 "a/extra"
            = Some (w', inr (h, "extra"))
          /\ OS.handle_loc w' h = Some ["r"; "c"]).
Proof.
  split; [|split].
  - intros w s d rem part cur l rem' target HL HC.
    unfold SymlinkStack.SwapLink. rewrite popPart_snoc. simpl.
    rewrite String.eqb_refl. unfold SymlinkStack.push.
    fold (components target).
    destruct (components target) as [|c cs] eqn:EC; [contradiction|].
    simpl. rewrite dupFile_eq, HL. rewrite <- app_assoc. reflexivity.
  - intros w s d rem d' rem' part.
    replace (s ++ [mkEntry d rem []; mkEntry d' rem' [part]])
      with ((s ++ [mkEntry d rem []]) ++ [mkEntry d' rem' [part]])
      by (rewrite <- app_assoc; reflexivity).
    destruct (PopPart_spec w part) as [_ H].
    destruct (H (s ++ [mkEntry d rem []]) (mkEntry d' rem' [part])) as (_ & E & _).
    rewrite E. simpl. rewrite String.eqb_refl.
    unfold trailing_empty, without_trailing_empty, consume_head. simpl.
    rewrite !rev_app_distr. simpl. reflexivity.
  - intros fuel L.
    destruct (partialLookupInRoot 255 4 Examples.tail_chain 0 "a/extra")
      as [[w' res]|] eqn:E; [|vm_compute in E; discriminate].
    rewrite (partialLookupInRoot_fuel_le _ _ _ _ _ _ _ L E).
    vm_compute in E. inv E. eexists. eexists. split; reflexivity.
Qed.

(* ================================================================== *)
(** ** Requests without components *)
(* ================================================================== *)

Lemma loop_slashes limit root path lrp n : forall fuel w cur stk lw cp,
  n < fuel ->
  loop limit root path lrp fuel w (Walk.mk cur stk lw cp (slashes n)) =
  Some (w, Walk.mk cur stk lw cp "", inr (cur, "")).
Proof.
  induction n as [|n IH]; intros fuel w cur stk lw cp L;
    (destruct fuel as [|fuel]; [lia|]).
  - reflexivity.
  - rewrite loop_unfold. simpl. unfold loop_body. simpl.
    apply IH. lia.
Qed.

(** C10 (requests without components).  For a request made only of
    slashes, the empty request included, and an open root, the call logs
    the root-path query and one duplication of the root and nothing else
    (no component is opened), and returns the new handle, which stands where
    the root stands, with an empty remaining path and no error. *)
Theorem slashes_only_request :
  forall limit n fuel w root l,
    OS.handle_loc w root = Some l ->
    n < fuel ->
    partialLookupInRoot limit fuel w root (slashes n) =
    Some (mkWorld (host w) ((next_handle w, l) :: open_files w)
                  (S (next_handle w))
                  (log w ++ [EvProcSelfFdReadlink root; EvDup root]),
          inr (next_handle w, "")).
Proof.
  intros limit n fuel w root l HL L.
  unfold partialLookupInRoot, OS.procSelfFdReadlink.
  rewrite loc_emit, HL, dupFile_eq, loc_emit, HL.
  rewrite loop_slashes by assumption.
  unfold deferred, OS.alloc, OS.emit. simpl.
  rewrite <- app_assoc. reflexivity.
Qed.

Lemma slashes_only_request_witness :
  partialLookupInRoot 255 3 (Examples.world_r []) 0 "//" =
  Some (mkWorld (Dir [("r", Dir [])]) [(1, ["r"]); (0, ["r"])] 2
                [EvProcSelfFdReadlink 0; EvDup 0],
        inr (1, "")).
Proof.
  apply (slashes_only_request 255 2 3 (Examples.world_r []) 0 ["r"]).
  - reflexivity.
  - lia.
Defined.

(* ================================================================== *)
(** ** Three runs that go against the claims *)
(* ================================================================== *)

(** C7 (handle hygiene) fails on this run.  With [/r/a -> b], [/r/b -> /]
    and a regular file [/r/x], looking up [a/x] ends in the broken-stack
    error of the non-directory branch, and the handle opened for [x] (6)
    is still open afterwards: two files are open where one was before the
    call, although an error is returned. *)
Theorem handle_left_open_on_error :
  exists w' err,
    partialLookupInRoot 255 6 Examples.link_to_root 0 "a/x" = Some (w', inl err)
    /\ errors_Is err errBrokenSymlinkStack = true
    /\ open_files Examples.link_to_root = [(0, ["r"])]
    /\ open_files w' = [(6, ["r"; "x"]); (0, ["r"])]
    /\ In (EvOpenat 5 "x") (log w')
    /\ ~ In (EvClose 6) (log w').
Proof.
  destruct (partialLookupInRoot 255 6 Examples.link_to_root 0 "a/x")
    as [[w' res]|] eqn:E; vm_compute in E; [|discriminate].
  inv E. eexists. eexists. split; [reflexivity|].
  split; [reflexivity|]. split; [reflexivity|]. split; [reflexivity|].
  split.
  - simpl. tauto.
  - simpl. intros H.
    repeat (destruct H as [H|H]; [discriminate|]). exact H.
Qed.

(** C3 as stated fails on this run.  With [/r/a -> f/] and a regular file
    [/r/f], looking up [a] returns the remaining path [/], which is not a
    suffix of the request. *)
Lemma remaining_path_not_suffix :
  exists w' h rem,
    partialLookupInRoot 255 3 Examples.trailing_slash 0 "a"
      = Some (w', inr (h, rem))
    /\ OS.handle_loc w' h = Some ["r"; "f"]
    /\ rem = "/"
    /\ ~ is_suffix rem "a".
Proof.
  destruct (partialLookupInRoot 255 3 Examples.trailing_slash 0 "a")
    as [[w' res]|] eqn:E; vm_compute in E; [|discriminate].
  inv E. do 3 eexists. split; [reflexivity|].
  split; [reflexivity|]. split; [reflexivity|].
  intros [p H]. destruct p as [|c p]; simpl in H; [discriminate|].
  inv H. destruct p; discriminate.
Qed.

(** C4 as stated fails on this run.  With a directory [/r/a], looking up
    [a/..] walks into [a] and then, on the component [..], replaces the
    current directory by a duplicate of the root; the log of the whole call
    holds no race check. *)
Lemma dotdot_to_root_unchecked :
  exists w' h,
    partialLookupInRoot 255 3 Examples.one_dir 0 "a/.." = Some (w', inr (h, ""))
    /\ OS.handle_loc w' h = Some ["r"]
    /\ log w' = [EvProcSelfFdReadlink 0; EvDup 0; EvOpenat 1 "a"; EvStat 2;
                 EvClose 1; EvDup 0; EvClose 2]
    /\ filter is_check (log w') = [].
Proof.
  destruct (partialLookupInRoot 255 3 Examples.one_dir 0 "a/..")
    as [[w' res]|] eqn:E; vm_compute in E; [|discriminate].
  inv E. do 2 eexists. repeat split; reflexivity.
Qed.

(* ================================================================== *)
(** ** Strings: components and the next part *)
(* ================================================================== *)

Section StringFacts.

Implicit Types (s p r t : string).

Lemma append_nil_r s : s +++ "" = s.
Proof.
  induction s as [|a s IH]; simpl; [reflexivity|now rewrite IH].
Qed.

Lemma append_assoc s p r : (s +++ p) +++ r = s +++ p +++ r.
Proof.
  induction s as [|a s IH]; simpl; [reflexivity|now rewrite IH].
Qed.

Lemma no_slash_cons a s : no_slash (String a s) <-> a <> "/"%char /\ no_slash s.
Proof.
  unfold no_slash. simpl. destruct (Ascii.eqb_spec a "/") as [->|N].
  - split; [discriminate|]. intros [H _]. contradiction.
  - destruct (Strings.IndexByte s "/"); simpl; split; try discriminate; auto.
    intros [_ H]. discriminate.
Qed.

Lemma no_slash_empty : no_slash "".
Proof. reflexivity. Qed.

Lemma IndexByte_seg seg r :
  no_slash seg ->
  Strings.IndexByte (seg +++ String "/" r) "/" = Some (String.length seg).
Proof.
  induction seg as [|a seg IH]; intros N; [reflexivity|].
  apply no_slash_cons in N. destruct N as [Na N].
  simpl. destruct (Ascii.eqb_spec a "/"); [contradiction|].
  now rewrite IH.
Qed.

Lemma slice_to_app seg t : Strings.slice_to (String.length seg) (seg +++ t) = seg.
Proof.
  induction seg as [|a seg IH]; simpl; [destruct t; reflexivity|now rewrite IH].
Qed.

Lemma slice_from_app seg a r :
  Strings.slice_from (String.length seg + 1) (seg +++ String a r) = r.
Proof.
  induction seg as [|b seg IH]; simpl; [reflexivity|exact IH].
Qed.

(** The first part of [seg/r] is [seg]. *)
Lemma next_part_seg seg r :
  no_slash seg -> next_part (seg +++ "/" +++ r) = (seg, r).
Proof.
  intros N. unfold next_part. simpl.
  now rewrite IndexByte_seg, slice_to_app, slice_from_app.
Qed.

Lemma IndexByte_split s : forall i,
  Strings.IndexByte s "/" = Some i ->
  no_slash (Strings.slice_to i s)
  /\ s = Strings.slice_to i s +++ "/" +++ Strings.slice_from (i + 1) s.
Proof.
  induction s as [|a s IH]; intros i H; simpl in H; [discriminate|].
  destruct (Ascii.eqb_spec a "/") as [E|Na].
  - injection H as <-. subst a. split; reflexivity.
  - destruct (Strings.IndexByte s "/") as [j|]; [|discriminate].
    injection H as <-. destruct (IH j eq_refl) as [N E].
    replace (j + 1) with (S j) in E by lia. simpl. split.
    + apply no_slash_cons. auto.
    + replace (j + 1) with (S j) by lia. simpl in *. congruence.
Qed.

(** What [next_part] returns in general. *)
Lemma next_part_cases s part rest :
  next_part s = (part, rest) ->
  no_slash part /\ ((s = part /\ rest = "") \/ s = part +++ "/" +++ rest).
Proof.
  unfold next_part.
  destruct (Strings.IndexByte s "/") as [i|] eqn:E; intros H.
  - destruct (IndexByte_split _ _ E) as [N Es].
    injection H as <- <-. auto.
  - injection H as <- <-. auto.
Qed.

Lemma next_part_suffix s part rest :
  next_part s = (part, rest) -> is_suffix rest s.
Proof.
  intros H. apply next_part_cases in H. destruct H as [_ [[E1 E2]|E]].
  - subst. exists part. now rewrite append_nil_r.
  - exists (part +++ "/"). now rewrite append_assoc.
Qed.

Lemma is_suffix_trans r t s : is_suffix r t -> is_suffix t s -> is_suffix r s.
Proof.
  intros [p ->] [q ->]. exists (q +++ p). now rewrite append_assoc.
Qed.

Lemma is_suffix_refl s : is_suffix s s.
Proof. now exists "". Qed.

Lemma is_suffix_empty s : is_suffix "" s.
Proof. exists s. now rewrite append_nil_r. Qed.

Lemma Split_nonnil s : Strings.Split s "/" <> [].
Proof.
  destruct s as [|a s]; simpl; [discriminate|].
  destruct (Ascii.eqb a "/"); [discriminate|].
  destruct (Strings.Split s "/"); discriminate.
Qed.

Lemma flat_Split s : flat (Strings.Split s "/") = s +++ "/".
Proof.
  induction s as [|a s IH]; simpl; [reflexivity|].
  destruct (Ascii.eqb_spec a "/") as [->|N].
  - simpl. now rewrite IH.
  - destruct (Strings.Split s "/") as [|h t]; simpl in *.
    + destruct s; discriminate.
    + now rewrite IH.
Qed.

Lemma Split_no_slash s : Forall no_slash (Strings.Split s "/").
Proof.
  induction s as [|a s IH]; simpl.
  - repeat constructor.
  - destruct (Ascii.eqb_spec a "/") as [->|N].
    + constructor; [reflexivity|assumption].
    + destruct (Strings.Split s "/") as [|h t].
      * constructor; [|constructor]. apply no_slash_cons. split; [auto|reflexivity].
      * inv IH. constructor; [|assumption]. apply no_slash_cons. auto.
Qed.

Lemma flat_app segs segs' : flat (segs ++ segs') = flat segs +++ flat segs'.
Proof.
  induction segs as [|x segs IH]; simpl; [reflexivity|].
  now rewrite IH, !append_assoc.
Qed.

(** Segments that are all empty lay out as a run of slashes. *)
Lemma flat_all_empty segs :
  filter nonempty segs = [] -> flat segs = slashes (length segs).
Proof.
  induction segs as [|x segs IH]; simpl; [reflexivity|].
  unfold nonempty at 1. destruct (String.eqb_spec x "") as [->|N]; simpl.
  - intros H. now rewrite IH.
  - discriminate.
Qed.

Lemma components_filter s :
  components s = filter nonempty (Strings.Split s "/").
Proof. reflexivity. Qed.

End StringFacts.

(* ================================================================== *)
(** ** The stack methods, by case *)
(* ================================================================== *)

Section StackCases.

Implicit Types (s : symlinkStack) (e : symlinkStackEntry) (w : World).

Lemma popPart_cases s part s' r :
  SymlinkStack.popPart s part = (s', r) ->
  (s = [] /\ s' = [] /\ r = Some (Base errEmptyStack))
  \/ (exists s0 e u, s = s0 ++ [e] /\ linkUnwalked e = part :: u
        /\ s' = s0 ++ [consume_head e] /\ r = None)
  \/ (exists err, s <> [] /\ s' = s /\ r = Some err
        /\ errors_Is err errEmptyStack = false
        /\ errors_Is err errBrokenSymlinkStack = true).
Proof.
  destruct s as [|x s0] using rev_ind.
  - intros H. inv H. auto.
  - clear IHs0. rewrite popPart_snoc. intros H.
    assert (NE : s0 ++ [x] <> []) by (destruct s0; discriminate).
    destruct (linkUnwalked x) as [|h u] eqn:EU.
    + inv H. right. right. eexists. repeat split; auto.
    + destruct (String.eqb_spec h part) as [->|N]; inv H.
      * right. left. exists s0, x, u. auto.
      * right. right. eexists. repeat split; auto.
Qed.

Lemma PopPart_cases w s part w' s' r :
  SymlinkStack.PopPart w s part = (w', s', r) ->
  (s = [] /\ s' = [] /\ w' = w /\ r = None)
  \/ (exists s0 e u, s = s0 ++ [e] /\ linkUnwalked e = part :: u
        /\ s' = without_trailing_empty (s0 ++ [consume_head e])
        /\ w' = close_entries w (trailing_empty (s0 ++ [consume_head e]))
        /\ r = None)
  \/ (exists err, s <> [] /\ s' = s /\ w' = w /\ r = Some err
        /\ errors_Is err errBrokenSymlinkStack = true).
Proof.
  unfold SymlinkStack.PopPart.
  destruct (SymlinkStack.popPart s part) as [s1 r1] eqn:E.
  apply popPart_cases in E.
  destruct E as [(-> & -> & ->)|[(s0 & e & u & -> & EU & -> & ->)|
                 (err & NE & -> & -> & E1 & E2)]].
  - simpl. intros H. inv H. auto.
  - rewrite cleanup_spec. intros H. inv H. right. left.
    exists s0, e, u. auto.
  - rewrite E1. intros H. inv H. right. right. eexists. repeat split; eauto.
Qed.

Lemma push_cases w s d rem target w' s' r :
  SymlinkStack.push w s d rem target = (w', s', r) ->
  (components target = [] /\ w' = w /\ s' = s /\ r = None)
  \/ (components target <> [] /\
      match OS.handle_loc w d with
      | None =>
          w' = OS.emit (EvDup d) w /\ s' = s /\ r = Some (Base (Sys EBADF))
      | Some l =>
          w' = fst (OS.alloc (OS.emit (EvDup d) w) l)
          /\ s' = s ++ [mkEntry (next_handle w) rem (components target)]
          /\ r = None
      end).
Proof.
  unfold SymlinkStack.push. fold (components target).
  destruct (components target) as [|c cs]; simpl.
  - intros H. inv H. auto.
  - rewrite dupFile_eq. intros H. right. split; [discriminate|].
    destruct (OS.handle_loc w d); inv H; auto.
Qed.

Lemma SwapLink_cases w s part d rem target w' s' r :
  SymlinkStack.SwapLink w s part d rem target = (w', s', r) ->
  (exists err, s <> [] /\ s' = s /\ w' = w /\ r = Some err)
  \/ (exists s1,
        ((s = [] /\ s1 = [])
         \/ exists s0 e u, s = s0 ++ [e] /\ linkUnwalked e = part :: u
              /\ s1 = s0 ++ [consume_head e])
        /\ SymlinkStack.push w s1 d rem target = (w', s', r)).
Proof.
  unfold SymlinkStack.SwapLink.
  destruct (SymlinkStack.popPart s part) as [s1 r1] eqn:E.
  apply popPart_cases in E.
  destruct E as [(-> & -> & ->)|[(s0 & e & u & -> & EU & -> & ->)|
                 (err & NE & -> & -> & E1 & E2)]].
  - simpl. intros H. right. exists []. auto.
  - intros H. right. eexists. split; [|exact H]. right.
    exists s0, e, u. auto.
  - rewrite E1. simpl. intros H. inv H. left. eauto.
Qed.

Lemma PopTopSymlink_cases s s' r :
  SymlinkStack.PopTopSymlink s = (s', r) ->
  (s = [] /\ s' = [] /\ r = None)
  \/ (exists e, s = e :: s' /\ r = Some (dir e, remainingPath e)).
Proof.
  destruct s as [|e s0]; intros H; inv H; eauto.
Qed.

Lemma split_trailing_empty s :
  s = without_trailing_empty s ++ rev (trailing_empty s).
Proof.
  unfold without_trailing_empty, trailing_empty.
  rewrite <- (rev_involutive s) at 1.
  induction (rev s) as [|x l IH]; simpl; [reflexivity|].
  destruct (entry_is_empty x); simpl.
  - rewrite IH at 1. rewrite <- app_assoc. reflexivity.
  - rewrite app_nil_r. reflexivity.
Qed.

Lemma trailing_empty_all s : Forall (fun e => linkUnwalked e = []) (trailing_empty s).
Proof.
  unfold trailing_empty. induction (rev s) as [|x l IH]; simpl; [constructor|].
  unfold entry_is_empty at 1. destruct (linkUnwalked x) eqn:E; constructor; auto.
Qed.

Lemma unwalked_of_snoc s e : unwalked_of (s ++ [e]) = linkUnwalked e ++ unwalked_of s.
Proof.
  unfold unwalked_of. rewrite rev_app_distr. reflexivity.
Qed.

Lemma unwalked_of_without_trailing_empty s :
  unwalked_of (without_trailing_empty s) = unwalked_of s.
Proof.
  unfold unwalked_of, without_trailing_empty. rewrite rev_involutive.
  induction (rev s) as [|x l IH]; simpl; [reflexivity|].
  unfold entry_is_empty at 1. destruct (linkUnwalked x) eqn:E; simpl.
  - exact IH.
  - now rewrite E.
Qed.

Lemma front_ok_prefix path s s2 : front_ok path (s ++ s2) -> front_ok path s.
Proof.
  destruct s; simpl; auto.
Qed.

Lemma front_ok_consume path s e :
  front_ok path (s ++ [e]) -> front_ok path (s ++ [consume_head e]).
Proof.
  destruct s; simpl; auto.
Qed.

Lemma front_ok_snoc path s e :
  (s = [] -> is_suffix (remainingPath e) path) ->
  front_ok path s -> front_ok path (s ++ [e]).
Proof.
  destruct s; simpl; auto.
Qed.

End StackCases.

(* ================================================================== *)
(** ** The remaining path during a lookup *)
(* ================================================================== *)

Section RemainingPath.

Variable path : string.

Lemma rem_inv_init : rem_inv path path [].
Proof.
  exists [], path. simpl. repeat split; auto using is_suffix_refl.
Qed.

Lemma rem_inv_next old s part rest :
  rem_inv path old s -> next_part old = (part, rest) ->
  front_ok path s
  /\ ((unwalked_of s = [] /\ is_suffix old path /\ is_suffix rest path)
      \/ exists segs' t,
           rest = flat segs' +++ t /\ Forall no_slash segs' /\ is_suffix t path
           /\ (if nonempty part then part :: filter nonempty segs'
               else filter nonempty segs') = unwalked_of s).
Proof.
  intros (segs & t & -> & NS & ST & FU & FO) H. split; [assumption|].
  destruct segs as [|seg segs'].
  - left. simpl in *. repeat split; auto.
    eapply is_suffix_trans; [eapply next_part_suffix; eauto|assumption].
  - right. inv NS.
    assert (E : flat (seg :: segs') +++ t = seg +++ "/" +++ (flat segs' +++ t))
      by (simpl; rewrite !append_assoc; reflexivity).
    rewrite E, next_part_seg in H by assumption. inv H.
    exists segs', t. repeat split; auto.
Qed.

Lemma rem_inv_skip old s rest :
  rem_inv path old s -> next_part old = ("", rest) -> rem_inv path rest s.
Proof.
  intros I H. destruct (rem_inv_next _ _ _ _ I H) as [FO [(U & _ & S)|
    (segs' & t & -> & NS & ST & FU)]].
  - exists [], rest. simpl. repeat split; auto.
  - exists segs', t. repeat split; auto.
Qed.

Lemma nonempty_true part : part <> "" -> nonempty part = true.
Proof.
  unfold nonempty. destruct (String.eqb_spec part ""); [contradiction|reflexivity].
Qed.

Lemma front_ok_without_trailing_empty s :
  front_ok path s -> front_ok path (without_trailing_empty s).
Proof.
  intros H. rewrite (split_trailing_empty s) in H.
  eapply front_ok_prefix; eauto.
Qed.

Lemma rem_inv_PopPart old s part rest w w' s' :
  rem_inv path old s -> next_part old = (part, rest) -> part <> "" ->
  SymlinkStack.PopPart w s part = (w', s', None) ->
  rem_inv path rest s'.
Proof.
  intros I H N HP. apply PopPart_cases in HP.
  destruct (rem_inv_next _ _ _ _ I H) as [FO C].
  rewrite (nonempty_true _ N) in C.
  destruct HP as [(-> & -> & _)|[(s0 & e & u & -> & EU & -> & _)|
                  (err & _ & _ & _ & D & _)]]; [| |discriminate].
  - destruct C as [(U & _ & S)|(segs' & t & -> & NS & ST & FU)];
      [|discriminate].
    exists [], rest. simpl. repeat split; auto.
  - rewrite unwalked_of_snoc, EU in C.
    destruct C as [(U & _)|(segs' & t & -> & NS & ST & FU)]; [discriminate|].
    exists segs', t. repeat split; auto.
    + rewrite unwalked_of_without_trailing_empty, unwalked_of_snoc.
      unfold consume_head. simpl. rewrite EU. simpl in *. congruence.
    + apply front_ok_without_trailing_empty, front_ok_consume, FO.
Qed.

Lemma rem_inv_push old s1 w d target w' s' rest' :
  (s1 = [] -> is_suffix old path) ->
  front_ok path s1 ->
  (exists segs' t,
     rest' = flat segs' +++ t /\ Forall no_slash segs' /\ is_suffix t path
     /\ filter nonempty segs' = unwalked_of s1) ->
  SymlinkStack.push w s1 d old target = (w', s', None) ->
  rem_inv path (target +++ "/" +++ rest') s'.
Proof.
  intros SO FO (segs' & t & -> & NS & ST & FU) HP.
  assert (EQ : target +++ "/" +++ flat segs' +++ t
               = flat (Strings.Split target "/" ++ segs') +++ t).
  { rewrite flat_app, flat_Split, !append_assoc. reflexivity. }
  rewrite EQ. apply push_cases in HP.
  exists (Strings.Split target "/" ++ segs'), t.
  split; [reflexivity|]. split; [apply Forall_app; auto using Split_no_slash|].
  split; [assumption|]. rewrite filter_app, <- components_filter.
  destruct HP as [(EC & _ & -> & _)|[NC HP]].
  - rewrite EC. simpl. auto.
  - destruct (OS.handle_loc w d) as [l|]; destruct HP as (_ & -> & D);
      [|discriminate].
    rewrite unwalked_of_snoc. simpl. split; [congruence|].
    apply front_ok_snoc; auto.
Qed.

Lemma rem_inv_SwapLink old s part rest w d target w' s' :
  rem_inv path old s -> next_part old = (part, rest) -> part <> "" ->
  SymlinkStack.SwapLink w s part d old target = (w', s', None) ->
  rem_inv path (target +++ "/" +++ rest) s'.
Proof.
  intros I H N HS. apply SwapLink_cases in HS.
  destruct (rem_inv_next _ _ _ _ I H) as [FO C].
  rewrite (nonempty_true _ N) in C.
  destruct HS as [(err & _ & _ & _ & D)|(s1 & HS1 & HP)]; [discriminate|].
  destruct HS1 as [[-> ->]|(s0 & e & u & -> & EU & ->)].
  - destruct C as [(U & SO & S)|(segs' & t & -> & NS & ST & FU)];
      [|discriminate].
    apply (rem_inv_push old [] w d target w' s' rest); auto.
    exists [], rest. simpl. auto.
  - rewrite unwalked_of_snoc, EU in C.
    destruct C as [(U & _)|(segs' & t & -> & NS & ST & FU)]; [discriminate|].
    apply (rem_inv_push old (s0 ++ [consume_head e]) w d target w' s'
             (flat segs' +++ t)); auto.
    + intros E. destruct s0; discriminate.
    + apply front_ok_consume, FO.
    + exists segs', t. repeat split; auto.
      rewrite unwalked_of_snoc. unfold consume_head. simpl. rewrite EU.
      simpl in *. congruence.
Qed.

Lemma rem_inv_front r e es :
  rem_inv path r (e :: es) -> is_suffix (remainingPath e) path.
Proof.
  intros (_ & _ & _ & _ & _ & _ & FO). exact FO.
Qed.

(** With an empty stack the remaining path is a run of slashes and then a
    suffix of the request. *)
Lemma rem_inv_empty_stack r :
  rem_inv path r [] -> exists n t, r = slashes n +++ t /\ is_suffix t path.
Proof.
  intros (segs & t & -> & NS & ST & FU & FO).
  exists (length segs), t. split; [|assumption].
  now rewrite flat_all_empty.
Qed.

(** With an empty stack, a remaining path that starts with a component is a
    suffix of the request. *)
Lemma rem_inv_empty_stack_part old part rest :
  rem_inv path old [] -> next_part old = (part, rest) -> part <> "" ->
  is_suffix old path.
Proof.
  intros I H N. destruct (rem_inv_next _ _ _ _ I H) as [FO C].
  rewrite (nonempty_true _ N) in C.
  destruct C as [(_ & S & _)|(segs' & t & _ & _ & _ & D)];
    [assumption|discriminate].
Qed.

End RemainingPath.

Section RemainingPathLoop.

Variable maxSymlinkLimit : nat.
Variable root : Handle.
Variable unsafePath : string.
Variable logicalRootPath : string.
Variable path : string.

Local Abbreviation body := (loop_body maxSymlinkLimit root unsafePath logicalRootPath).
Local Abbreviation walk := (loop maxSymlinkLimit root unsafePath logicalRootPath).

Lemma body_rem_inv_continue w st w' st' :
  rem_inv path (Walk.remainingPath st) (Walk.symlinkStack st) ->
  body w st = (w', Continue st') ->
  rem_inv path (Walk.remainingPath st') (Walk.symlinkStack st').
Proof.
  intros I H. unfold loop_body in H.
  destruct (next_part (Walk.remainingPath st)) as [part rest] eqn:EP.
  destruct (String.eqb_spec part "") as [->|N].
  - inv H. simpl. eapply rem_inv_skip; eauto.
  - repeat (break_match_hyp H; try discriminate); subst; inv H; simpl;
      try (eapply rem_inv_PopPart; eassumption).
    all: match goal with
      | |- rem_inv _ (?t +++ String "/" ?r) _ =>
          change (rem_inv path (t +++ "/" +++ r) s3)
      end; eapply rem_inv_SwapLink; eassumption.
Qed.

Lemma body_rem_inv_return w st w' st' h rem :
  rem_inv path (Walk.remainingPath st) (Walk.symlinkStack st) ->
  body w st = (w', Return st' (inr (h, rem))) ->
  exists n t, rem = slashes n +++ t /\ is_suffix t path.
Proof.
  intros I H. unfold loop_body in H.
  destruct (next_part (Walk.remainingPath st)) as [part rest] eqn:EP.
  destruct (String.eqb_spec part "") as [->|N]; [discriminate|].
  repeat (break_match_hyp H; try discriminate); subst; inv H.
  all: repeat match goal with
    | E : SymlinkStack.PopTopSymlink _ = _ |- _ =>
        apply PopTopSymlink_cases in E;
        destruct E as [(? & ? & ?)|(? & ? & ?)]; subst; try discriminate
    | E : Some _ = Some _ |- _ => inv E
    end.
  all: try match goal with
    | E : Walk.symlinkStack _ = _ |- _ => rewrite E in I
    end.
  all: first
    [ eapply rem_inv_empty_stack, rem_inv_PopPart; eassumption
    | eexists 0, _; split; [reflexivity|];
      first [ eapply rem_inv_front; eassumption
            | eapply rem_inv_empty_stack_part; eassumption
            | eapply rem_inv_front, rem_inv_PopPart; eassumption ] ].
Qed.

Lemma loop_rem_inv fuel : forall w st w' st' h rem,
  rem_inv path (Walk.remainingPath st) (Walk.symlinkStack st) ->
  walk fuel w st = Some (w', st', inr (h, rem)) ->
  exists n t, rem = slashes n +++ t /\ is_suffix t path.
Proof.
  induction fuel as [|fuel IH]; intros w st w' st' h rem I H; [discriminate|].
  rewrite loop_unfold in H.
  destruct (Walk.remainingPath st =? "")%string.
  - inv H. exists 0, "". auto using is_suffix_empty.
  - destruct (body w st) as [w1 [st1|st1 res1]] eqn:EB.
    + eapply IH; [|exact H]. eapply body_rem_inv_continue; eauto.
    + inv H. eapply body_rem_inv_return; eauto.
Qed.

End RemainingPathLoop.

(** C3, amended (the remaining path).  A remaining path returned without
    error is a suffix of the request, possibly after a run of slashes.  When
    the component is not found and the stack is empty, the iteration
    returns the current directory with the remaining path it started from,
    and that path begins with the missing component. *)
Theorem remaining_path_suffix_after_slashes :
  (forall limit fuel w root path w' h rem,
     partialLookupInRoot limit fuel w root path = Some (w', inr (h, rem)) ->
     exists n t, rem = slashes n +++ t /\ is_suffix t path)
  /\ (forall limit root path lrp w st part rest w1 err,
        next_part (Walk.remainingPath st) = (part, rest) ->
        part <> "" ->
        Path.Join ["/"; Walk.currentPath st; part] <> "/" ->
        OS.openatFile w (Walk.currentDir st) part = (w1, inl err) ->
        errors_Is err ErrNotExist = true ->
        Walk.symlinkStack st = [] ->
        (exists st',
           loop_body limit root path lrp w st =
             (w1, Return st' (inr (Walk.currentDir st, Walk.remainingPath st))))
        /\ (Walk.remainingPath st = part
            \/ Walk.remainingPath st = part +++ "/" +++ rest)
        /\ (rem_inv path (Walk.remainingPath st) [] ->
            is_suffix (Walk.remainingPath st) path)).
Proof.
  split.
  - intros limit fuel w root path w' h rem H.
    unfold partialLookupInRoot in H.
    destruct (OS.procSelfFdReadlink w root) as [w1 [err|lrp]]; [discriminate|].
    destruct (OS.dupFile w1 root) as [w2 [err|cur]]; [discriminate|].
    destruct (loop limit root path lrp fuel w2 _) as [[[w3 st] res]|] eqn:E;
      [|discriminate].
    inv H. eapply loop_rem_inv; [|exact E]. simpl. apply rem_inv_init.
  - intros limit root path lrp w st part rest w1 err HP N NR HO HE HS.
    split; [|split].
    + unfold loop_body. rewrite HP.
      destruct (String.eqb_spec part ""); [contradiction|].
      destruct (String.eqb_spec (Path.Join ["/"; Walk.currentPath st; part]) "/");
        [contradiction|].
      rewrite HO, HE, HS. simpl. eexists. reflexivity.
    + apply next_part_cases in HP. destruct HP as [_ [[E _]|E]]; auto.
    + intros I. eapply rem_inv_empty_stack_part; eauto.
Qed.

(* ================================================================== *)
(** ** The log of one iteration *)
(* ================================================================== *)

Section LogFacts.

Implicit Types (w : World) (h d : Handle) (s : symlinkStack).

Lemma new_events_ext w w' evs : log w' = log w ++ evs -> new_events w w' = evs.
Proof.
  unfold new_events. intros ->.
  rewrite skipn_app, skipn_all, Nat.sub_diag. reflexivity.
Qed.

Lemma dupFile_log w h w' r :
  OS.dupFile w h = (w', r) -> log w' = log w ++ [EvDup h].
Proof.
  rewrite dupFile_eq. destruct (OS.handle_loc w h); intros H; inv H; reflexivity.
Qed.

Lemma openatFile_log w d name w' r :
  OS.openatFile w d name = (w', r) -> log w' = log w ++ [EvOpenat d name].
Proof.
  rewrite openatFile_eq. destruct (open_target w d name); intros H; inv H;
    reflexivity.
Qed.

Lemma Stat_log w h w' r :
  OS.Stat w h = (w', r) -> log w' = log w ++ [EvStat h].
Proof.
  intros H. pose proof (Stat_world w h) as E. rewrite H in E. simpl in E.
  now subst.
Qed.

Lemma readlinkatFile_log w d name w' r :
  OS.readlinkatFile w d name = (w', r) -> log w' = log w ++ [EvReadlinkat d name].
Proof.
  intros H. pose proof (readlinkatFile_world w d name) as E. rewrite H in E.
  simpl in E. now subst.
Qed.

Lemma checkProcSelfFdPath_log w p h w' r :
  OS.checkProcSelfFdPath w p h = (w', r) ->
  log w' = log w ++ [EvCheckProcSelfFdPath p h].
Proof.
  intros H. pose proof (checkProcSelfFdPath_world w p h) as E. rewrite H in E.
  simpl in E. now subst.
Qed.

Lemma log_close_entries es : forall w,
  log (close_entries w es) = log w ++ map (fun e => EvClose (dir e)) es.
Proof.
  induction es as [|e es IH]; intros w; simpl.
  - now rewrite app_nil_r.
  - rewrite IH, log_Close, <- app_assoc. reflexivity.
Qed.

Lemma PopPart_log w s part w' s' r :
  SymlinkStack.PopPart w s part = (w', s', r) ->
  exists es, log w' = log w ++ map (fun e => EvClose (dir e)) es
             /\ incl (map dir es) (map dir s).
Proof.
  intros H. apply PopPart_cases in H.
  destruct H as [(-> & -> & -> & _)|[(s0 & e & u & -> & EU & -> & -> & _)|
                 (err & _ & -> & -> & _)]].
  - exists []. simpl. now rewrite app_nil_r.
  - eexists. split; [apply log_close_entries|].
    assert (E1 : map dir (s0 ++ [e]) = map dir (s0 ++ [consume_head e]))
      by (rewrite !map_app; reflexivity).
    rewrite E1. generalize (s0 ++ [consume_head e]). intros L h I.
    assert (E2 : map dir L = map dir (without_trailing_empty L)
                             ++ rev (map dir (trailing_empty L))).
    { rewrite (split_trailing_empty L) at 1. now rewrite map_app, map_rev. }
    rewrite E2. apply in_app_iff. right. now apply in_rev in I.
  - exists []. simpl. now rewrite app_nil_r.
Qed.

Lemma SwapLink_log w s part d rem target w' s' r :
  SymlinkStack.SwapLink w s part d rem target = (w', s', r) ->
  log w' = log w \/ log w' = log w ++ [EvDup d].
Proof.
  intros H. apply SwapLink_cases in H.
  destruct H as [(err & _ & _ & -> & _)|(s1 & _ & H)]; [auto|].
  apply push_cases in H. destruct H as [(_ & -> & _)|[_ H]]; [auto|].
  destruct (OS.handle_loc w d); destruct H as (-> & _); auto.
Qed.

Lemma filter_check_closes (es : list symlinkStackEntry) :
  filter is_check (map (fun e => EvClose (dir e)) es) = [].
Proof.
  induction es; simpl; auto.
Qed.

End LogFacts.

(* ================================================================== *)
(** ** The parent directory *)
(* ================================================================== *)

Lemma lookup_removelast : forall (l : Loc) (n : Inode) es,
  OS.lookup n l = Some (Dir es) ->
  exists es', OS.lookup n (removelast l) = Some (Dir es').
Proof.
  induction l as [|x l IH]; intros n es H.
  - simpl in *. eauto.
  - destruct l as [|y l].
    + simpl in *. destruct n as [es0| |]; try discriminate. eauto.
    + change (removelast (x :: y :: l)) with (x :: removelast (y :: l)).
      simpl in H |- *. destruct n as [es0| |]; try discriminate.
      destruct (OS.find_entry x es0) as [c|]; [|discriminate].
      apply (IH c es). exact H.
Qed.

(** What [..] opens is a directory. *)
Lemma stat_dotdot w d w1 n w2 m :
  OS.openatFile w d ".." = (w1, inr n) ->
  OS.Stat w1 n = (w2, inr m) ->
  m = ModeDir.
Proof.
  rewrite openatFile_eq. unfold open_target.
  destruct (OS.handle_loc w d) as [l|] eqn:EL; [|discriminate].
  destruct (OS.lookup (host w) l) as [[es|t|]|] eqn:EK; try discriminate.
  simpl. intros H. inv H. unfold OS.Stat, OS.handle_loc. simpl.
  rewrite Nat.eqb_refl. simpl.
  destruct (lookup_removelast _ _ _ EK) as [es' E]. rewrite E.
  intros H. now inv H.
Qed.

Lemma checkProcSelfFdPath_ok w p h w' :
  OS.checkProcSelfFdPath w p h = (w', None) ->
  exists l, OS.handle_loc w' h = Some l /\ OS.path_of_loc l = p.
Proof.
  unfold OS.checkProcSelfFdPath. rewrite loc_emit.
  destruct (OS.handle_loc w h) as [l|] eqn:E; [|discriminate].
  destruct (String.eqb_spec (OS.path_of_loc l) p); intros H; inv H.
  exists l. rewrite loc_emit. auto.
Qed.

Lemma checkProcSelfFdPath_err w p h w' err l :
  OS.checkProcSelfFdPath w p h = (w', Some err) ->
  OS.handle_loc w' h = Some l ->
  OS.path_of_loc l <> p /\ errors_Is err errPossibleBreakout = true.
Proof.
  unfold OS.checkProcSelfFdPath. rewrite loc_emit.
  destruct (OS.handle_loc w h) as [l0|] eqn:E.
  - destruct (String.eqb_spec (OS.path_of_loc l0) p); intros H; inv H.
    rewrite loc_emit, E. intros H. inv H. auto.
  - intros H. inv H. rewrite loc_emit, E. discriminate.
Qed.

Lemma checkProcSelfFdPath_loc w p h w' r h' :
  OS.checkProcSelfFdPath w p h = (w', r) ->
  OS.handle_loc w' h' = OS.handle_loc w h'.
Proof.
  intros H. pose proof (checkProcSelfFdPath_world w p h) as E.
  rewrite H in E. simpl in E. now subst.
Qed.

Ltac string_eqs :=
  repeat match goal with
  | H : (_ =? _)%string = true |- _ => apply String.eqb_eq in H
  | H : (_ =? _)%string = false |- _ => apply String.eqb_neq in H
  end.

(** Log equations for the calls found among the hypotheses. *)
Ltac learn_logs :=
  repeat match goal with
  | H : OS.openatFile ?w _ _ = (?w', _) |- _ =>
      lazymatch goal with
      | L : log w' = _ |- _ => fail
      | _ => pose proof (openatFile_log _ _ _ _ _ H)
      end
  | H : OS.dupFile ?w _ = (?w', _) |- _ =>
      lazymatch goal with
      | L : log w' = _ |- _ => fail
      | _ => pose proof (dupFile_log _ _ _ _ H)
      end
  | H : OS.Stat ?w _ = (?w', _) |- _ =>
      lazymatch goal with
      | L : log w' = _ |- _ => fail
      | _ => pose proof (Stat_log _ _ _ _ H)
      end
  | H : OS.readlinkatFile ?w _ _ = (?w', _) |- _ =>
      lazymatch goal with
      | L : log w' = _ |- _ => fail
      | _ => pose proof (readlinkatFile_log _ _ _ _ _ H)
      end
  | H : OS.checkProcSelfFdPath ?w _ _ = (?w', _) |- _ =>
      lazymatch goal with
      | L : log w' = _ |- _ => fail
      | _ => pose proof (checkProcSelfFdPath_log _ _ _ _ _ H)
      end
  | H : SymlinkStack.PopPart ?w _ _ = (?w', _, _) |- _ =>
      lazymatch goal with
      | L : log w' = _ |- _ => fail
      | _ => let es := fresh "es" in let L := fresh "L" in let I := fresh "I" in
             destruct (PopPart_log _ _ _ _ _ _ H) as (es & L & I)
      end
  | H : SymlinkStack.SwapLink ?w _ _ _ _ _ = (?w', _, _) |- _ =>
      lazymatch goal with
      | L : log w' = _ |- _ => fail
      | _ => let L := fresh "L" in
             destruct (SwapLink_log _ _ _ _ _ _ _ _ _ H) as [L|L]
      end
  end.

(** The log of the world in the goal, as the old log and what was added. *)
Ltac unfold_logs :=
  repeat first
    [ rewrite log_Close
    | match goal with
      | L : log ?x = _ |- context [log ?x] => rewrite L
      end ];
  rewrite <- ?app_assoc; simpl.

(* ================================================================== *)
(** ** The race check *)
(* ================================================================== *)

Lemma In_check_filter p h evs :
  In (EvCheckProcSelfFdPath p h) evs ->
  In (EvCheckProcSelfFdPath p h) (filter is_check evs).
Proof.
  intros H. apply filter_In. auto.
Qed.

Lemma new_events_self w : new_events w w = [].
Proof.
  apply new_events_ext. now rewrite app_nil_r.
Qed.

(** C4, amended (the race check).  In one iteration: no check is made for
    a component other than [..], nor when the component folds the logical
    path to the root; a [..] that is opened, after which the loop goes on,
    has had both checks made and passed, on the root and on the new current
    directory; and a check whose path does not match ends the iteration
    with an error that is a possible-breakout one. *)
Theorem race_check_after_opened_dotdot :
  forall limit root path lrp w st part rest w' step,
    next_part (Walk.remainingPath st) = (part, rest) ->
    loop_body limit root path lrp w st = (w', step) ->
    (part <> ".." \/ Path.Join ["/"; Walk.currentPath st; part] = "/" ->
     filter is_check (new_events w w') = [])
    /\ (part = ".." ->
        Path.Join ["/"; Walk.currentPath st; part] <> "/" ->
        forall st', step = Continue st' ->
          filter is_check (new_events w w') =
            [EvCheckProcSelfFdPath lrp root;
             EvCheckProcSelfFdPath (lrp +++ Walk.currentPath st')
               (Walk.currentDir st')]
          /\ (exists l, OS.handle_loc w' root = Some l
                        /\ OS.path_of_loc l = lrp)
          /\ (exists l, OS.handle_loc w' (Walk.currentDir st') = Some l
                        /\ OS.path_of_loc l = lrp +++ Walk.currentPath st'))
    /\ (forall p h l,
          In (EvCheckProcSelfFdPath p h) (new_events w w') ->
          OS.handle_loc w' h = Some l ->
          OS.path_of_loc l <> p ->
          exists st' err,
            step = Return st' (inl err)
            /\ errors_Is err errPossibleBreakout = true).
Proof.
  intros limit root path lrp w st part rest w' step EP H.
  unfold loop_body in H. rewrite EP in H.
  destruct (String.eqb_spec part "") as [->|N].
  { inv H. rewrite new_events_self. repeat split; auto; try discriminate.
    intros p h l []. }
  repeat (break_match_hyp H; try discriminate); subst; inv H;
    string_eqs; learn_logs.
  all: match goal with
       | |- context [new_events ?a ?b] =>
           let E := fresh "E" in
           eassert (E : log b = log a ++ _) by (unfold_logs; reflexivity);
           rewrite (new_events_ext _ _ _ E); clear E
       end.
  all: split; [|split].
  all: lazymatch goal with
    | |- _ \/ _ -> _ =>
        (* no check *)
        repeat (progress (simpl; rewrite ?filter_app, ?filter_check_closes));
        intros [?|?]; try reflexivity; contradiction
    | |- _ = ".." -> _ =>
        (* an opened [..] *)
        intros Pd NR st' HS; try discriminate HS; try contradiction;
        inv HS; simpl;
        try match goal with
          | HO : OS.openatFile _ _ ".." = (_, inr ?n),
            HT : OS.Stat _ ?n = (_, inr ModeSymlink) |- _ =>
              discriminate (stat_dotdot _ _ _ _ _ _ HO HT)
          end
    | |- _ =>
        (* a check that does not match *)
        intros cp ch cl HIn HL HP;
        apply In_check_filter in HIn;
        revert HIn;
        repeat (progress (simpl; rewrite ?filter_app, ?filter_check_closes));
        intros HIn; repeat (destruct HIn as [HIn|HIn]); try contradiction;
        inv HIn
    end.
  all: try solve
    [ exfalso;
      match goal with
      | HC : OS.checkProcSelfFdPath _ _ ?h = (?w1, None) |- _ =>
          let l := fresh "l" in
          let A := fresh "A" in
          let B := fresh "B" in
          destruct (checkProcSelfFdPath_ok _ _ _ _ HC) as (l & A & B);
          first
            [ rewrite A in HL
            | match goal with
              | HC2 : OS.checkProcSelfFdPath w1 _ _ = (_, _) |- _ =>
                  rewrite (checkProcSelfFdPath_loc _ _ _ _ _ h HC2) in HL;
                  rewrite A in HL
              end ];
          inv HL; contradiction
      end
    | match goal with
      | HC : OS.checkProcSelfFdPath _ _ _ = (_, Some _) |- _ =>
          destruct (checkProcSelfFdPath_err _ _ _ _ _ _ HC HL) as [_ EE];
          do 2 eexists; split; [reflexivity|exact EE]
      end ].
  repeat (progress (simpl; rewrite ?filter_app, ?filter_check_closes)).
  split; [reflexivity|].
  match goal with
  | HC1 : OS.checkProcSelfFdPath _ lrp root = (?w3, None),
    HC2 : OS.checkProcSelfFdPath ?w3 _ _ = (_, None) |- _ =>
      destruct (checkProcSelfFdPath_ok _ _ _ _ HC1) as (l1 & A1 & B1);
      destruct (checkProcSelfFdPath_ok _ _ _ _ HC2) as (l2 & A2 & B2);
      rewrite <- (checkProcSelfFdPath_loc _ _ _ _ _ root HC2) in A1
  end.
  split; eauto.
Qed.

Lemma race_check_after_opened_dotdot_witness :
  let w := mkWorld (Dir [("r", Dir [("a", Dir [("b", Dir [])])])])
                   [(1, ["r"; "a"; "b"]); (0, ["r"])] 2 [] in
  let st := Walk.mk 1 [] 0 "/a/b" ".." in
  exists w' st',
    loop_body 255 0 "a/b/.." "/r" w st = (w', Continue st')
    /\ filter is_check (new_events w w') =
         [EvCheckProcSelfFdPath "/r" 0; EvCheckProcSelfFdPath "/r/a" 2]
    /\ Walk.currentDir st' = 2
    /\ OS.handle_loc w' 2 = Some ["r"; "a"].
Proof.
  intros w st.
  destruct (loop_body 255 0 "a/b/.." "/r" w st) as [w' step] eqn:E.
  pose proof (race_check_after_opened_dotdot 255 0 "a/b/.." "/r" w st
                ".." "" w' step eq_refl E) as (_ & H & _).
  vm_compute in E. inv E. do 2 eexists. split; [reflexivity|].
  destruct (H eq_refl) with (st' := Walk.mk 2 [] 0 "/a" "")
    as (H1 & _ & _); [vm_compute; discriminate|reflexivity|].
  split; [exact H1|]. split; reflexivity.
Defined.

(* ================================================================== *)
(** ** How calls change the table of open files *)
(* ================================================================== *)

Section Evolution.

Implicit Types (w : World) (h d n : Handle) (s : symlinkStack).

Lemma evolves_refl w : evolves w w [].
Proof.
  repeat split; auto. exists []. split; [now rewrite app_nil_r|intros h []].
Qed.

Lemma evolves_trans w w1 w2 c1 c2 :
  evolves w w1 c1 -> evolves w1 w2 c2 -> evolves w w2 (c1 ++ c2).
Proof.
  intros (H1 & N1 & L1 & evs1 & E1 & C1) (H2 & N2 & L2 & evs2 & E2 & C2).
  split; [congruence|]. split; [lia|]. split.
  - intros h B NI. rewrite L2, L1; auto.
    + intros I. apply NI, in_app_iff. auto.
    + lia.
    + intros I. apply NI, in_app_iff. auto.
  - exists (evs1 ++ evs2). split.
    + rewrite E2, E1, app_assoc. reflexivity.
    + intros h I. apply in_app_iff. apply in_app_iff in I.
      destruct I; auto.
Qed.

Lemma evolves_emit w ev :
  closed_handle ev = None -> evolves w (OS.emit ev w) [].
Proof.
  intros NC. repeat split; auto. exists [ev]. split; [reflexivity|].
  intros h [E|[]]. subst ev. discriminate.
Qed.

Lemma evolves_alloc w l : evolves w (fst (OS.alloc w l)) [].
Proof.
  split; [reflexivity|]. split; [simpl; lia|]. split.
  - intros h B _. rewrite loc_alloc.
    destruct (Nat.eqb_spec (next_handle w) h); [lia|reflexivity].
  - exists []. split; [simpl; now rewrite app_nil_r|intros h []].
Qed.

Lemma evolves_Close w h : evolves w (OS.Close w h) [h].
Proof.
  split; [reflexivity|]. split; [simpl; lia|]. split.
  - intros h' B NI. rewrite loc_Close.
    destruct (Nat.eqb_spec h' h) as [->|N]; [|reflexivity].
    exfalso. apply NI. simpl. auto.
  - exists [EvClose h]. split; [reflexivity|].
    intros h' [E|[]]. inv E. simpl. auto.
Qed.

Lemma evolves_close_entries es : forall w,
  evolves w (close_entries w es) (map dir es).
Proof.
  induction es as [|e es IH]; intros w; simpl.
  - apply evolves_refl.
  - change (dir e :: map dir es) with ([dir e] ++ map dir es).
    eapply evolves_trans; [apply evolves_Close|apply IH].
Qed.

Lemma next_close_entries es : forall w,
  next_handle (close_entries w es) = next_handle w.
Proof.
  induction es as [|e es IH]; intros w; simpl; [reflexivity|].
  now rewrite IH.
Qed.

Lemma evolves_nil_app w w' c : evolves w w' ([] ++ c) -> evolves w w' c.
Proof. auto. Qed.

Lemma alloc_after_emit w ev l :
  closed_handle ev = None ->
  allocated w (fst (OS.alloc (OS.emit ev w) l)) (next_handle w) l.
Proof.
  intros NC. split; [reflexivity|]. split; [reflexivity|]. split.
  - rewrite loc_alloc, next_emit, Nat.eqb_refl. reflexivity.
  - apply evolves_nil_app.
    eapply evolves_trans; [apply evolves_emit, NC|apply evolves_alloc].
Qed.

Lemma dupFile_ok w h w' n :
  OS.dupFile w h = (w', inr n) ->
  exists l, OS.handle_loc w h = Some l /\ allocated w w' n l.
Proof.
  rewrite dupFile_eq. destruct (OS.handle_loc w h) as [l|]; [|discriminate].
  intros H. inv H. exists l. split; [reflexivity|].
  now apply alloc_after_emit.
Qed.

Lemma dupFile_err w h w' err :
  OS.dupFile w h = (w', inl err) ->
  evolves w w' [] /\ next_handle w' = next_handle w.
Proof.
  rewrite dupFile_eq. destruct (OS.handle_loc w h) as [l|]; [discriminate|].
  intros H. inv H. split; [now apply evolves_emit|reflexivity].
Qed.

Lemma openatFile_ok w d name w' n :
  OS.openatFile w d name = (w', inr n) ->
  exists l, open_target w d name = inr l /\ allocated w w' n l.
Proof.
  rewrite openatFile_eq. destruct (open_target w d name) as [err|l];
    [discriminate|].
  intros H. inv H. exists l. split; [reflexivity|].
  now apply alloc_after_emit.
Qed.

Lemma openatFile_err w d name w' err :
  OS.openatFile w d name = (w', inl err) ->
  evolves w w' [] /\ next_handle w' = next_handle w.
Proof.
  rewrite openatFile_eq. destruct (open_target w d name) as [e|l];
    [|discriminate].
  intros H. inv H. split; [now apply evolves_emit|reflexivity].
Qed.

Lemma Stat_ev w h w' r :
  OS.Stat w h = (w', r) -> evolves w w' [] /\ next_handle w' = next_handle w.
Proof.
  intros H. pose proof (Stat_world w h) as E. rewrite H in E. simpl in E.
  subst. split; [now apply evolves_emit|reflexivity].
Qed.

Lemma readlinkatFile_ev w d name w' r :
  OS.readlinkatFile w d name = (w', r) ->
  evolves w w' [] /\ next_handle w' = next_handle w.
Proof.
  intros H. pose proof (readlinkatFile_world w d name) as E. rewrite H in E.
  simpl in E. subst. split; [now apply evolves_emit|reflexivity].
Qed.

Lemma checkProcSelfFdPath_ev w p h w' r :
  OS.checkProcSelfFdPath w p h = (w', r) ->
  evolves w w' [] /\ next_handle w' = next_handle w.
Proof.
  intros H. pose proof (checkProcSelfFdPath_world w p h) as E. rewrite H in E.
  simpl in E. subst. split; [now apply evolves_emit|reflexivity].
Qed.

Lemma procSelfFdReadlink_ev w h w' r :
  OS.procSelfFdReadlink w h = (w', r) ->
  evolves w w' [] /\ next_handle w' = next_handle w.
Proof.
  intros H. pose proof (procSelfFdReadlink_world w h) as E. rewrite H in E.
  simpl in E. subst. split; [now apply evolves_emit|reflexivity].
Qed.

End Evolution.

Section StackEvolution.

Implicit Types (w : World) (h d n : Handle) (s : symlinkStack).

Lemma evolves_incl w w' c c' : evolves w w' c -> incl c c' -> evolves w w' c'.
Proof.
  intros (H1 & N1 & L1 & evs & E & C) I. repeat split; auto.
  exists evs. split; auto.
Qed.

Lemma SymlinkStack_Close_eq s : forall w,
  SymlinkStack.Close w s = close_entries w s.
Proof.
  induction s as [|e s IH]; intros w; simpl; auto.
Qed.

Lemma map_dir_consume s e :
  map dir (s ++ [consume_head e]) = map dir (s ++ [e]).
Proof.
  now rewrite !map_app.
Qed.

(** [PopPart] keeps a prefix of the stack's directories and closes the
    rest. *)
Lemma PopPart_ev w s part w' s' r :
  SymlinkStack.PopPart w s part = (w', s', r) ->
  exists drop,
    map dir s = map dir s' ++ drop
    /\ evolves w w' drop
    /\ next_handle w' = next_handle w.
Proof.
  intros H. apply PopPart_cases in H.
  destruct H as [(-> & -> & -> & _)|[(s0 & e & u & -> & EU & -> & -> & _)|
                 (err & _ & -> & -> & _)]].
  - exists []. split; [reflexivity|]. split; [apply evolves_refl|reflexivity].
  - exists (rev (map dir (trailing_empty (s0 ++ [consume_head e])))).
    split; [|split].
    + rewrite <- map_dir_consume.
      rewrite (split_trailing_empty (s0 ++ [consume_head e])) at 1.
      now rewrite map_app, map_rev.
    + eapply evolves_incl; [apply evolves_close_entries|].
      intros h I. now apply in_rev in I.
    + apply next_close_entries.
  - exists []. split; [now rewrite app_nil_r|].
    split; [apply evolves_refl|reflexivity].
Qed.

(** [SwapLink] keeps the stack's directories and may add a duplicate of
    the directory it is given. *)
Lemma SwapLink_ev w s part d rem target w' s' r :
  SymlinkStack.SwapLink w s part d rem target = (w', s', r) ->
  (map dir s' = map dir s /\ evolves w w' []
   /\ next_handle w' = next_handle w)
  \/ (r = None /\ exists l,
        OS.handle_loc w d = Some l
        /\ map dir s' = map dir s ++ [next_handle w]
        /\ allocated w w' (next_handle w) l).
Proof.
  intros H. apply SwapLink_cases in H.
  destruct H as [(err & _ & -> & -> & _)|(s1 & HS & H)].
  - left. split; [reflexivity|]. split; [apply evolves_refl|reflexivity].
  - assert (E1 : map dir s1 = map dir s).
    { destruct HS as [[-> ->]|(s0 & e & u & -> & _ & ->)]; [reflexivity|].
      apply map_dir_consume. }
    apply push_cases in H. destruct H as [(_ & -> & -> & _)|[_ H]].
    + left. split; [assumption|]. split; [apply evolves_refl|reflexivity].
    + destruct (OS.handle_loc w d) as [l|] eqn:EL.
      * destruct H as (-> & -> & ->). right. split; [reflexivity|].
        exists l. split; [reflexivity|]. split.
        -- rewrite map_app, E1. reflexivity.
        -- now apply alloc_after_emit.
      * destruct H as (-> & -> & _). left. split; [assumption|].
        split; [now apply evolves_emit|reflexivity].
Qed.

End StackEvolution.

(** What each call found among the hypotheses did to the open files. *)
Ltac learn_ev :=
  repeat match goal with
  | H : OS.openatFile _ _ _ = (_, inr _) |- _ =>
      let l := fresh "l" in let T := fresh "T" in let A := fresh "A" in
      destruct (openatFile_ok _ _ _ _ _ H) as (l & T & A); revert H
  | H : OS.openatFile _ _ _ = (_, inl _) |- _ =>
      let E := fresh "E" in let X := fresh "X" in
      destruct (openatFile_err _ _ _ _ _ H) as (E & X); revert H
  | H : OS.dupFile _ _ = (_, inr _) |- _ =>
      let l := fresh "l" in let T := fresh "T" in let A := fresh "A" in
      destruct (dupFile_ok _ _ _ _ H) as (l & T & A); revert H
  | H : OS.dupFile _ _ = (_, inl _) |- _ =>
      let E := fresh "E" in let X := fresh "X" in
      destruct (dupFile_err _ _ _ _ H) as (E & X); revert H
  | H : OS.Stat _ _ = (_, _) |- _ =>
      let E := fresh "E" in let X := fresh "X" in
      destruct (Stat_ev _ _ _ _ H) as (E & X); revert H
  | H : OS.readlinkatFile _ _ _ = (_, _) |- _ =>
      let E := fresh "E" in let X := fresh "X" in
      destruct (readlinkatFile_ev _ _ _ _ _ H) as (E & X); revert H
  | H : OS.checkProcSelfFdPath _ _ _ = (_, _) |- _ =>
      let E := fresh "E" in let X := fresh "X" in
      destruct (checkProcSelfFdPath_ev _ _ _ _ _ H) as (E & X); revert H
  | H : SymlinkStack.PopPart _ _ _ = (_, _, _) |- _ =>
      let drop := fresh "drop" in let D := fresh "D" in
      let E := fresh "E" in let X := fresh "X" in
      destruct (PopPart_ev _ _ _ _ _ _ H) as (drop & D & E & X); revert H
  | H : SymlinkStack.SwapLink _ _ _ _ _ _ = (_, _, _) |- _ =>
      let D := fresh "D" in let E := fresh "E" in let X := fresh "X" in
      let l := fresh "l" in let T := fresh "T" in let A := fresh "A" in
      destruct (SwapLink_ev _ _ _ _ _ _ _ _ _ H)
        as [(D & E & X)|(? & l & T & D & A)]; revert H
  end; intros.

(* ================================================================== *)
(** ** The handles of one iteration *)
(* ================================================================== *)

(** Compose the evolution facts among the hypotheses, starting from [E]. *)
Ltac chain E :=
  repeat match type of E with
  | evolves ?a ?b ?c =>
      first
        [ match goal with
          | H : evolves b ?d ?c2 |- _ =>
              tryif constr_eq H E then fail else
                (let E' := fresh "E" in
                 pose proof (evolves_trans _ _ _ _ _ E H) as E';
                 clear E H; rename E' into E)
          end
        | match goal with
          | H : evolves (OS.Close b ?h) _ _ |- _ =>
              let E' := fresh "E" in
              pose proof (evolves_trans _ _ _ _ _ E (evolves_Close b h)) as E';
              clear E; rename E' into E
          end
        | match goal with
          | |- context [OS.Close b ?h] =>
              let E' := fresh "E" in
              pose proof (evolves_trans _ _ _ _ _ E (evolves_Close b h)) as E';
              clear E; rename E' into E
          end ]
  end.

(** The bounds on [next_handle] that the evolution facts give. *)
Ltac learn_next :=
  repeat match goal with
  | H : evolves ?a ?b _ |- _ =>
      lazymatch goal with
      | _ : next_handle a <= next_handle b |- _ => fail
      | _ => let N := fresh "N" in
             pose proof (proj1 (proj2 H)) as N
      end
  end.

Section BodyHandles.

Variable maxSymlinkLimit : nat.
Variable root : Handle.
Variable unsafePath : string.
Variable logicalRootPath : string.

Local Abbreviation body := (loop_body maxSymlinkLimit root unsafePath logicalRootPath).
Local Abbreviation walk := (loop maxSymlinkLimit root unsafePath logicalRootPath).

(** One iteration closes only handles it held or opened itself, and holds
    afterwards only handles it held before or opened itself. *)
Lemma body_evolves w st w' step :
  body w st = (w', step) ->
  exists closed,
    evolves w w' closed
    /\ (forall h, In h closed -> In h (held st) \/ next_handle w <= h)
    /\ (forall h, In h (held (state_of step)) ->
                  In h (held st) \/ next_handle w <= h)
    /\ (forall st' h rem, step = Return st' (inr (h, rem)) ->
                          In h (held st) \/ next_handle w <= h).
Proof.
  intros H. unfold loop_body in H.
  destruct (next_part (Walk.remainingPath st)) as [part rest] eqn:EP.
  destruct (String.eqb_spec part "") as [->|N].
  { inv H. exists []. split; [apply evolves_refl|]. split; [intros h []|].
    split; [simpl; auto|discriminate]. }
  repeat (break_match_hyp H; try discriminate); subst; inv H;
    repeat match goal with
    | E : SymlinkStack.PopTopSymlink _ = _ |- _ =>
        apply PopTopSymlink_cases in E;
        destruct E as [(? & ? & ?)|(? & ? & ?)]; subst; try discriminate
    end.
  all: learn_ev.
  all: unfold allocated in *;
    repeat match goal with
    | A : _ /\ _ |- _ => destruct A
    end.
  all: learn_next.
  all: pose proof (evolves_refl w) as EV; chain EV.
  all: eexists; split; [exact EV|].
  all: split; [|split]; [intros hx I|intros hx I|intros sx hx rx I; inv I];
    unfold held in *;
    cbn [state_of Walk.currentDir Walk.symlinkStack map] in *;
    repeat match goal with
    | D : Walk.symlinkStack _ = _ |- _ => rewrite D in *; clear D
    end;
    repeat match goal with
    | D : map dir _ = _ |- _ => rewrite D in *; clear D
    end;
    rewrite ?next_Close in *;
    cbn [map] in *;
    repeat match goal with
    | J : In _ (_ ++ _) |- _ => apply in_app_or in J
    | J : In _ (_ :: _) |- _ => destruct J as [J|J]
    | J : _ \/ _ |- _ => destruct J as [J|J]
    | J : False |- _ => contradiction
    | J : In _ [] |- _ => contradiction
    | J : Some _ = Some _ |- _ => inv J
    end;
    subst;
    first [ left; solve [simpl; intuition (auto with datatypes)]
          | right; lia ].
Qed.

End BodyHandles.

Section LoopHandles.

Variable maxSymlinkLimit : nat.
Variable root : Handle.
Variable unsafePath : string.
Variable logicalRootPath : string.

Local Abbreviation body := (loop_body maxSymlinkLimit root unsafePath logicalRootPath).
Local Abbreviation walk := (loop maxSymlinkLimit root unsafePath logicalRootPath).

(** The same for the whole loop, with the handle it returns. *)
Lemma loop_evolves fuel : forall w st w' st' res,
  walk fuel w st = Some (w', st', res) ->
  exists closed,
    evolves w w' closed
    /\ (forall h, In h closed -> In h (held st) \/ next_handle w <= h)
    /\ (forall h, In h (held st') -> In h (held st) \/ next_handle w <= h)
    /\ (forall h rem, res = inr (h, rem) ->
                      In h (held st) \/ next_handle w <= h).
Proof.
  induction fuel as [|fuel IH]; intros w st w' st' res H; [discriminate|].
  rewrite loop_unfold in H.
  destruct (Walk.remainingPath st =? "")%string.
  - inv H. exists []. split; [apply evolves_refl|].
    split; [intros h []|]. split; [auto|].
    intros h rem E. inv E. left. simpl. auto.
  - destruct (body w st) as [w1 [st1|st1 res1]] eqn:EB;
      destruct (body_evolves _ _ _ _ _ _ _ _ EB) as (c1 & E1 & C1 & H1 & R1).
    + destruct (IH _ _ _ _ _ H) as (c2 & E2 & C2 & H2 & R2).
      pose proof (proj1 (proj2 E1)) as N1. cbn [state_of] in H1.
      assert (K : forall h, In h (held st1) \/ next_handle w1 <= h ->
                            In h (held st) \/ next_handle w <= h).
      { intros h [I|B]; [auto|right; lia]. }
      exists (c1 ++ c2). split; [eapply evolves_trans; eauto|].
      split; [|split].
      * intros h I. apply in_app_or in I. destruct I; auto.
      * intros h I. auto.
      * intros h rem E. eauto.
    + inv H. exists c1. cbn [state_of] in H1.
      split; [assumption|]. split; [assumption|]. split; [assumption|].
      intros h rem E. subst. eapply R1. reflexivity.
Qed.

End LoopHandles.

Lemma evolves_loc w w' closed h :
  evolves w w' closed -> h < next_handle w -> ~ In h closed ->
  OS.handle_loc w' h = OS.handle_loc w h.
Proof.
  intros (_ & _ & L & _). auto.
Qed.

Lemma evolves_closes w w' closed h :
  evolves w w' closed -> In (EvClose h) (new_events w w') -> In h closed.
Proof.
  intros (_ & _ & _ & evs & E & C) I.
  rewrite (new_events_ext _ _ _ E) in I. auto.
Qed.

(** The whole call closes only handles that it created, and returns one
    of them. *)
Lemma partialLookupInRoot_evolves limit fuel w root path w' res :
  partialLookupInRoot limit fuel w root path = Some (w', res) ->
  exists closed,
    evolves w w' closed
    /\ (forall h, In h closed -> next_handle w <= h)
    /\ (forall h rem, res = inr (h, rem) -> next_handle w <= h).
Proof.
  unfold partialLookupInRoot. intros H.
  destruct (OS.procSelfFdReadlink w root) as [w1 [err|lrp]] eqn:E1;
    destruct (procSelfFdReadlink_ev _ _ _ _ E1) as [V1 X1].
  { inv H. exists []. split; [assumption|]. split; [intros h []|discriminate]. }
  destruct (OS.dupFile w1 root) as [w2 [err|cur]] eqn:E2.
  { destruct (dupFile_err _ _ _ _ E2) as [V2 X2]. inv H. exists ([] ++ []).
    split; [eapply evolves_trans; eauto|].
    split; [intros h []|discriminate]. }
  destruct (dupFile_ok _ _ _ _ E2) as (l & T & A1 & A2 & A3 & V2).
  destruct (loop limit root path lrp fuel w2 _) as [[[w3 st] r]|] eqn:E3;
    [|discriminate].
  inv H.
  destruct (loop_evolves _ _ _ _ _ _ _ _ _ _ E3) as (c & V3 & C3 & H3 & R3).
  unfold held in C3, H3, R3. cbn [Walk.currentDir Walk.symlinkStack map] in *.
  assert (K : forall h, In h [next_handle w1] \/ next_handle w2 <= h ->
                        next_handle w <= h) by (intros h [[<-|[]]|B]; lia).
  assert (V : evolves w w3 (([] ++ []) ++ c))
    by (eapply evolves_trans; [eapply evolves_trans; eauto|eauto]).
  unfold deferred. rewrite SymlinkStack_Close_eq.
  pose proof (evolves_close_entries (Walk.symlinkStack st) w3) as V4.
  split with (x := ((([] ++ []) ++ c) ++ map dir (Walk.symlinkStack st))
                   ++ match res with
                      | inl _ => [Walk.currentDir st]
                      | inr _ => []
                      end).
  split; [|split].
  - destruct res.
    + eapply evolves_trans; [eapply evolves_trans; eauto|apply evolves_Close].
    + rewrite app_nil_r. eapply evolves_trans; eauto.
  - intros h I. simpl in I. apply in_app_or in I. destruct I as [I|I].
    + apply in_app_or in I. destruct I as [I|I]; [auto|].
      apply K, H3. right. exact I.
    + destruct res; [|contradiction]. destruct I as [<-|[]].
      apply K, H3. left. reflexivity.
  - intros h rem E. subst res. eauto.
Qed.

(** The facts about the root handle and the other open files, shared by
    the theorems below. *)
Lemma root_handle_facts limit fuel w root path w' res :
  world_ok w ->
  partialLookupInRoot limit fuel w root path = Some (w', res) ->
  OS.handle_loc w' root = OS.handle_loc w root
  /\ host w' = host w
  /\ (forall h, In (EvClose h) (new_events w w') ->
                next_handle w <= h /\ (OS.handle_loc w root <> None -> h <> root))
  /\ (forall h, h < next_handle w -> OS.handle_loc w' h = OS.handle_loc w h)
  /\ (forall h rem, res = inr (h, rem) ->
                    next_handle w <= h /\ h <> root).
Proof.
  intros OK H.
  destruct (partialLookupInRoot_evolves _ _ _ _ _ _ _ H) as (c & V & C & R).
  assert (F : forall h, h < next_handle w ->
                        OS.handle_loc w' h = OS.handle_loc w h).
  { intros h B. eapply evolves_loc; eauto. intros I. apply C in I. lia. }
  assert (RL : OS.handle_loc w root <> None -> root < next_handle w).
  { destruct (OS.handle_loc w root) as [l|] eqn:E; [|congruence].
    intros _. eapply loc_open_lt; eauto. }
  split; [|split; [apply V|split; [|split; [exact F|]]]].
  - destruct (OS.handle_loc w root) as [l|] eqn:E.
    + rewrite <- E. apply F, RL. congruence.
    + unfold partialLookupInRoot, OS.procSelfFdReadlink in H.
      rewrite loc_emit, E in H. inv H. rewrite loc_emit. exact E.
  - intros h I. pose proof (C _ (evolves_closes _ _ _ _ V I)) as B.
    split; [exact B|]. intros NN ->. apply RL in NN. lia.
  - intros h rem E. pose proof (R _ _ E) as B. split; [exact B|].
    intros ->. subst res.
    unfold partialLookupInRoot, OS.procSelfFdReadlink in H.
    rewrite loc_emit in H.
    destruct (OS.handle_loc w root) as [l|] eqn:EL; [|discriminate].
    assert (root < next_handle w) by (apply RL; congruence). lia.
Qed.

(** C9 (the root handle).  In a world whose open files all came from the
    allocator, a call leaves the root handle where it was: the root is
    never closed, every close of the call is of a handle the call created,
    every file that was open before the call is still open at the same
    place, the tree is unchanged, and a handle returned is one the call
    created, not the root. *)
Theorem root_handle_untouched :
  forall limit fuel w root path w' res,
    world_ok w ->
    partialLookupInRoot limit fuel w root path = Some (w', res) ->
    OS.handle_loc w' root = OS.handle_loc w root
    /\ host w' = host w
    /\ (forall h, In (EvClose h) (new_events w w') ->
                  next_handle w <= h /\ (OS.handle_loc w root <> None -> h <> root))
    /\ (forall h, h < next_handle w -> OS.handle_loc w' h = OS.handle_loc w h)
    /\ (forall h rem, res = inr (h, rem) ->
                      next_handle w <= h /\ h <> root).
Proof.
  intros limit fuel w root path w' res OK H.
  exact (root_handle_facts limit fuel w root path w' res OK H).
Qed.

Lemma root_handle_untouched_witness :
  exists w' h,
    partialLookupInRoot 255 4 Examples.tail_chain 0 "a/extra"
      = Some (w', inr (h, "extra"))
    /\ OS.handle_loc w' 0 = Some ["r"]
    /\ (forall x, In (EvClose x) (new_events Examples.tail_chain w') -> 1 <= x)
    /\ h <> 0.
Proof.
  destruct (partialLookupInRoot 255 4 Examples.tail_chain 0 "a/extra")
    as [[w' res]|] eqn:E; [|vm_compute in E; discriminate].
  assert (OK : world_ok Examples.tail_chain).
  { intros h l [I|[]]. inv I. simpl. lia. }
  destruct (root_handle_untouched 255 4 Examples.tail_chain 0 "a/extra"
              w' res OK E) as (H1 & _ & H3 & _ & H5).
  vm_compute in E. inv E. do 2 eexists. split; [reflexivity|].
  split; [exact H1|]. split.
  - intros x I. apply H3 in I. apply I.
  - apply (H5 6 "extra" eq_refl).
Defined.

(* ================================================================== *)
(** ** The logical path *)
(* ================================================================== *)

Section PathFacts.

Implicit Types (s p cur part : string) (C A : list string).

Lemma Split_app_slash s p :
  Strings.Split (s +++ "/" +++ p) "/" = Strings.Split s "/" ++ Strings.Split p "/".
Proof.
  induction s as [|a s IH]; simpl; [reflexivity|].
  destruct (Ascii.eqb a "/"); simpl.
  - now rewrite <- IH.
  - simpl in IH. rewrite IH.
    destruct (Strings.Split s "/") as [|h t] eqn:E; [|reflexivity].
    now destruct (Split_nonnil s).
Qed.

Lemma Split_one s : no_slash s -> Strings.Split s "/" = [s].
Proof.
  induction s as [|a s IH]; intros N; [reflexivity|].
  apply no_slash_cons in N. destruct N as [Na N]. simpl.
  destruct (Ascii.eqb_spec a "/"); [contradiction|].
  now rewrite IH.
Qed.

Lemma Split_Join A :
  A <> [] -> Forall no_slash A -> Strings.Split (Strings.Join A "/") "/" = A.
Proof.
  induction A as [|a A IH]; intros NE F; [contradiction|].
  inv F. destruct A as [|b A].
  - simpl. now apply Split_one.
  - change (Strings.Join (a :: b :: A) "/")
      with (a +++ "/" +++ Strings.Join (b :: A) "/").
    rewrite Split_app_slash, Split_one, IH by (auto; discriminate).
    reflexivity.
Qed.

Lemma filter_nonempty_id A :
  Forall (fun c => c <> "") A -> filter nonempty A = A.
Proof.
  induction 1 as [|a A N F IH]; simpl; [reflexivity|].
  rewrite (nonempty_true _ N), IH. reflexivity.
Qed.

(** The components of a rooted path written from its components. *)
Lemma components_rooted A :
  Forall no_slash A -> Forall (fun c => c <> "") A ->
  components ("/" +++ Strings.Join A "/") = A.
Proof.
  intros NS NE. rewrite components_filter. simpl.
  destruct A as [|a A]; [reflexivity|].
  rewrite Split_Join by (auto; discriminate).
  now apply filter_nonempty_id.
Qed.

Lemma rooted_is_root A :
  Forall (fun c => c <> "") A ->
  "/" +++ Strings.Join A "/" = "/" -> A = [].
Proof.
  intros NE H. destruct A as [|a A]; [reflexivity|]. exfalso.
  inv NE. simpl in H. destruct A; simpl in H.
  - inv H. contradiction.
  - destruct a; [contradiction|discriminate].
Qed.

Lemma components_no_slash s : Forall no_slash (components s).
Proof.
  rewrite components_filter. apply Forall_forall. intros x I.
  apply filter_In in I. destruct I as [I _].
  eapply Forall_forall in I; [exact I|apply Split_no_slash].
Qed.

Lemma components_nonempty s : Forall (fun c => c <> "") (components s).
Proof.
  rewrite components_filter. apply Forall_forall. intros x I.
  apply filter_In in I. destruct I as [_ I]. unfold nonempty in I.
  destruct (String.eqb_spec x ""); [discriminate|assumption].
Qed.

Lemma clean_fold_app rooted l1 : forall acc l2,
  Path.clean_fold rooted acc (l1 ++ l2) =
  Path.clean_fold rooted (Path.clean_fold rooted acc l1) l2.
Proof.
  induction l1 as [|e l1 IH]; intros acc l2; simpl; [reflexivity|].
  destruct (e =? "")%string; [apply IH|].
  destruct (e =? ".")%string; [apply IH|].
  destruct (e =? "..")%string; [|apply IH].
  destruct acc as [|top acc']; [destruct rooted; apply IH|].
  destruct (top =? "..")%string; apply IH.
Qed.

(** Cleaning elements that are names, apart from empty ones, keeps the
    names. *)
Lemma clean_fold_plain rooted l : forall acc,
  Forall plain (filter nonempty l) ->
  Path.clean_fold rooted acc l = rev (filter nonempty l) ++ acc.
Proof.
  induction l as [|e l IH]; intros acc F; simpl; [reflexivity|].
  simpl in F. unfold nonempty in F at 1.
  destruct (String.eqb_spec e "") as [->|N]; simpl in F; [now apply IH|].
  inv F. destruct H1 as [N1 N2].
  destruct (String.eqb_spec e "."); [contradiction|].
  destruct (String.eqb_spec e ".."); [contradiction|].
  rewrite IH by assumption. unfold nonempty at 2.
  destruct (String.eqb_spec e ""); [contradiction|]. simpl.
  now rewrite <- app_assoc.
Qed.

Lemma rev_tail_removelast C top acc' :
  rev C = top :: acc' -> rev acc' = removelast C.
Proof.
  intros H. assert (E : C = rev acc' ++ [top]).
  { rewrite <- (rev_involutive C), H. reflexivity. }
  rewrite E. now rewrite removelast_last.
Qed.

(** [path.Join("/", currentPath, part)] for a current path whose
    components are names. *)
Lemma Join_apply_part cur part :
  Forall plain (components cur) -> part <> "" -> no_slash part ->
  Path.Join ["/"; cur; part] =
  "/" +++ Strings.Join (apply_part (components cur) part) "/".
Proof.
  intros F NE NS. unfold Path.Join. simpl forallb. cbv iota.
  assert (EB : Path.join_buf "" ["/"; cur; part]
               = "" +++ "/" +++ "" +++ "/" +++ cur +++ "/" +++ part).
  { simpl. now rewrite append_assoc. }
  rewrite EB. unfold Path.Clean. simpl Path.IsAbs. cbv iota.
  rewrite !Split_app_slash, (Split_one part) by assumption.
  change (Strings.Split "" "/") with [""].
  change (Path.clean_fold true [] ([""] ++ [""] ++ Strings.Split cur "/" ++ [part]))
    with (Path.clean_fold true [] (Strings.Split cur "/" ++ [part])).
  rewrite clean_fold_app.
  rewrite (clean_fold_plain true (Strings.Split cur "/") []) by exact F.
  change (filter nonempty (Strings.Split cur "/")) with (components cur).
  rewrite app_nil_r.
  assert (R : rev (Path.clean_fold true (rev (components cur)) [part])
              = apply_part (components cur) part).
  { unfold apply_part. cbn [Path.clean_fold].
    destruct (String.eqb_spec part ""); [contradiction|].
    destruct (String.eqb_spec part "."); [apply rev_involutive|].
    destruct (String.eqb_spec part "..").
    - destruct (rev (components cur)) as [|top acc'] eqn:ER.
      + apply (f_equal (@rev string)) in ER. rewrite rev_involutive in ER.
        rewrite ER. reflexivity.
      + assert (PT : plain top).
        { eapply Forall_forall; [exact F|]. apply in_rev. rewrite ER.
          simpl. auto. }
        destruct (String.eqb_spec top ".."); [destruct PT; contradiction|].
        eapply rev_tail_removelast; eauto.
    - simpl. now rewrite rev_involutive. }
  rewrite R.
  destruct ("/" +++ Strings.Join (apply_part (components cur) part) "/")
    eqn:EO; [discriminate|reflexivity].
Qed.

Lemma apply_part_good C part :
  (Forall plain C -> part <> "" -> Forall plain (apply_part C part))
  /\ (Forall no_slash C -> no_slash part -> Forall no_slash (apply_part C part))
  /\ (Forall (fun c => c <> "") C -> part <> "" ->
      Forall (fun c => c <> "") (apply_part C part)).
Proof.
  assert (RL : forall (P : string -> Prop), Forall P C -> Forall P (removelast C)).
  { intros P F. apply Forall_forall. intros x I.
    eapply Forall_forall; [exact F|]. revert I. clear.
    induction C as [|a [|b C] IH]; simpl; auto.
    intros [<-|I]; auto. right. apply IH. exact I. }
  unfold apply_part.
  destruct (String.eqb_spec part "."); [repeat split; auto|].
  destruct (String.eqb_spec part ".."); [repeat split; auto|].
  repeat split; intros; apply Forall_app; split; auto;
    constructor; auto; split; auto.
Qed.

End PathFacts.

(* ================================================================== *)
(** ** The handles and their locations *)
(* ================================================================== *)

Lemma is_prefix_app (p l : Loc) : is_prefix p (p ++ l).
Proof. now exists l. Qed.

Lemma open_target_loc w d part l rootLoc cur :
  OS.handle_loc w d = Some (rootLoc ++ components cur) ->
  Forall plain (components cur) ->
  part <> "" -> no_slash part ->
  Path.Join ["/"; cur; part] <> "/" ->
  open_target w d part = inr l ->
  l = rootLoc ++ components (Path.Join ["/"; cur; part])
  /\ Forall plain (components (Path.Join ["/"; cur; part])).
Proof.
  intros HL F NE NS NR HT.
  destruct (apply_part_good (components cur) part) as (G1 & G2 & G3).
  rewrite Join_apply_part in * by assumption.
  rewrite components_rooted
    by auto using components_no_slash, components_nonempty.
  split; [|auto].
  assert (NN : apply_part (components cur) part <> []).
  { intros E. apply NR. rewrite E. reflexivity. }
  unfold open_target in HT. rewrite HL in HT.
  destruct (OS.lookup (host w) (rootLoc ++ components cur)) as [[es|t|]|];
    try discriminate.
  unfold apply_part in *.
  destruct (part =? ".")%string; [now inv HT|].
  destruct (part =? "..")%string.
  - inv HT. apply removelast_app. intros E. rewrite E in NN. now apply NN.
  - destruct (OS.find_entry part es); inv HT. now rewrite app_assoc.
Qed.

Lemma NoDup_app_disjoint (a b : list Handle) x :
  NoDup (a ++ b) -> In x a -> In x b -> False.
Proof.
  induction a as [|y a IH]; simpl; intros N I J; [contradiction|].
  inversion N as [|? ? NI N']; subst. destruct I as [<-|I].
  - apply NI, in_or_app. auto.
  - eauto.
Qed.

Lemma held_split (c : Handle) a b :
  NoDup (c :: a ++ b) ->
  NoDup (c :: a) /\ (forall x, In x b -> x <> c /\ ~ In x a).
Proof.
  intros H. inversion H as [|? ? NI N]; subst. split.
  - constructor.
    + intros I. apply NI, in_or_app. auto.
    + eapply NoDup_app_remove_r; eauto.
  - intros x I. split.
    + intros ->. apply NI, in_or_app. auto.
    + intros J. eapply NoDup_app_disjoint; eauto.
Qed.

Lemma NoDup_fresh_cons (b c : Handle) l :
  (forall x, In x l -> x < b) -> b <= c -> NoDup l -> NoDup (c :: l).
Proof.
  intros B L N. constructor; [|assumption]. intros I. apply B in I. lia.
Qed.

Lemma NoDup_fresh_snoc (b c : Handle) l :
  (forall x, In x l -> x < b) -> b <= c -> NoDup l -> NoDup (l ++ [c]).
Proof.
  intros B L N. induction l as [|a l IH]; simpl.
  - constructor; [intros []|constructor].
  - inversion N as [|? ? NI N']; subst. constructor.
    + intros I. apply in_app_or in I. destruct I as [I|[E|[]]]; [auto|].
      specialize (B a (or_introl eq_refl)). lia.
    + apply IH; auto. intros x I. apply B. right. exact I.
Qed.

(** Side conditions of the steps below: a handle is under a bound, differs
    from another, or is not among the closed ones. *)
Ltac side :=
  cbn [In] in *; rewrite ?next_Close;
  first
    [ lia
    | tauto
    | assumption
    | apply not_eq_sym; assumption
    | match goal with
      | B : forall x, In x ?d -> _ <= x < _ |- ~ In _ ?d =>
          let I := fresh "I" in intros I; apply B in I; lia
      end
    | match goal with
      | X : forall x, In x ?d -> x <> ?c /\ ~ In x ?a |- ~ In ?c ?d =>
          let I := fresh "I" in intros I; apply X in I; tauto
      end
    | match goal with
      | X : forall x, In x ?d -> x <> ?c /\ ~ In x ?a, J : In ?h ?a
        |- ~ In ?h ?d =>
          let I := fresh "I" in intros I; apply X in I; tauto
      end
    | match goal with
      | ND : NoDup (?c :: ?a), J : In ?h ?a |- ?h <> ?c =>
          let E := fresh "E" in
          intros E; subst; inversion ND; contradiction
      | ND : NoDup (?c :: ?a), J : In ?h ?a |- ?c <> ?h =>
          let E := fresh "E" in
          intros E; subst; inversion ND; contradiction
      end
    | match goal with
      | B : forall x, In x ?a -> _ <= x < _, J : In ?h ?a |- _ =>
          let K := fresh "K" in pose proof (B _ J) as K; lia
      end ].

(** The location of a handle in a later world, from an earlier one. *)
Ltac stab :=
  repeat first
    [ rewrite loc_Close;
      match goal with
      | |- context [Nat.eqb ?a ?b] =>
          let EQ := fresh "EQ" in
          destruct (Nat.eqb_spec a b) as [EQ|_];
          [exfalso; revert EQ; change (a <> b); side|]
      end
    | match goal with
      | E : evolves ?a ?b ?c |- context [OS.handle_loc ?b ?h] =>
          rewrite (evolves_loc a b c h E) by side
      end ].

Ltac stab_in T :=
  repeat first
    [ rewrite loc_Close in T;
      match type of T with
      | context [Nat.eqb ?a ?b] =>
          let EQ := fresh "EQ" in
          destruct (Nat.eqb_spec a b) as [EQ|_];
          [exfalso; revert EQ; change (a <> b); side|]
      end
    | match type of T with
      | context [OS.handle_loc ?b ?h] =>
          match goal with
          | E : evolves ?a b ?c |- _ =>
              rewrite (evolves_loc a b c h E) in T by side
          end
      end ].


Lemma NoDup_tail (c : Handle) l : NoDup (c :: l) -> NoDup l.
Proof. intros H. now inversion H. Qed.

(** Split a membership into its cases. *)
Ltac split_mem I :=
  repeat first
    [ apply in_app_or in I
    | destruct I as [I|I]
    | contradiction ].

(** A bound on a handle that is a member of a list of known handles. *)
Ltac mem_bound :=
  rewrite ?next_Close;
  first
    [ lia
    | match goal with
      | B : forall x, In x ?a -> _ <= x < _, J : In ?h ?a |- _ =>
          let K := fresh "K" in pose proof (B _ J) as K; lia
      end ].

Ltac nodup :=
  first
    [ assumption
    | eapply NoDup_tail; eassumption
    | match goal with
      | |- NoDup (?c :: ?l ++ [?n]) =>
          change (NoDup ((c :: l) ++ [n]));
          apply (NoDup_fresh_snoc n n (c :: l));
          [ let x := fresh "x" in let I := fresh "I" in
            intros x I; split_mem I; subst; mem_bound
          | lia
          | nodup ]
      end
    | match goal with
      | |- NoDup (?l ++ [?n]) =>
          apply (NoDup_fresh_snoc n n l);
          [ let x := fresh "x" in let I := fresh "I" in
            intros x I; split_mem I; subst; mem_bound
          | lia
          | nodup ]
      end
    | match goal with
      | |- NoDup (?c :: ?l) =>
          apply (NoDup_fresh_cons c c l);
          [ let x := fresh "x" in let I := fresh "I" in
            intros x I; split_mem I; subst; mem_bound
          | lia
          | nodup ]
      end ].

Section BodyOwn.

Variable maxSymlinkLimit : nat.
Variable root : Handle.
Variable unsafePath : string.
Variable logicalRootPath : string.
Variable n0 : Handle.
Variable rootLoc : Loc.

Local Abbreviation body := (loop_body maxSymlinkLimit root unsafePath logicalRootPath).
Local Abbreviation walk := (loop maxSymlinkLimit root unsafePath logicalRootPath).

Lemma body_own_continue w st w' st' :
  own_inv n0 root rootLoc w st ->
  body w st = (w', Continue st') ->
  own_inv n0 root rootLoc w' st'.
Proof.
  intros [RL RO ND BD CU PL SK] H. unfold loop_body in H.
  destruct (next_part (Walk.remainingPath st)) as [part rest] eqn:EP.
  pose proof (proj1 (next_part_cases _ _ _ EP)) as NS.
  destruct (String.eqb_spec part "") as [->|N].
  { inv H. constructor; auto. }
  assert (Bcur : n0 <= Walk.currentDir st < next_handle w)
    by (apply BD; left; reflexivity).
  assert (Bst : forall x, In x (map dir (Walk.symlinkStack st)) ->
                          n0 <= x < next_handle w)
    by (intros x I; apply BD; right; exact I).
  unfold held in ND. 
  repeat (break_match_hyp H; try discriminate); subst; inv H.
  all: string_eqs.
  all: learn_ev.
  all: unfold allocated in *;
    repeat match goal with
    | A : _ /\ _ |- _ => destruct A
    end.
  all: learn_next.
  all: try match goal with
    | D : map dir (Walk.symlinkStack _) = map dir ?s ++ ?drop |- _ =>
        rewrite D in ND, Bst, SK;
        destruct (held_split _ _ _ ND) as [NDs Xd];
        assert (Bs : forall z, In z (map dir s) -> n0 <= z < next_handle w)
          by (let z := fresh "z" in let J := fresh "J" in
              intros z J; apply Bst, in_or_app; auto);
        assert (Bd : forall z, In z drop -> n0 <= z < next_handle w)
          by (let z := fresh "z" in let J := fresh "J" in
              intros z J; apply Bst, in_or_app; auto);
        assert (SKs : forall z, In z (map dir s) ->
                  exists l, OS.handle_loc w z = Some l /\ is_prefix rootLoc l)
          by (let z := fresh "z" in let J := fresh "J" in
              intros z J; apply SK, in_or_app; auto);
        clear ND Bst SK D
    end.
  all: rewrite ?next_Close in *.
  all: try match goal with
    | T : open_target _ _ _ = inr _ |- _ =>
        destruct (open_target_loc _ _ _ _ _ _ CU PL N NS ltac:(assumption) T)
          as [TL TP]
    end.
  all: repeat match goal with
    | T : OS.handle_loc _ _ = Some _ |- _ =>
        progress (stab_in T);
        first [ rewrite RO in T | rewrite CU in T ];
        injection T as <-
    end.
  all: constructor; unfold held;
    cbn [Walk.currentDir Walk.symlinkStack Walk.currentPath].
  (* the root *)
  all: try assumption.
  all: try solve [stab; assumption].
  all: try match goal with
    | D : map dir _ = _ |- _ => rewrite D
    end.
  all: try solve [nodup].
  all: try solve [let x := fresh "x" in let I := fresh "I" in
                  intros x I; split_mem I; subst; mem_bound].
  all: try solve [rewrite ?Heqb; simpl; constructor | assumption].
  all: try solve [rewrite ?Heqb; stab;
                  change (components "/") with (@nil string);
                  rewrite ?app_nil_r; subst; assumption].
  all: let x := fresh "x" in let I := fresh "I" in
       intros x I; split_mem I; subst;
       first
         [ match goal with
           | S : forall h, In h ?a -> ex _, J : In ?y ?a |- _ =>
               let lx := fresh "lx" in
               destruct (S _ J) as (lx & ? & ?); exists lx;
               split; [stab; assumption|assumption]
           end
         | eexists; split; [stab; eassumption|apply is_prefix_app] ].
Qed.



Lemma body_own_return w st w' st' res :
  own_inv n0 root rootLoc w st ->
  body w st = (w', Return st' res) ->
  good_result rootLoc w' st' res.
Proof.
  intros [RL RO ND BD CU PL SK] H hr rr ER. subst res. unfold loop_body in H.
  destruct (next_part (Walk.remainingPath st)) as [part rest] eqn:EP.
  pose proof (proj1 (next_part_cases _ _ _ EP)) as NS.
  destruct (String.eqb_spec part "") as [->|N]; [discriminate|].
  assert (Bcur : n0 <= Walk.currentDir st < next_handle w)
    by (apply BD; left; reflexivity).
  assert (Bst : forall x, In x (map dir (Walk.symlinkStack st)) ->
                          n0 <= x < next_handle w)
    by (intros x I; apply BD; right; exact I).
  unfold held in ND.
  repeat (break_match_hyp H; try discriminate); subst; inv H.
  all: repeat match goal with
    | E : SymlinkStack.PopTopSymlink _ = _ |- _ =>
        apply PopTopSymlink_cases in E;
        destruct E as [(? & ? & ?)|(? & ? & ?)]; subst; try discriminate
    | E : Some _ = Some _ |- _ => inv E
    end.
  all: string_eqs.
  all: learn_ev.
  all: unfold allocated in *;
    repeat match goal with
    | A : _ /\ _ |- _ => destruct A
    end.
  all: learn_next.
  all: try match goal with
    | D : map dir (Walk.symlinkStack _) = map dir ?s ++ ?drop |- _ =>
        rewrite D in ND, Bst, SK;
        destruct (held_split _ _ _ ND) as [NDs Xd];
        assert (Bs : forall z, In z (map dir s) -> n0 <= z < next_handle w)
          by (let z := fresh "z" in let J := fresh "J" in
              intros z J; apply Bst, in_or_app; auto);
        assert (Bd : forall z, In z drop -> n0 <= z < next_handle w)
          by (let z := fresh "z" in let J := fresh "J" in
              intros z J; apply Bst, in_or_app; auto);
        assert (SKs : forall z, In z (map dir s) ->
                  exists l, OS.handle_loc w z = Some l /\ is_prefix rootLoc l)
          by (let z := fresh "z" in let J := fresh "J" in
              intros z J; apply SK, in_or_app; auto);
        clear ND Bst SK D
    end.
  all: rewrite ?next_Close in *.
  all: try match goal with
    | T : open_target _ _ _ = inr _ |- _ =>
        destruct (open_target_loc _ _ _ _ _ _ CU PL N NS ltac:(assumption) T)
          as [TL TP]
    end.
  all: try match goal with
    | E : Walk.symlinkStack _ = _ |- _ => rewrite E in *
    end.
  all: cbn [Walk.symlinkStack map] in *.
  all: try match goal with
    | B : forall y, In y (?d :: ?l) -> _ <= y < _ |- _ =>
        pose proof (B d (or_introl eq_refl)) as Bx;
        assert (Bl : forall z, In z l -> n0 <= z < next_handle w)
          by (let z := fresh "z" in let J := fresh "J" in
              intros z J; apply B; right; exact J)
    end.
  all: try match goal with
    | S : forall y, In y (?d :: ?l) -> ex _ |- _ =>
        destruct (S d (or_introl eq_refl)) as (lx & Lx & Px)
    end.
  all: try match goal with
    | ND' : NoDup (?c :: ?d :: ?l) |- _ =>
        assert (NEx : d <> c)
          by (intros EE; inversion ND' as [|? ? NI ?]; subst;
              apply NI; left; congruence);
        assert (NIx : ~ In d l)
          by (inversion ND' as [|? ? ? ND'']; subst;
              inversion ND'' as [|? ? NI ?]; subst; exact NI)
    end.
  all: try match goal with
    | Xd' : forall y, In y ?dr -> y <> _ /\ ~ In y (?d :: _) |- _ =>
        assert (NId : ~ In d dr)
          by (let J := fresh "J" in
              intros J; apply Xd' in J; destruct J as [_ J]; apply J;
              left; reflexivity)
    end.
  all: split; [mem_bound|].
  all: split; [first [assumption | intros []]|].
  all: split; [let y := fresh "y" in let I := fresh "I" in
               intros y I; split_mem I; subst; mem_bound|].
  all: first
    [ exists lx; split; [stab; assumption|assumption]
    | eexists; split; [stab; subst; eassumption|apply is_prefix_app] ].
Qed.

End BodyOwn.

Section LoopOwn.

Variable maxSymlinkLimit : nat.
Variable root : Handle.
Variable unsafePath : string.
Variable logicalRootPath : string.
Variable n0 : Handle.
Variable rootLoc : Loc.

Local Abbreviation walk := (loop maxSymlinkLimit root unsafePath logicalRootPath).

Lemma loop_own fuel : forall w st w' st' res,
  own_inv n0 root rootLoc w st ->
  walk fuel w st = Some (w', st', res) ->
  good_result rootLoc w' st' res.
Proof.
  induction fuel as [|fuel IH]; intros w st w' st' res I H; [discriminate|].
  rewrite loop_unfold in H.
  destruct (Walk.remainingPath st =? "")%string.
  - inv H. destruct I as [RL RO ND BD CU PL SK]. intros h rem E. inv E.
    split; [apply BD; left; reflexivity|].
    split; [unfold held in ND; now inversion ND|].
    split; [intros x J; apply BD; right; exact J|].
    eexists. split; [exact CU|apply is_prefix_app].
  - destruct (loop_body _ _ _ _ w st) as [w1 [st1|st1 res1]] eqn:EB.
    + eapply IH; [|exact H]. eapply body_own_continue; eauto.
    + inv H. eapply body_own_return; eauto.
Qed.

End LoopOwn.

(** C1 (no escape).  In a world whose open files all came from the
    allocator, with the root handle open at [rootLoc], a handle returned
    by the call, for a full or a partial result, is open at a location of
    which [rootLoc] is a prefix, and the path query on it reports that
    location. *)
Theorem lookup_stays_under_root :
  forall limit fuel w root path rootLoc w' h rem,
    world_ok w ->
    OS.handle_loc w root = Some rootLoc ->
    partialLookupInRoot limit fuel w root path = Some (w', inr (h, rem)) ->
    exists sub,
      OS.handle_loc w' h = Some (rootLoc ++ sub)
      /\ snd (OS.procSelfFdReadlink w' h) = inr (OS.path_of_loc (rootLoc ++ sub))
      /\ OS.handle_loc w' root = Some rootLoc.
Proof.
  intros limit fuel w root path rootLoc w' h rem OK HR H.
  assert (RS : OS.handle_loc w' root = Some rootLoc).
  { destruct (root_handle_facts _ _ _ _ _ _ _ OK H) as [E _]. congruence. }
  unfold partialLookupInRoot in H.
  unfold OS.procSelfFdReadlink in H at 1. rewrite loc_emit, HR in H.
  rewrite dupFile_eq, loc_emit, HR in H.
  set (w2 := fst (OS.alloc (OS.emit (EvDup root)
                   (OS.emit (EvProcSelfFdReadlink root) w)) rootLoc)) in *.
  destruct (loop limit root path (OS.path_of_loc rootLoc) fuel w2 _)
    as [[[w3 st] res]|] eqn:EL; [|discriminate].
  inv H.
  change (next_handle (OS.emit (EvProcSelfFdReadlink root) w))
    with (next_handle w) in EL.
  assert (I : own_inv (next_handle w) root rootLoc w2
                (Walk.mk (next_handle w) [] 0 "" path)).
  { pose proof (loc_open_lt _ _ _ OK HR) as B.
    constructor; unfold held; simpl.
    - exact B.
    - unfold w2. rewrite loc_alloc, !next_emit, !loc_emit.
      destruct (Nat.eqb_spec (next_handle w) root); [lia|exact HR].
    - constructor; [intros []|constructor].
    - intros x [<-|[]]. lia.
    - unfold w2. rewrite loc_alloc, !next_emit, Nat.eqb_refl.
      now rewrite app_nil_r.
    - constructor.
    - intros x []. }
  destruct (loop_own _ _ _ _ _ _ _ _ _ _ _ _ I EL h rem eq_refl)
    as (B & NI & BS & l & HL & [sub ->]).
  exists sub. unfold deferred in *. rewrite SymlinkStack_Close_eq in *.
  assert (E : OS.handle_loc (close_entries w3 (Walk.symlinkStack st)) h
              = Some (rootLoc ++ sub)).
  { rewrite (evolves_loc _ _ _ _ (evolves_close_entries _ w3)); auto. }
  split; [exact E|]. split; [|exact RS].
  unfold OS.procSelfFdReadlink. rewrite loc_emit, E. reflexivity.
Qed.

Lemma lookup_stays_under_root_witness :
  exists w' h rem sub,
    partialLookupInRoot 255 8 Examples.escape 0 "evil/../x" = Some (w', inr (h, rem))
    /\ OS.handle_loc w' h = Some (["r"] ++ sub).
Proof.
  destruct (partialLookupInRoot 255 8 Examples.escape 0 "evil/../x")
    as [[w' [err|[h rem]]]|] eqn:E; try (vm_compute in E; discriminate).
  assert (OK : world_ok Examples.escape).
  { intros x l [I|[]]. inv I. simpl. lia. }
  destruct (lookup_stays_under_root 255 8 Examples.escape 0 "evil/../x"
              ["r"] w' h rem OK eq_refl E) as (sub & H1 & _).
  exists w', h, rem, sub. split; [reflexivity|exact H1].
Defined.

(* ================================================================== *)
(** ** The stack methods, composed *)
(* ================================================================== *)

Section StackMore.

Implicit Types (s : symlinkStack) (e : symlinkStackEntry) (w : World).

Lemma components_slash t : components (String "/" t) = components t.
Proof.
  reflexivity.
Qed.

Lemma components_other a t : a <> "/"%char -> components (String a t) <> [].
Proof.
  intros N. unfold components, DeleteFunc. simpl.
  destruct (Ascii.eqb_spec a "/"); [contradiction|].
  destruct (Strings.Split t "/") as [|h r] eqn:E; simpl; discriminate.
Qed.

Lemma components_nil_slashes t :
  components t = [] <-> exists n, t = slashes n.
Proof.
  induction t as [|a t IH].
  - split; [exists 0; reflexivity|reflexivity].
  - destruct (Ascii.eqb_spec a "/") as [->|N].
    + rewrite components_slash, IH. split.
      * intros [n ->]. exists (S n). reflexivity.
      * intros [[|n] E]; [discriminate|]. inv E. eauto.
    + split.
      * intros E. now destruct (components_other a t N).
      * intros [[|n] E]; [discriminate|]. inv E. contradiction.
Qed.

End StackMore.

(** X1 ([push], no-op links).  [push] returns without an error and leaves
    both the stack and the world as they were, duplicating nothing, exactly
    when the link target is a run of slashes, the empty target included. *)
Theorem push_noop_iff_slashes :
  forall w s d rem target,
    SymlinkStack.push w s d rem target = (w, s, None)
    <-> exists n, target = slashes n.
Proof.
  intros w s d rem target. rewrite <- components_nil_slashes. split.
  - intros H. apply push_cases in H.
    destruct H as [(E & _)|(_ & H)]; [exact E|exfalso].
    destruct (OS.handle_loc w d) as [l|].
    + destruct H as (_ & E & _).
      apply (f_equal (@length symlinkStackEntry)) in E.
      rewrite length_app in E. simpl in E. lia.
    + destruct H as (_ & _ & E). discriminate.
  - intros E. unfold SymlinkStack.push. fold (components target).
    now rewrite E.
Qed.

Section StackMore2.

Implicit Types (s : symlinkStack) (e : symlinkStackEntry) (w : World).

Lemma loc_close_entries es : forall w h,
  OS.handle_loc (close_entries w es) h =
  if existsb (Nat.eqb h) (map dir es) then None else OS.handle_loc w h.
Proof.
  induction es as [|e es IH]; intros w h; simpl; [reflexivity|].
  rewrite IH, loc_Close.
  destruct (Nat.eqb h (dir e)); simpl; [|reflexivity].
  destruct (existsb (Nat.eqb h) (map dir es)); reflexivity.
Qed.

Lemma existsb_eqb_In (h : Handle) l : existsb (Nat.eqb h) l = true <-> In h l.
Proof.
  rewrite existsb_exists. split.
  - intros (x & I & E). apply Nat.eqb_eq in E. now subst.
  - intros I. exists h. split; [exact I|apply Nat.eqb_refl].
Qed.

Lemma trailing_empty_snoc_full s e :
  linkUnwalked e <> [] ->
  trailing_empty (s ++ [e]) = [] /\ without_trailing_empty (s ++ [e]) = s ++ [e].
Proof.
  intros N. unfold trailing_empty, without_trailing_empty.
  rewrite rev_app_distr. simpl. unfold entry_is_empty.
  destruct (linkUnwalked e); [contradiction|]. simpl.
  rewrite rev_involutive. split; reflexivity.
Qed.

Lemma trailing_empty_snoc_empty s e :
  linkUnwalked e = [] ->
  trailing_empty (s ++ [e]) = e :: trailing_empty s
  /\ without_trailing_empty (s ++ [e]) = without_trailing_empty s.
Proof.
  intros N. unfold trailing_empty, without_trailing_empty.
  rewrite rev_app_distr. simpl.
  assert (E : entry_is_empty e = true) by (unfold entry_is_empty; now rewrite N).
  rewrite E. split; reflexivity.
Qed.

Lemma without_trailing_empty_id s :
  trailing_empty s = [] -> without_trailing_empty s = s.
Proof.
  intros E. rewrite (split_trailing_empty s) at 2. rewrite E. simpl.
  now rewrite app_nil_r.
Qed.

(** Popping, one after the other, the components a tail entry still has
    to walk removes the entry and closes its directory. *)
Lemma pop_parts_tail s d rem : forall cs w,
  cs <> [] -> trailing_empty s = [] ->
  pop_parts w (s ++ [mkEntry d rem cs]) cs = (OS.Close w d, s, None).
Proof.
  induction cs as [|c cs IH]; intros w N T; [contradiction|].
  cbn [pop_parts]. unfold SymlinkStack.PopPart. rewrite popPart_snoc.
  cbn [linkUnwalked]. rewrite String.eqb_refl, cleanup_spec.
  unfold consume_head. cbn [dir remainingPath linkUnwalked tl].
  destruct cs as [|c' cs].
  - destruct (trailing_empty_snoc_empty s (mkEntry d rem []) eq_refl) as [E1 E2].
    rewrite E1, E2, T, (without_trailing_empty_id s T). reflexivity.
  - destruct (trailing_empty_snoc_full s (mkEntry d rem (c' :: cs)))
      as [E1 E2]; [discriminate|].
    rewrite E1, E2. cbn [close_entries fold_left].
    apply IH; [discriminate|assumption].
Qed.

Lemma hd_without_trailing_empty s :
  without_trailing_empty s <> [] ->
  hd_error (without_trailing_empty s) = hd_error s.
Proof.
  intros N. rewrite (split_trailing_empty s) at 2.
  destruct (without_trailing_empty s); [contradiction|reflexivity].
Qed.

Lemma front_consume s e :
  option_map (fun x => (dir x, remainingPath x)) (hd_error (s ++ [consume_head e]))
  = option_map (fun x => (dir x, remainingPath x)) (hd_error (s ++ [e])).
Proof.
  destruct s; reflexivity.
Qed.

Lemma PopTopSymlink_front s :
  snd (SymlinkStack.PopTopSymlink s)
  = option_map (fun x => (dir x, remainingPath x)) (hd_error s).
Proof.
  destruct s; reflexivity.
Qed.

Lemma hd_error_app_ne {A} (l l' : list A) :
  l <> [] -> hd_error (l ++ l') = hd_error l.
Proof.
  destruct l; [contradiction|reflexivity].
Qed.

End StackMore2.

(** X2 ([push], the private copy).  For an open directory and a link
    target with at least one component, [push] appends exactly one entry:
    its directory is a new handle, not the one passed in, open at the same
    place, and still open there after the caller closes its own handle; it
    saves the remaining path it was given, and its unwalked components are
    the target's non-empty components, none of which holds a slash.  No
    other handle changes. *)
Theorem push_private_copy :
  forall w s d rem target l,
    world_ok w ->
    OS.handle_loc w d = Some l ->
    components target <> [] ->
    exists w' e,
      SymlinkStack.push w s d rem target = (w', s ++ [e], None)
      /\ dir e = next_handle w /\ dir e <> d
      /\ remainingPath e = rem
      /\ linkUnwalked e = components target
      /\ Forall (fun c => c <> "" /\ no_slash c) (linkUnwalked e)
      /\ OS.handle_loc w' (dir e) = Some l
      /\ OS.handle_loc (OS.Close w' d) (dir e) = Some l
      /\ (forall h, h <> dir e -> OS.handle_loc w' h = OS.handle_loc w h).
Proof.
  intros w s d rem target l OK HL NE.
  destruct (SymlinkStack.push w s d rem target) as [[w' s'] r] eqn:E.
  apply push_cases in E. destruct E as [(E & _)|(_ & E)]; [contradiction|].
  rewrite HL in E. destruct E as (-> & -> & ->).
  pose proof (loc_open_lt _ _ _ OK HL) as B.
  assert (NL : OS.handle_loc (fst (OS.alloc (OS.emit (EvDup d) w) l))
                 (next_handle w) = Some l).
  { rewrite loc_alloc, next_emit, Nat.eqb_refl. reflexivity. }
  do 2 eexists. split; [reflexivity|]. cbn [dir remainingPath linkUnwalked].
  split; [reflexivity|]. split; [lia|]. split; [reflexivity|].
  split; [reflexivity|]. split; [|split; [exact NL|split]].
  - apply Forall_forall. intros c I. split.
    + eapply Forall_forall in I; [exact I|apply components_nonempty].
    + eapply Forall_forall in I; [exact I|apply components_no_slash].
  - rewrite loc_Close. destruct (Nat.eqb_spec (next_handle w) d); [lia|exact NL].
  - intros h N. rewrite loc_alloc, next_emit, loc_emit.
    destruct (Nat.eqb_spec (next_handle w) h); [congruence|reflexivity].
Qed.

Lemma push_private_copy_witness :
  exists w' e,
    SymlinkStack.push (Examples.world_r []) [] 0 "a/x" "b//c/" = (w', [e], None)
    /\ dir e = 1 /\ linkUnwalked e = ["b"; "c"]
    /\ OS.handle_loc (OS.Close w' 0) 1 = Some ["r"].
Proof.
  assert (OK : world_ok (Examples.world_r [])).
  { intros h l [I|[]]. inv I. simpl. lia. }
  destruct (push_private_copy (Examples.world_r []) [] 0 "a/x" "b//c/" ["r"]
              OK eq_refl ltac:(vm_compute; discriminate))
    as (w' & e & H1 & H2 & _ & _ & H5 & _ & _ & H8 & _).
  exists w', e. rewrite H2 in H8. auto.
Defined.

(** X3 ([SwapLink], by case).  On an empty stack [SwapLink] is [push].  On
    a stack with tail entry [e] it consumes the first unwalked component of
    [e], leaving [e] in place even when that empties it, and then pushes;
    when [e] has no unwalked component, or its first one is not the link's
    component, it fails with a broken-symlink-stack error and changes
    neither the stack nor the world, duplicating nothing. *)
Theorem SwapLink_spec :
  forall w part d rem target,
    SymlinkStack.SwapLink w [] part d rem target
      = SymlinkStack.push w [] d rem target
    /\ forall s e,
         (hd_error (linkUnwalked e) = Some part ->
          SymlinkStack.SwapLink w (s ++ [e]) part d rem target
            = SymlinkStack.push w (s ++ [consume_head e]) d rem target)
         /\ (hd_error (linkUnwalked e) <> Some part ->
             exists err,
               SymlinkStack.SwapLink w (s ++ [e]) part d rem target
                 = (w, s ++ [e], Some err)
               /\ errors_Is err errBrokenSymlinkStack = true).
Proof.
  intros w part d rem target. split; [reflexivity|]. intros s e.
  unfold SymlinkStack.SwapLink. rewrite popPart_snoc.
  destruct (linkUnwalked e) as [|h u]; simpl.
  - split; [discriminate|]. intros _. eexists. split; reflexivity.
  - destruct (String.eqb_spec h part) as [->|N]; simpl.
    + split; [reflexivity|]. intros N. now destruct N.
    + split; [intros E; inv E; contradiction|].
      intros _. eexists. split; reflexivity.
Qed.

(** X4 ([SwapLink] drops nothing).  Whatever [SwapLink] returns, the
    directories of the stack it was given are still there, in order, with
    at most one more after them; it logs no close, and every handle handed
    out before the call is where it was. *)
Theorem SwapLink_never_drops :
  forall w s part d rem target w' s' r,
    SymlinkStack.SwapLink w s part d rem target = (w', s', r) ->
    (exists extra, map dir s' = map dir s ++ extra /\ length extra <= 1)
    /\ length s <= length s'
    /\ (forall h, ~ In (EvClose h) (new_events w w'))
    /\ (forall h, h < next_handle w -> OS.handle_loc w' h = OS.handle_loc w h).
Proof.
  intros w s part d rem target w' s' r H.
  assert (K : forall V : evolves w w' [],
             (forall h, ~ In (EvClose h) (new_events w w'))
             /\ (forall h, h < next_handle w ->
                           OS.handle_loc w' h = OS.handle_loc w h)).
  { intros V. split.
    - intros h I. apply (evolves_closes _ _ _ _ V) in I. exact I.
    - intros h B. eapply evolves_loc; eauto. }
  assert (L : forall extra, map dir s' = map dir s ++ extra ->
                            length s' = length s + length extra).
  { intros extra E. apply (f_equal (@length Handle)) in E.
    now rewrite length_app, !length_map in E. }
  destruct (SwapLink_ev _ _ _ _ _ _ _ _ _ H)
    as [(D & V & _)|(_ & l & _ & D & _ & _ & _ & V)].
  - split; [exists []; split; [now rewrite app_nil_r|simpl; lia]|].
    split; [|now apply K].
    rewrite (L []); [simpl; lia|now rewrite app_nil_r].
  - split; [exists [next_handle w]; split; [exact D|simpl; lia]|].
    split; [|now apply K]. rewrite (L _ D). lia.
Qed.

Lemma SwapLink_never_drops_witness :
  exists w' s',
    SymlinkStack.SwapLink (Examples.world_r []) [mkEntry 0 "a" ["b"]] "b" 0 "b" "c"
      = (w', s', None)
    /\ length s' = 2
    /\ (forall h, ~ In (EvClose h) (new_events (Examples.world_r []) w')).
Proof.
  destruct (SymlinkStack.SwapLink (Examples.world_r []) [mkEntry 0 "a" ["b"]]
              "b" 0 "b" "c") as [[w' s'] r] eqn:E.
  destruct (SwapLink_never_drops _ _ _ _ _ _ _ _ _ E) as (_ & _ & H & _).
  vm_compute in E. inv E. do 2 eexists. split; [reflexivity|].
  split; [reflexivity|exact H].
Defined.

(** X5 ([push], then [PopPart] of every component).  On a stack without an
    emptied tail entry, pushing a link of an open directory and then
    popping the link's components in order gives back the stack as it was,
    without an error, and closes the duplicate: every handle is where it
    was before the push. *)
Theorem push_then_pop_restores :
  forall w s d rem target l,
    world_ok w ->
    OS.handle_loc w d = Some l ->
    trailing_empty s = [] ->
    exists w1 s1 w2,
      SymlinkStack.push w s d rem target = (w1, s1, None)
      /\ pop_parts w1 s1 (components target) = (w2, s, None)
      /\ (forall h, OS.handle_loc w2 h = OS.handle_loc w h).
Proof.
  intros w s d rem target l OK HL T.
  destruct (SymlinkStack.push w s d rem target) as [[w1 s1] r] eqn:E.
  apply push_cases in E. destruct E as [(E & -> & -> & ->)|(NE & E)].
  - rewrite E. exists w, s, w. auto.
  - rewrite HL in E. destruct E as (-> & -> & ->).
    do 3 eexists. split; [reflexivity|].
    rewrite pop_parts_tail by assumption. split; [reflexivity|].
    intros h. rewrite loc_Close, loc_alloc, next_emit, loc_emit.
    destruct (Nat.eqb_spec h (next_handle w)) as [->|N].
    + destruct (OS.handle_loc w (next_handle w)) as [l'|] eqn:EL; [|reflexivity].
      apply (loc_open_lt _ _ _ OK) in EL. lia.
    + destruct (Nat.eqb_spec (next_handle w) h); [congruence|reflexivity].
Qed.

Lemma push_then_pop_restores_witness :
  exists w1 s1 w2,
    SymlinkStack.push (Examples.world_r []) [] 0 "a/x" "b//c/" = (w1, s1, None)
    /\ pop_parts w1 s1 ["b"; "c"] = (w2, [], None)
    /\ OS.handle_loc w2 1 = None.
Proof.
  assert (OK : world_ok (Examples.world_r [])).
  { intros h l [I|[]]. inv I. simpl. lia. }
  destruct (push_then_pop_restores (Examples.world_r []) [] 0 "a/x" "b//c/" ["r"]
              OK eq_refl eq_refl) as (w1 & s1 & w2 & H1 & H2 & H3).
  exists w1, s1, w2. split; [exact H1|]. split; [exact H2|]. apply H3.
Defined.

(** X6 (the oldest entry).  On a non-empty stack, neither [SwapLink] nor
    [PopPart] changes what [PopTopSymlink] would report, the directory and
    remaining path saved by the oldest entry, for as long as the stack is
    not emptied. *)
Theorem front_entry_stable :
  forall w s part w' s' r,
    s <> [] ->
    (forall d rem target,
       SymlinkStack.SwapLink w s part d rem target = (w', s', r) ->
       snd (SymlinkStack.PopTopSymlink s') = snd (SymlinkStack.PopTopSymlink s))
    /\ (SymlinkStack.PopPart w s part = (w', s', r) ->
        s' <> [] ->
        snd (SymlinkStack.PopTopSymlink s') = snd (SymlinkStack.PopTopSymlink s)).
Proof.
  intros w s part w' s' r NE. rewrite !PopTopSymlink_front. split.
  - intros d rem target H. apply SwapLink_cases in H.
    destruct H as [(err & _ & -> & _)|(s1 & HS & H)]; [reflexivity|].
    destruct HS as [[-> _]|(s0 & e & u & -> & _ & ->)]; [contradiction|].
    rewrite <- (front_consume s0 e).
    apply push_cases in H. destruct H as [(_ & _ & -> & _)|[_ H]]; [reflexivity|].
    destruct (OS.handle_loc w d); destruct H as (_ & -> & _); [|reflexivity].
    rewrite hd_error_app_ne; [reflexivity|]. destruct s0; discriminate.
  - intros H N. apply PopPart_cases in H.
    destruct H as [(-> & _)|[(s0 & e & u & -> & _ & -> & _)|(err & _ & -> & _)]];
      [contradiction| |reflexivity].
    rewrite hd_without_trailing_empty by exact N. apply front_consume.
Qed.

Lemma front_entry_stable_witness :
  snd (SymlinkStack.PopTopSymlink
         (snd (fst (SymlinkStack.PopPart (Examples.world_r [])
                      [mkEntry 5 "a/x" ["b"; "c"]; mkEntry 6 "b/c/x" ["d"]] "d"))))
  = Some (5, "a/x").
Proof.
  destruct (SymlinkStack.PopPart (Examples.world_r [])
              [mkEntry 5 "a/x" ["b"; "c"]; mkEntry 6 "b/c/x" ["d"]] "d")
    as [[w' s'] r] eqn:E.
  destruct (front_entry_stable (Examples.world_r [])
              [mkEntry 5 "a/x" ["b"; "c"]; mkEntry 6 "b/c/x" ["d"]] "d" w' s' r
              ltac:(discriminate)) as [_ H].
  cbn [fst snd]. rewrite (H E); [reflexivity|].
  vm_compute in E. inv E. discriminate.
Defined.

(** X7 ([Close] of the stack).  Closing the stack logs one close for each
    entry, the oldest first, and nothing else; afterwards none of the
    stack's directories is open and every other handle is where it was.
    The tree and the handle counter are untouched. *)
Theorem stack_Close_closes_all :
  forall s w,
    log (SymlinkStack.Close w s) = log w ++ map (fun e => EvClose (dir e)) s
    /\ next_handle (SymlinkStack.Close w s) = next_handle w
    /\ host (SymlinkStack.Close w s) = host w
    /\ (forall h, In h (map dir s) ->
                  OS.handle_loc (SymlinkStack.Close w s) h = None)
    /\ (forall h, ~ In h (map dir s) ->
                  OS.handle_loc (SymlinkStack.Close w s) h = OS.handle_loc w h).
Proof.
  intros s w. rewrite SymlinkStack_Close_eq.
  split; [apply log_close_entries|]. split; [apply next_close_entries|].
  split; [apply (evolves_close_entries s w)|]. split.
  - intros h I. rewrite loc_close_entries.
    apply existsb_eqb_In in I. now rewrite I.
  - intros h NI. rewrite loc_close_entries.
    destruct (existsb (Nat.eqb h) (map dir s)) eqn:E; [|reflexivity].
    apply existsb_eqb_In in E. contradiction.
Qed.

(* ================================================================== *)
(** ** The handles a call leaves open *)
(* ================================================================== *)

Section OpenFacts.

Implicit Types (w : World) (h d n : Handle) (s : symlinkStack).

Lemma open_emit ev w h : is_open (OS.emit ev w) h -> is_open w h.
Proof. auto. Qed.

Lemma open_alloc w l h :
  is_open (fst (OS.alloc w l)) h -> is_open w h \/ h = next_handle w.
Proof.
  unfold is_open. rewrite loc_alloc.
  destruct (Nat.eqb_spec (next_handle w) h); auto.
Qed.

Lemma open_Close w c h : is_open (OS.Close w c) h -> is_open w h /\ h <> c.
Proof.
  unfold is_open. rewrite loc_Close.
  destruct (Nat.eqb_spec h c); [congruence|auto].
Qed.

Lemma open_close_entries es w h :
  is_open (close_entries w es) h -> is_open w h /\ ~ In h (map dir es).
Proof.
  unfold is_open. rewrite loc_close_entries.
  destruct (existsb (Nat.eqb h) (map dir es)) eqn:E; [congruence|].
  intros O. split; [exact O|]. intros I. apply existsb_eqb_In in I. congruence.
Qed.

Lemma dupFile_open w d w' r h :
  OS.dupFile w d = (w', r) -> is_open w' h -> is_open w h \/ r = inr h.
Proof.
  rewrite dupFile_eq. destruct (OS.handle_loc w d) as [l|]; intros H O; inv H.
  - apply open_alloc in O. destruct O as [O| ->]; auto.
  - auto.
Qed.

Lemma openatFile_open w d name w' r h :
  OS.openatFile w d name = (w', r) -> is_open w' h -> is_open w h \/ r = inr h.
Proof.
  rewrite openatFile_eq. destruct (open_target w d name) as [e|l];
    intros H O; inv H.
  - auto.
  - apply open_alloc in O. destruct O as [O| ->]; auto.
Qed.

Lemma Stat_open w d w' r h :
  OS.Stat w d = (w', r) -> is_open w' h -> is_open w h.
Proof.
  intros H. pose proof (Stat_world w d) as E. rewrite H in E. simpl in E.
  now subst.
Qed.

Lemma readlinkatFile_open w d name w' r h :
  OS.readlinkatFile w d name = (w', r) -> is_open w' h -> is_open w h.
Proof.
  intros H. pose proof (readlinkatFile_world w d name) as E. rewrite H in E.
  simpl in E. now subst.
Qed.

Lemma checkProcSelfFdPath_open w p d w' r h :
  OS.checkProcSelfFdPath w p d = (w', r) -> is_open w' h -> is_open w h.
Proof.
  intros H. pose proof (checkProcSelfFdPath_world w p d) as E. rewrite H in E.
  simpl in E. now subst.
Qed.

(** What [PopPart] leaves open was open, and a directory of the stack
    that is still open is still in the stack. *)
Lemma PopPart_open w s part w' s' r h :
  SymlinkStack.PopPart w s part = (w', s', r) ->
  is_open w' h ->
  is_open w h /\ (In h (map dir s) -> In h (map dir s')).
Proof.
  intros H O. apply PopPart_cases in H.
  destruct H as [(-> & -> & -> & _)|[(s0 & e & u & -> & EU & -> & -> & _)|
                 (err & _ & -> & -> & _)]]; auto.
  apply open_close_entries in O. destruct O as [O NI]. split; [exact O|].
  rewrite <- map_dir_consume.
  rewrite (split_trailing_empty (s0 ++ [consume_head e])) at 1.
  rewrite map_app, map_rev. intros I. apply in_app_or in I.
  destruct I as [I|I]; [exact I|]. apply in_rev in I. contradiction.
Qed.

Lemma SwapLink_open w s part d rem target w' s' r h :
  SymlinkStack.SwapLink w s part d rem target = (w', s', r) ->
  is_open w' h ->
  (is_open w h \/ In h (map dir s'))
  /\ (In h (map dir s) -> In h (map dir s')).
Proof.
  intros H O. apply SwapLink_cases in H.
  destruct H as [(err & _ & -> & -> & _)|(s1 & HS & H)]; [auto|].
  assert (E1 : map dir s1 = map dir s).
  { destruct HS as [[-> ->]|(s0 & e & u & -> & _ & ->)]; [reflexivity|].
    apply map_dir_consume. }
  rewrite <- E1. apply push_cases in H.
  destruct H as [(_ & -> & -> & _)|[_ H]]; [auto|].
  destruct (OS.handle_loc w d) as [l|]; destruct H as (-> & -> & _); [|auto].
  rewrite map_app. split; [|intros I; apply in_or_app; auto].
  apply open_alloc in O.
  destruct O as [O| ->]; [auto|]. right. apply in_or_app. right. simpl. auto.
Qed.

End OpenFacts.

(** Trace an open handle of a later world back through the calls found
    among the hypotheses. *)
Ltac back O :=
  repeat first
    [ match type of O with
      | is_open (OS.Close _ _) _ =>
          let N := fresh "N" in
          apply open_Close in O; destruct O as [O N]
      | is_open ?w' _ =>
          match goal with
          | H : OS.openatFile _ _ _ = (w', _) |- _ =>
              apply (openatFile_open _ _ _ _ _ _ H) in O
          | H : OS.dupFile _ _ = (w', _) |- _ =>
              apply (dupFile_open _ _ _ _ _ H) in O
          | H : OS.Stat _ _ = (w', _) |- _ =>
              apply (Stat_open _ _ _ _ _ H) in O
          | H : OS.readlinkatFile _ _ _ = (w', _) |- _ =>
              apply (readlinkatFile_open _ _ _ _ _ _ H) in O
          | H : OS.checkProcSelfFdPath _ _ _ = (w', _) |- _ =>
              apply (checkProcSelfFdPath_open _ _ _ _ _ _ H) in O
          | H : SymlinkStack.PopPart _ _ _ = (w', _, _) |- _ =>
              let K := fresh "K" in
              apply (PopPart_open _ _ _ _ _ _ _ H) in O; destruct O as [O K]
          | H : SymlinkStack.SwapLink _ _ _ _ _ _ = (w', _, _) |- _ =>
              let K := fresh "K" in
              apply (SwapLink_open _ _ _ _ _ _ _ _ _ _ H) in O;
              destruct O as [O K]
          end
      | _ \/ _ => destruct O as [O|O]
      end ].

Section BodyTidy.

Variable maxSymlinkLimit : nat.
Variable root : Handle.
Variable unsafePath : string.
Variable logicalRootPath : string.
Variable n0 : Handle.

Local Abbreviation body := (loop_body maxSymlinkLimit root unsafePath logicalRootPath).
Local Abbreviation walk := (loop maxSymlinkLimit root unsafePath logicalRootPath).

Lemma body_tidy_continue w st w' st' :
  tidy n0 w (held st) ->
  body w st = (w', Continue st') ->
  tidy n0 w' (held st').
Proof.
  intros T H. unfold loop_body in H.
  destruct (next_part (Walk.remainingPath st)) as [part rest] eqn:EP.
  destruct (String.eqb_spec part "") as [->|N].
  { inv H. exact T. }
  repeat (break_match_hyp H; try discriminate); subst; inv H.
  all: intros hx B O; back O.
  all: unfold held in *; cbn [Walk.currentDir Walk.symlinkStack] in *.
  all: try (apply (T hx B) in O).
  all: cbn [In] in *; intuition congruence.
Qed.

Lemma body_tidy_return w st w' st' res :
  tidy n0 w (held st) ->
  body w st = (w', Return st' res) ->
  tidy_result n0 w' st' res.
Proof.
  intros T H. unfold loop_body in H.
  destruct (next_part (Walk.remainingPath st)) as [part rest] eqn:EP.
  destruct (String.eqb_spec part "") as [->|N]; [discriminate|].
  repeat (break_match_hyp H; try discriminate); subst; inv H.
  all: repeat match goal with
    | E : SymlinkStack.PopTopSymlink _ = _ |- _ =>
        apply PopTopSymlink_cases in E;
        destruct E as [(? & ? & ?)|(? & ? & ?)]; subst; try discriminate
    | E : Some _ = Some _ |- _ => inv E
    end.
  all: unfold tidy_result.
  all: lazymatch goal with
    | |- tidy _ _ _ => idtac
    | HO : OS.openatFile _ _ _ = (_, inr ?n),
      HS : OS.Stat _ ?n = (_, inr ModeOther) |- _ =>
        exists [n]; split; [|split; [simpl; lia|]]
    | |- _ => exists []; split; [|split; [simpl; lia|intros NE; now destruct NE]]
    end.
  all: try (intros hx B O; back O).
  all: unfold held in *; cbn [Walk.currentDir Walk.symlinkStack app map] in *.
  all: try (apply (T hx B) in O).
  all: try match goal with
    | E : Walk.symlinkStack _ = _ |- _ => rewrite E in *
    end.
  all: try solve [cbn [In map] in *; intuition congruence].
  intros _. eexists. split; [reflexivity|].
  match goal with
  | HP : SymlinkStack.PopPart _ _ _ = (_, _, Some _) |- _ =>
      apply PopPart_cases in HP;
      destruct HP as [(_ & _ & _ & HP)|[(? & ? & ? & _ & _ & _ & _ & HP)|
                      (err & _ & _ & _ & HP & HB)]];
      try discriminate HP; inv HP; exact HB
  end.
Qed.

End BodyTidy.

Section LoopTidy.

Variable maxSymlinkLimit : nat.
Variable root : Handle.
Variable unsafePath : string.
Variable logicalRootPath : string.
Variable n0 : Handle.

Local Abbreviation walk := (loop maxSymlinkLimit root unsafePath logicalRootPath).

Lemma loop_tidy fuel : forall w st w' st' res,
  tidy n0 w (held st) ->
  walk fuel w st = Some (w', st', res) ->
  tidy_result n0 w' st' res.
Proof.
  induction fuel as [|fuel IH]; intros w st w' st' res T H; [discriminate|].
  rewrite loop_unfold in H.
  destruct (Walk.remainingPath st =? "")%string.
  - inv H. exact T.
  - destruct (loop_body _ _ _ _ w st) as [w1 [st1|st1 res1]] eqn:EB.
    + eapply IH; [|exact H]. eapply body_tidy_continue; eauto.
    + inv H. eapply body_tidy_return; eauto.
Qed.

End LoopTidy.

(** What the deferred calls leave open of the handles from [n0] on. *)
Lemma deferred_tidy n0 w st res :
  tidy_result n0 w st res ->
  match res with
  | inr (h, _) => tidy n0 (deferred w st res) [h]
  | inl err =>
      exists extra,
        tidy n0 (deferred w st res) extra
        /\ length extra <= 1
        /\ (extra <> [] ->
            exists e, err = Wrap "walking into non-directory failed" e
                      /\ errors_Is e errBrokenSymlinkStack = true)
  end.
Proof.
  unfold deferred, tidy_result. rewrite SymlinkStack_Close_eq.
  destruct res as [err|[h rem]].
  - intros (extra & T & L & E). exists extra. split; [|auto].
    intros x B O. apply open_Close in O. destruct O as [O N].
    apply open_close_entries in O. destruct O as [O NI].
    apply (T x B) in O. apply in_app_or in O. unfold held in O. simpl in O.
    intuition congruence.
  - intros T x B O. apply open_close_entries in O. destruct O as [O NI].
    apply (T x B) in O. simpl in *. intuition.
Qed.

(** The handles the whole call leaves open, of those it created. *)
Lemma partialLookupInRoot_tidy limit fuel w root path w' res :
  world_ok w ->
  partialLookupInRoot limit fuel w root path = Some (w', res) ->
  match res with
  | inr (h, _) => tidy (next_handle w) w' [h]
  | inl err =>
      exists extra,
        tidy (next_handle w) w' extra
        /\ length extra <= 1
        /\ (extra <> [] ->
            exists e, err = Wrap "walking into non-directory failed" e
                      /\ errors_Is e errBrokenSymlinkStack = true)
  end.
Proof.
  intros OK H.
  assert (T0 : tidy (next_handle w) w []).
  { intros h B O. unfold is_open in O.
    destruct (OS.handle_loc w h) as [l|] eqn:E; [|congruence].
    apply (loc_open_lt _ _ _ OK) in E. lia. }
  unfold partialLookupInRoot in H.
  pose proof (procSelfFdReadlink_world w root) as EW.
  destruct (OS.procSelfFdReadlink w root) as [w1 [err|lrp]] eqn:E1;
    simpl in EW; subst w1.
  { inv H. exists []. split; [|split; [simpl; lia|intros NE; now destruct NE]].
    exact T0. }
  destruct (OS.dupFile _ root) as [w2 [err|cur]] eqn:E2.
  { inv H. exists []. split; [|split; [simpl; lia|intros NE; now destruct NE]].
    intros h B O. apply (dupFile_open _ _ _ _ _ E2) in O.
    destruct O as [O|O]; [|discriminate]. exact (T0 h B O). }
  destruct (loop limit root path lrp fuel w2 _) as [[[w3 st] r]|] eqn:E3;
    [|discriminate].
  inv H. apply deferred_tidy. eapply loop_tidy; [|exact E3].
  intros h B O. apply (dupFile_open _ _ _ _ _ E2) in O. unfold held. simpl.
  destruct O as [O|O]; [exfalso; exact (T0 h B O)|]. inv O. auto.
Qed.

(** A returned handle is open in the world the call leaves, below the
    root. *)
Lemma lookup_result_loc limit fuel w root path rootLoc w' h rem :
  world_ok w ->
  OS.handle_loc w root = Some rootLoc ->
  partialLookupInRoot limit fuel w root path = Some (w', inr (h, rem)) ->
  exists sub, OS.handle_loc w' h = Some (rootLoc ++ sub).
Proof.
  intros OK HR H. unfold partialLookupInRoot in H.
  unfold OS.procSelfFdReadlink in H at 1. rewrite loc_emit, HR in H.
  rewrite dupFile_eq, loc_emit, HR in H.
  set (w2 := fst (OS.alloc (OS.emit (EvDup root)
                   (OS.emit (EvProcSelfFdReadlink root) w)) rootLoc)) in *.
  destruct (loop limit root path (OS.path_of_loc rootLoc) fuel w2 _)
    as [[[w3 st] res]|] eqn:EL; [|discriminate].
  inv H.
  change (next_handle (OS.emit (EvProcSelfFdReadlink root) w))
    with (next_handle w) in EL.
  assert (I : own_inv (next_handle w) root rootLoc w2
                (Walk.mk (next_handle w) [] 0 "" path)).
  { pose proof (loc_open_lt _ _ _ OK HR) as B.
    constructor; unfold held; simpl.
    - exact B.
    - unfold w2. rewrite loc_alloc, !next_emit, !loc_emit.
      destruct (Nat.eqb_spec (next_handle w) root); [lia|exact HR].
    - constructor; [intros []|constructor].
    - intros x [<-|[]]. lia.
    - unfold w2. rewrite loc_alloc, !next_emit, Nat.eqb_refl.
      now rewrite app_nil_r.
    - constructor.
    - intros x []. }
  destruct (loop_own _ _ _ _ _ _ _ _ _ _ _ _ I EL h rem eq_refl)
    as (B & NI & BS & l & HL & [sub ->]).
  exists sub. unfold deferred. rewrite SymlinkStack_Close_eq.
  rewrite (evolves_loc _ _ _ _ (evolves_close_entries _ w3)); auto.
Qed.

Lemma success_root_open limit fuel w root path w' r :
  partialLookupInRoot limit fuel w root path = Some (w', inr r) ->
  exists rootLoc, OS.handle_loc w root = Some rootLoc.
Proof.
  unfold partialLookupInRoot, OS.procSelfFdReadlink. rewrite loc_emit.
  destruct (OS.handle_loc w root) as [l|]; [eauto|discriminate].
Qed.

(** X8 (open files after success).  In a world whose open files all came
    from the allocator, a call that returns a handle leaves open exactly
    the files that were open before, each where it was, and the returned
    handle, which is a new one: every other handle the call created, the
    duplicates of the root, the components it walked through and the
    directories parked in the stack, has been closed. *)
Theorem success_leaves_one_handle :
  forall limit fuel w root path w' h rem,
    world_ok w ->
    partialLookupInRoot limit fuel w root path = Some (w', inr (h, rem)) ->
    next_handle w <= h
    /\ OS.handle_loc w' h <> None
    /\ (forall x, x <> h -> OS.handle_loc w' x = OS.handle_loc w x).
Proof.
  intros limit fuel w root path w' h rem OK H.
  destruct (success_root_open _ _ _ _ _ _ _ H) as [rootLoc HR].
  destruct (lookup_result_loc _ _ _ _ _ _ _ _ _ OK HR H) as [sub HL].
  destruct (root_handle_facts _ _ _ _ _ _ _ OK H) as (_ & _ & _ & F & R).
  pose proof (partialLookupInRoot_tidy _ _ _ _ _ _ _ OK H) as T.
  cbn beta iota in T.
  split; [apply (R h rem eq_refl)|]. split; [congruence|].
  intros x N. destruct (Nat.lt_ge_cases x (next_handle w)) as [B|B]; [auto|].
  destruct (OS.handle_loc w' x) as [l|] eqn:E1.
  - exfalso. destruct (T x B) as [->|[]]; [unfold is_open; congruence|].
    now apply N.
  - destruct (OS.handle_loc w x) as [l|] eqn:E2; [|reflexivity].
    apply (loc_open_lt _ _ _ OK) in E2. lia.
Qed.

Lemma success_leaves_one_handle_witness :
  exists w' h,
    partialLookupInRoot 255 4 Examples.tail_chain 0 "a/extra"
      = Some (w', inr (h, "extra"))
    /\ 1 <= h
    /\ (forall x, x <> h -> OS.handle_loc w' x = OS.handle_loc Examples.tail_chain x).
Proof.
  destruct (partialLookupInRoot 255 4 Examples.tail_chain 0 "a/extra")
    as [[w' [err|[h rem]]]|] eqn:E; try (vm_compute in E; discriminate).
  assert (OK : world_ok Examples.tail_chain).
  { intros x l [I|[]]. inv I. simpl. lia. }
  destruct (success_leaves_one_handle 255 4 Examples.tail_chain 0 "a/extra"
              w' h rem OK E) as (H1 & _ & H3).
  assert (R : rem = "extra") by (vm_compute in E; now inv E).
  subst rem. exists w', h. split; [reflexivity|]. split; [exact H1|exact H3].
Defined.

(** X9 (open files after an error).  In a world whose open files all came
    from the allocator, a call that returns an error leaves every file
    that was open before where it was, and leaves open at most one handle
    of its own; it leaves one only when the error is the failure to pop a
    component that turned out to be neither a directory nor a symlink,
    which is a broken-symlink-stack error. *)
Theorem error_leaves_at_most_one_handle :
  forall limit fuel w root path w' err,
    world_ok w ->
    partialLookupInRoot limit fuel w root path = Some (w', inl err) ->
    (forall x, x < next_handle w -> OS.handle_loc w' x = OS.handle_loc w x)
    /\ (forall x y, next_handle w <= x -> next_handle w <= y ->
                    OS.handle_loc w' x <> None -> OS.handle_loc w' y <> None ->
                    x = y)
    /\ (forall x, next_handle w <= x -> OS.handle_loc w' x <> None ->
          exists e, err = Wrap "walking into non-directory failed" e
                    /\ errors_Is e errBrokenSymlinkStack = true).
Proof.
  intros limit fuel w root path w' err OK H.
  destruct (root_handle_facts _ _ _ _ _ _ _ OK H) as (_ & _ & _ & F & _).
  destruct (partialLookupInRoot_tidy _ _ _ _ _ _ _ OK H) as (extra & T & L & E).
  split; [exact F|]. split.
  - intros x y Bx By Ox Oy. apply (T x Bx) in Ox. apply (T y By) in Oy.
    destruct extra as [|a [|b extra]]; simpl in *; [contradiction| |lia].
    destruct Ox as [<-|[]]. destruct Oy as [<-|[]]. reflexivity.
  - intros x B O. apply E. apply (T x B) in O. intros ->. exact O.
Qed.

Lemma error_leaves_at_most_one_handle_witness :
  exists w' e,
    partialLookupInRoot 255 8 Examples.link_to_root 0 "a/x"
      = Some (w', inl (Wrap "walking into non-directory failed" e))
    /\ OS.handle_loc w' 6 <> None
    /\ (forall y, 1 <= y -> OS.handle_loc w' y <> None -> 6 = y).
Proof.
  destruct (partialLookupInRoot 255 8 Examples.link_to_root 0 "a/x")
    as [[w' [err|r]]|] eqn:E; try (vm_compute in E; discriminate).
  assert (OK : world_ok Examples.link_to_root).
  { intros x l [I|[]]. inv I. simpl. lia. }
  destruct (error_leaves_at_most_one_handle 255 8 Examples.link_to_root 0 "a/x"
              w' err OK E) as (_ & H2 & H3).
  assert (O : OS.handle_loc w' 6 <> None) by (vm_compute in E; now inv E).
  destruct (H3 6 ltac:(simpl; lia) O) as (e & -> & _).
  exists w', e. split; [reflexivity|]. split; [exact O|].
  intros y B Oy. apply H2; auto. simpl. lia.
Defined.

(* ================================================================== *)
(** ** What the call does with handles *)
(* ================================================================== *)

Section BodyEvents.

Variable maxSymlinkLimit : nat.
Variable root : Handle.
Variable unsafePath : string.
Variable logicalRootPath : string.
Variable n0 : Handle.

Local Abbreviation body := (loop_body maxSymlinkLimit root unsafePath logicalRootPath).
Local Abbreviation walk := (loop maxSymlinkLimit root unsafePath logicalRootPath).

Lemma Forall_closes (es : list symlinkStackEntry) (hs : list Handle) :
  incl (map dir es) hs -> (forall h, In h hs -> n0 <= h) ->
  Forall (own_event root n0) (map (fun e => EvClose (dir e)) es).
Proof.
  intros I B. apply Forall_forall. intros ev J. apply in_map_iff in J.
  destruct J as (e & <- & J). simpl. apply B, I, in_map. exact J.
Qed.

Lemma body_events w st w' step :
  (forall h, In h (held st) -> n0 <= h) ->
  n0 <= next_handle w ->
  body w st = (w', step) ->
  Forall (own_event root n0) (new_events w w').
Proof.
  intros BD BN H. unfold loop_body in H.
  destruct (next_part (Walk.remainingPath st)) as [part rest] eqn:EP.
  pose proof (proj1 (next_part_cases _ _ _ EP)) as NS.
  destruct (String.eqb_spec part "") as [->|N].
  { inv H. rewrite new_events_self. constructor. }
  assert (Bcur : n0 <= Walk.currentDir st) by (apply BD; left; reflexivity).
  assert (Bst : forall x, In x (map dir (Walk.symlinkStack st)) -> n0 <= x)
    by (intros x I; apply BD; right; exact I).
  repeat (break_match_hyp H; try discriminate); subst; inv H;
    learn_logs.
  all: match goal with
       | |- context [new_events ?a ?b] =>
           let E := fresh "E" in
           eassert (E : log b = log a ++ _) by (unfold_logs; reflexivity);
           rewrite (new_events_ext _ _ _ E); clear E
       end.
  all: learn_ev.
  all: unfold allocated in *;
    repeat match goal with
    | A : _ /\ _ |- _ => destruct A
    end.
  all: learn_next.
  all: rewrite ?next_Close in *.
  all: repeat first
    [ apply Forall_nil
    | apply Forall_cons
    | apply Forall_app; split
    | eapply Forall_closes; [eassumption|exact Bst] ].
  all: cbn [own_event]; subst.
  all: try solve [auto | lia | right; lia | left; reflexivity].
Qed.

End BodyEvents.

Lemma evolves_log w w' c : evolves w w' c -> exists evs, log w' = log w ++ evs.
Proof.
  intros (_ & _ & _ & evs & E & _). eauto.
Qed.

Lemma new_events_trans w w1 w2 c1 c2 :
  evolves w w1 c1 -> evolves w1 w2 c2 ->
  new_events w w2 = new_events w w1 ++ new_events w1 w2.
Proof.
  intros V1 V2. destruct (evolves_log _ _ _ V1) as [e1 E1].
  destruct (evolves_log _ _ _ V2) as [e2 E2].
  rewrite (new_events_ext _ _ _ E1), (new_events_ext _ _ _ E2).
  apply new_events_ext. now rewrite E2, E1, app_assoc.
Qed.

Section LoopEvents.

Variable maxSymlinkLimit : nat.
Variable root : Handle.
Variable unsafePath : string.
Variable logicalRootPath : string.
Variable n0 : Handle.

Local Abbreviation walk := (loop maxSymlinkLimit root unsafePath logicalRootPath).

Lemma loop_events fuel : forall w st w' st' res,
  (forall h, In h (held st) -> n0 <= h) ->
  n0 <= next_handle w ->
  walk fuel w st = Some (w', st', res) ->
  Forall (own_event root n0) (new_events w w')
  /\ (forall h, In h (held st') -> n0 <= h).
Proof.
  induction fuel as [|fuel IH]; intros w st w' st' res BD BN H; [discriminate|].
  rewrite loop_unfold in H.
  destruct (Walk.remainingPath st =? "")%string.
  - inv H. rewrite new_events_self. split; [constructor|exact BD].
  - destruct (loop_body _ _ _ _ w st) as [w1 [st1|st1 res1]] eqn:EB;
      pose proof (body_events _ _ _ _ _ _ _ _ _ BD BN EB) as F1;
      destruct (body_evolves _ _ _ _ _ _ _ _ EB) as (c1 & V1 & _ & H1 & _);
      cbn [state_of] in H1;
      assert (BD1 : forall h, In h (held st1) -> n0 <= h)
        by (intros h I; destruct (H1 h I) as [J|J]; [auto|lia]).
    + pose proof (proj1 (proj2 V1)) as N1.
      assert (BN1 : n0 <= next_handle w1) by lia.
      destruct (IH _ _ _ _ _ BD1 BN1 H) as [F2 BD2].
      destruct (loop_evolves _ _ _ _ _ _ _ _ _ _ H) as (c2 & V2 & _).
      rewrite (new_events_trans _ _ _ _ _ V1 V2).
      split; [apply Forall_app; auto|exact BD2].
    + inv H. auto.
Qed.

End LoopEvents.

(** X10 (what the call does with handles).  Every operation the call
    logs keeps to this: the path query is on the root; a duplication or a
    path check is on the root or on a handle the call created; and every
    open of a component, read of a link, stat and close is on a handle the
    call created, never on the root or another handle of the caller, with
    a component that is a single non-empty name without a slash. *)
Theorem lookup_events_discipline :
  forall limit fuel w root path w' res,
    partialLookupInRoot limit fuel w root path = Some (w', res) ->
    Forall (own_event root (next_handle w)) (new_events w w').
Proof.
  intros limit fuel w root path w' res H. unfold partialLookupInRoot in H.
  pose proof (procSelfFdReadlink_world w root) as EW.
  destruct (OS.procSelfFdReadlink w root) as [w1 [err|lrp]] eqn:E1;
    simpl in EW; subst w1.
  { inv H. rewrite (new_events_ext w (OS.emit (EvProcSelfFdReadlink root) w)
                      [EvProcSelfFdReadlink root] eq_refl).
    repeat constructor. }
  destruct (OS.dupFile _ root) as [w2 [err|cur]] eqn:E2.
  { inv H. apply dupFile_log in E2.
    rewrite (new_events_ext _ _ [EvProcSelfFdReadlink root; EvDup root]).
    - repeat constructor.
    - rewrite E2. simpl. now rewrite <- app_assoc. }
  destruct (dupFile_ok _ _ _ _ E2) as (l & T & A1 & A2 & A3 & V2).
  pose proof (dupFile_log _ _ _ _ E2) as L2. simpl in A1, L2.
  assert (BD0 : forall h, In h (held (Walk.mk cur [] 0 "" path)) ->
                          next_handle w <= h)
    by (intros h [<-|[]]; simpl; lia).
  assert (BN0 : next_handle w <= next_handle w2) by (simpl in *; lia).
  destruct (loop limit root path lrp fuel w2 _) as [[[w3 st] r]|] eqn:E3;
    [|discriminate].
  inv H.
  destruct (loop_events limit root path lrp (next_handle w) fuel _ _ _ _ _
              BD0 BN0 E3) as [F3 BD].
  destruct (loop_evolves _ _ _ _ _ _ _ _ _ _ E3) as (c3 & V3 & _).
  destruct (evolves_log _ _ _ V3) as [e3 L3].
  rewrite (new_events_ext _ _ _ L3) in F3.
  assert (LD : log (deferred w3 st res) =
               log w ++ ([EvProcSelfFdReadlink root; EvDup root] ++ e3)
                     ++ map (fun e => EvClose (dir e)) (Walk.symlinkStack st)
                     ++ match res with
                        | inl _ => [EvClose (Walk.currentDir st)]
                        | inr _ => []
                        end).
  { unfold deferred. rewrite SymlinkStack_Close_eq.
    destruct res; rewrite ?log_Close, log_close_entries, L3, L2;
      simpl; rewrite <- ?app_assoc; simpl; rewrite ?app_nil_r; reflexivity. }
  rewrite (new_events_ext _ _ _ LD).
  repeat (apply Forall_app; split).
  - repeat constructor.
  - exact F3.
  - eapply Forall_closes; [apply incl_refl|].
    intros h I. apply BD. right. exact I.
  - destruct res; repeat constructor. simpl. apply BD. left. reflexivity.
Qed.

Lemma lookup_events_discipline_witness :
  exists w' res,
    partialLookupInRoot 255 8 Examples.escape 0 "evil/../x" = Some (w', res)
    /\ Forall (own_event 0 1) (new_events Examples.escape w').
Proof.
  destruct (partialLookupInRoot 255 8 Examples.escape 0 "evil/../x")
    as [[w' res]|] eqn:E; [|vm_compute in E; discriminate].
  exists w', res. split; [reflexivity|].
  exact (lookup_events_discipline 255 8 Examples.escape 0 "evil/../x" w' res E).
Defined.

Lemma links_read_app a b : links_read (a ++ b) = links_read a + links_read b.
Proof.
  unfold links_read. now rewrite filter_app, length_app.
Qed.

Lemma filter_readlinkat_closes (es : list symlinkStackEntry) :
  filter is_readlinkat (map (fun e => EvClose (dir e)) es) = [].
Proof.
  induction es; simpl; auto.
Qed.

Lemma links_read_closes (es : list symlinkStackEntry) :
  links_read (map (fun e => EvClose (dir e)) es) = 0.
Proof.
  unfold links_read. now rewrite filter_readlinkat_closes.
Qed.

Section BodyLinks.

Variable maxSymlinkLimit : nat.
Variable root : Handle.
Variable unsafePath : string.
Variable logicalRootPath : string.

Local Abbreviation body := (loop_body maxSymlinkLimit root unsafePath logicalRootPath).
Local Abbreviation walk := (loop maxSymlinkLimit root unsafePath logicalRootPath).

(** One iteration reads at most one link, and counts the link it reads
    when it goes on. *)
Lemma body_links w st w' step :
  body w st = (w', step) ->
  links_read (new_events w w') <= 1
  /\ (forall st', step = Continue st' ->
        links_read (new_events w w') + Walk.linksWalked st = Walk.linksWalked st'
        /\ (links_read (new_events w w') = 1 ->
            Walk.linksWalked st' <= maxSymlinkLimit)).
Proof.
  intros H. unfold loop_body in H.
  destruct (next_part (Walk.remainingPath st)) as [part rest] eqn:EP.
  destruct (String.eqb_spec part "") as [->|N].
  { inv H. rewrite new_events_self. unfold links_read. simpl. split; [lia|].
    intros st' E. inv E. simpl. split; [reflexivity|discriminate]. }
  repeat (break_match_hyp H; try discriminate); subst; inv H;
    learn_logs.
  all: match goal with
       | |- context [new_events ?a ?b] =>
           let E := fresh "E" in
           eassert (E : log b = log a ++ _) by (unfold_logs; reflexivity);
           rewrite (new_events_ext _ _ _ E); clear E
       end.
  all: unfold links_read;
    repeat (progress (cbn [filter is_readlinkat length app Nat.add];
                      rewrite ?filter_app, ?length_app,
                        ?filter_readlinkat_closes)).
  all: split; [lia|].
  all: intros st' E; inv E; cbn [Walk.linksWalked].
  all: try match goal with
    | E : Nat.ltb _ _ = false |- _ => apply Nat.ltb_ge in E
    end.
  all: try (split; [lia|intros; lia]).
Qed.

Lemma loop_links fuel : forall w st w' st' res,
  Walk.linksWalked st <= maxSymlinkLimit ->
  walk fuel w st = Some (w', st', res) ->
  links_read (new_events w w') + Walk.linksWalked st <= maxSymlinkLimit + 1.
Proof.
  induction fuel as [|fuel IH]; intros w st w' st' res B H; [discriminate|].
  rewrite loop_unfold in H.
  destruct (Walk.remainingPath st =? "")%string.
  - inv H. rewrite new_events_self. unfold links_read. simpl. lia.
  - destruct (loop_body _ _ _ _ w st) as [w1 [st1|st1 res1]] eqn:EB;
      destruct (body_links _ _ _ _ EB) as [L1 C1].
    + destruct (C1 st1 eq_refl) as [C2 C3].
      destruct (body_evolves _ _ _ _ _ _ _ _ EB) as (c1 & V1 & _).
      destruct (loop_evolves _ _ _ _ _ _ _ _ _ _ H) as (c2 & V2 & _).
      rewrite (new_events_trans _ _ _ _ _ V1 V2), links_read_app.
      assert (B1 : Walk.linksWalked st1 <= maxSymlinkLimit) by lia.
      specialize (IH _ _ _ _ _ B1 H). lia.
    + inv H. lia.
Qed.

End BodyLinks.

(* ================================================================== *)
(** ** The symlink counter *)
(* ================================================================== *)

Section ErrorShapes.

Implicit Types (w : World) (s : symlinkStack).

(** What [openatFile] fails with is an error number of the system. *)
Lemma openatFile_err_shape w d part w' err :
  OS.openatFile w d part = (w', inl err) -> exists x, err = Base (Sys x).
Proof.
  rewrite openatFile_eq. unfold open_target.
  destruct (OS.handle_loc w d) as [l|]; [|intros H; inv H; eauto].
  destruct (OS.lookup (host w) l) as [[es|t|]|];
    try (intros H; inv H; eauto; fail).
  destruct (part =? ".")%string; [discriminate|].
  destruct (part =? "..")%string; [discriminate|].
  destruct (OS.find_entry part es); intros H; inv H; eauto.
Qed.

Lemma readlinkatFile_err_shape w d name w' err :
  OS.readlinkatFile w d name = (w', inl err) -> exists x, err = Base (Sys x).
Proof.
  unfold OS.readlinkatFile.
  destruct (OS.handle_loc _ d) as [l|]; [|intros H; inv H; eauto].
  destruct (OS.lookup _ l) as [[es|t|]|];
    try (intros H; inv H; eauto; fail).
  destruct ((name =? ".")%string || (name =? "..")%string);
    [intros H; inv H; eauto|].
  destruct (OS.find_entry name es) as [[?|?|]|]; intros H; inv H; eauto.
Qed.

Lemma popPart_err_shape s part s' err :
  SymlinkStack.popPart s part = (s', Some err) ->
  err = Base errEmptyStack
  \/ exists msg, err = Wrap msg (Base errBrokenSymlinkStack).
Proof.
  unfold SymlinkStack.popPart. intros H.
  repeat (break_match_hyp H; try discriminate); inv H; eauto.
Qed.

Lemma PopPart_err_shape w s part w' s' err :
  SymlinkStack.PopPart w s part = (w', s', Some err) ->
  exists msg, err = Wrap msg (Base errBrokenSymlinkStack).
Proof.
  unfold SymlinkStack.PopPart.
  destruct (SymlinkStack.popPart s part) as [s1 [e1|]] eqn:E.
  - apply popPart_err_shape in E. destruct E as [->|[msg ->]]; simpl;
      intros H; inv H. eauto.
  - destruct (SymlinkStack.cleanup (length s1) w s1). intros H. inv H.
Qed.

Lemma SwapLink_err_shape w s part d rem target w' s' err :
  SymlinkStack.SwapLink w s part d rem target = (w', s', Some err) ->
  (exists msg, err = Wrap msg (Base errBrokenSymlinkStack))
  \/ err = Base (Sys EBADF).
Proof.
  unfold SymlinkStack.SwapLink.
  destruct (SymlinkStack.popPart s part) as [s1 r1] eqn:E.
  assert (P : forall s2, SymlinkStack.push w s2 d rem target = (w', s', Some err) ->
                         err = Base (Sys EBADF)).
  { intros s2 H. apply push_cases in H.
    destruct H as [(_ & _ & _ & H)|[_ H]]; [discriminate|].
    destruct (OS.handle_loc w d); destruct H as (_ & _ & H);
      [discriminate|now inv H]. }
  destruct r1 as [e1|]; [|eauto].
  apply popPart_err_shape in E. destruct E as [->|[msg ->]]; simpl; [eauto|].
  intros H. inv H. eauto.
Qed.

End ErrorShapes.

Section Counter.

Variable maxSymlinkLimit : nat.
Variable root : Handle.
Variable unsafePath : string.
Variable logicalRootPath : string.

Local Abbreviation body := (loop_body maxSymlinkLimit root unsafePath logicalRootPath).
Local Abbreviation walk := (loop maxSymlinkLimit root unsafePath logicalRootPath).
Local Abbreviation too_many :=
  (PathError "partialLookupInRoot" (logicalRootPath +++ "/" +++ unsafePath) ELOOP).

(** An iteration that opens a component, finds it to be a symlink and reads
    it counts it, whatever it does next; it ends with the link-limit error
    when the count has passed the limit, and with no such error when it has
    not. *)
Lemma body_symlink_counted w st part rest w1 nextDir w2 w3 linkDest :
  next_part (Walk.remainingPath st) = (part, rest) ->
  part <> "" ->
  Path.Join ["/"; Walk.currentPath st; part] <> "/" ->
  OS.openatFile w (Walk.currentDir st) part = (w1, inr nextDir) ->
  OS.Stat w1 nextDir = (w2, inr ModeSymlink) ->
  OS.readlinkatFile (OS.Close w2 nextDir) (Walk.currentDir st) part
    = (w3, inr linkDest) ->
  exists w' step,
    body w st = (w', step)
    /\ Walk.linksWalked (state_of step) = Walk.linksWalked st + 1
    /\ (maxSymlinkLimit < Walk.linksWalked st + 1 ->
        w' = w3 /\ exists st', step = Return st' (inl too_many))
    /\ (Walk.linksWalked st + 1 <= maxSymlinkLimit ->
        forall st' err, step = Return st' (inl err) ->
                        errors_Is err (Sys ELOOP) = false).
Proof.
  intros EP N NR HO HS HR. unfold loop_body. rewrite EP.
  destruct (String.eqb_spec part ""); [contradiction|].
  destruct (String.eqb_spec (Path.Join ["/"; Walk.currentPath st; part]) "/");
    [contradiction|].
  rewrite HO, HS, HR.
  destruct (Nat.ltb_spec maxSymlinkLimit (Walk.linksWalked st + 1)) as [L|L].
  { do 2 eexists. split; [reflexivity|]. split; [reflexivity|].
    split; [eauto|intros; lia]. }
  destruct (SymlinkStack.SwapLink w3 (Walk.symlinkStack st) part
              (Walk.currentDir st) (Walk.remainingPath st) linkDest)
    as [[w4 s4] [e4|]] eqn:ES.
  { do 2 eexists. split; [reflexivity|]. split; [reflexivity|].
    split; [intros; lia|]. intros _ st' err E. inv E.
    destruct (SwapLink_err_shape _ _ _ _ _ _ _ _ _ ES) as [[msg ->]| ->];
      reflexivity. }
  destruct (Path.IsAbs linkDest).
  - rewrite dupFile_eq. destruct (OS.handle_loc w4 root).
    + do 2 eexists. split; [reflexivity|]. split; [reflexivity|].
      split; [intros; lia|]. intros _ st' err E. discriminate E.
    + do 2 eexists. split; [reflexivity|]. split; [reflexivity|].
      split; [intros; lia|]. intros _ st' err E. inv E. reflexivity.
  - do 2 eexists. split; [reflexivity|]. split; [reflexivity|].
    split; [intros; lia|]. intros _ st' err E. discriminate E.
Qed.

(** The counter moves only in an iteration that reads a link, and then by
    one. *)
Lemma body_counts w st w' step :
  body w st = (w', step) ->
  links_read (new_events w w') <= 1
  /\ Walk.linksWalked st <= Walk.linksWalked (state_of step)
  /\ Walk.linksWalked (state_of step)
     <= Walk.linksWalked st + links_read (new_events w w')
  /\ (forall st', step = Continue st' ->
        Walk.linksWalked st'
        = Walk.linksWalked st + links_read (new_events w w')).
Proof.
  intros H. unfold loop_body in H.
  destruct (next_part (Walk.remainingPath st)) as [part rest] eqn:EP.
  destruct (String.eqb_spec part "") as [->|N].
  { inv H. rewrite new_events_self. unfold links_read. simpl.
    repeat split; try lia. intros st' E. inv E. simpl. lia. }
  repeat (break_match_hyp H; try discriminate); subst; inv H;
    learn_logs.
  all: match goal with
       | |- context [new_events ?a ?b] =>
           let E := fresh "E" in
           eassert (E : log b = log a ++ _) by (unfold_logs; reflexivity);
           rewrite (new_events_ext _ _ _ E); clear E
       end.
  all: unfold links_read;
    repeat (progress (cbn [filter is_readlinkat length app Nat.add];
                      rewrite ?filter_app, ?length_app,
                        ?filter_readlinkat_closes)).
  all: cbn [state_of Walk.linksWalked].
  all: split; [lia|]; split; [lia|]; split; [lia|].
  all: intros st' E; inv E; cbn [Walk.linksWalked]; lia.
Qed.

(** Only a counter past the limit ends an iteration with the link-limit
    error. *)
Lemma body_too_many w st w' st' :
  body w st = (w', Return st' (inl too_many)) ->
  maxSymlinkLimit < Walk.linksWalked st'.
Proof.
  intros H. unfold loop_body in H.
  repeat (break_match_hyp H; try discriminate); inv H.
  all: try match goal with
    | E : Nat.ltb _ _ = true |- _ => apply Nat.ltb_lt in E; exact E
    end.
  all: exfalso.
  all: match goal with
    | HO : OS.openatFile _ _ _ = (_, inl _) |- _ =>
        destruct (openatFile_err_shape _ _ _ _ _ HO); discriminate
    | HR : OS.readlinkatFile _ _ _ = (_, inl _) |- _ =>
        destruct (readlinkatFile_err_shape _ _ _ _ _ HR); discriminate
    end.
Qed.

Lemma loop_too_many fuel : forall w st w' st' res,
  Walk.linksWalked st <= maxSymlinkLimit ->
  walk fuel w st = Some (w', st', res) ->
  res = inl too_many -> maxSymlinkLimit < Walk.linksWalked st'.
Proof.
  induction fuel as [|fuel IH]; intros w st w' st' res B H R; [discriminate|].
  rewrite loop_unfold in H.
  destruct (String.eqb_spec (Walk.remainingPath st) "") as [E|N].
  - inv H. discriminate.
  - destruct (loop_body _ _ _ _ w st) as [w1 [st1|st1 res1]] eqn:EB.
    + apply (IH w1 st1 w' st' res); auto.
      destruct (continue_measure _ _ _ _ _ _ _ _ N EB) as [[L1 L2]|[L1 L2]]; lia.
    + inv H. eapply body_too_many; eauto.
Qed.

(** Over the whole loop the counter is the number of links read, less the
    one whose reading failed, if one did. *)
Lemma loop_counts fuel : forall w st w' st' res,
  walk fuel w st = Some (w', st', res) ->
  Walk.linksWalked st' <= Walk.linksWalked st + links_read (new_events w w')
  /\ Walk.linksWalked st + links_read (new_events w w')
     <= Walk.linksWalked st' + 1.
Proof.
  induction fuel as [|fuel IH]; intros w st w' st' res H; [discriminate|].
  rewrite loop_unfold in H.
  destruct (Walk.remainingPath st =? "")%string.
  - inv H. rewrite new_events_self. unfold links_read. simpl. lia.
  - destruct (loop_body _ _ _ _ w st) as [w1 [st1|st1 res1]] eqn:EB;
      destruct (body_counts _ _ _ _ EB) as (L1 & L2 & L3 & L4).
    + specialize (L4 st1 eq_refl).
      destruct (body_evolves _ _ _ _ _ _ _ _ EB) as (c1 & V1 & _).
      destruct (loop_evolves _ _ _ _ _ _ _ _ _ _ H) as (c2 & V2 & _).
      rewrite (new_events_trans _ _ _ _ _ V1 V2), links_read_app.
      specialize (IH _ _ _ _ _ H). lia.
    + inv H. simpl in L2, L3. lia.
Qed.

End Counter.

(** C6 (symlink limit).  The call always returns: some amount of fuel is
    enough, whatever the tree holds.  The counter starts at zero, and a step
    that continues either shortens the remaining path or has counted one
    more symlink without passing [maxSymlinkLimit].  Every symlink
    encountered is counted: an iteration that opens a component, finds it
    to be a symlink and reads its target ends with the counter one higher,
    with the [ELOOP] path error when that passes the limit and with no
    [ELOOP] error when it does not.  Nothing else is counted: an iteration
    calls [readlinkat] at most once, never lowers the counter, and raises
    it by at most the number of its [readlinkat] calls, by exactly that
    number when the loop goes on.  A loop that ends with the counter above
    the limit ends with the [ELOOP] path error that carries the root path
    and the request path, that error is returned in no other case, and the
    final counter is the number of [readlinkat] calls of the loop, or one
    less.  A symlink to itself and two symlinks to each other end in that
    error; a chain of two symlinks is followed under a limit of two and
    ends in that error under a limit of one. *)
Theorem symlink_limit_enforced :
  (forall limit w root path,
     exists fuel, forall fuel', fuel <= fuel' ->
       exists r, partialLookupInRoot limit fuel' w root path = Some r)
  /\ (forall limit root path lrp w st w' st',
        Walk.remainingPath st <> "" ->
        loop_body limit root path lrp w st = (w', Continue st') ->
        (Walk.linksWalked st' = Walk.linksWalked st
         /\ String.length (Walk.remainingPath st')
            < String.length (Walk.remainingPath st))
        \/ (Walk.linksWalked st' = Walk.linksWalked st + 1
            /\ Walk.linksWalked st' <= limit))
  /\ (forall limit root path lrp w st part rest w1 nextDir w2 w3 linkDest,
        next_part (Walk.remainingPath st) = (part, rest) ->
        part <> "" ->
        Path.Join ["/"; Walk.currentPath st; part] <> "/" ->
        OS.openatFile w (Walk.currentDir st) part = (w1, inr nextDir) ->
        OS.Stat w1 nextDir = (w2, inr ModeSymlink) ->
        OS.readlinkatFile (OS.Close w2 nextDir) (Walk.currentDir st) part
          = (w3, inr linkDest) ->
        exists w' step,
          loop_body limit root path lrp w st = (w', step)
          /\ Walk.linksWalked (state_of step) = Walk.linksWalked st + 1
          /\ (limit < Walk.linksWalked st + 1 ->
              w' = w3
              /\ exists st',
                   step = Return st'
                            (inl (PathError "partialLookupInRoot"
                                    (lrp +++ "/" +++ path) ELOOP)))
          /\ (Walk.linksWalked st + 1 <= limit ->
              forall st' err, step = Return st' (inl err) ->
                              errors_Is err (Sys ELOOP) = false))
  /\ (forall limit root path lrp w st w' step,
        loop_body limit root path lrp w st = (w', step) ->
        links_read (new_events w w') <= 1
        /\ Walk.linksWalked st <= Walk.linksWalked (state_of step)
        /\ Walk.linksWalked (state_of step)
           <= Walk.linksWalked st + links_read (new_events w w')
        /\ (forall st', step = Continue st' ->
              Walk.linksWalked st'
              = Walk.linksWalked st + links_read (new_events w w')))
  /\ (forall limit root path lrp fuel w cur w' st' res,
        loop limit root path lrp fuel w (Walk.mk cur [] 0 "" path)
          = Some (w', st', res) ->
        Walk.linksWalked st' <= limit + 1
        /\ (limit < Walk.linksWalked st' ->
            res = inl (PathError "partialLookupInRoot"
                         (lrp +++ "/" +++ path) ELOOP))
        /\ (res = inl (PathError "partialLookupInRoot"
                         (lrp +++ "/" +++ path) ELOOP) ->
            limit < Walk.linksWalked st')
        /\ Walk.linksWalked st' <= links_read (new_events w w')
        /\ links_read (new_events w w') <= Walk.linksWalked st' + 1)
  /\ (forall fuel, 257 <= fuel ->
        option_map snd (partialLookupInRoot 255 fuel Examples.self_loop 0 "a")
        = Some (inl (PathError "partialLookupInRoot" "/r/a" ELOOP)))
  /\ (forall fuel, 257 <= fuel ->
        option_map snd (partialLookupInRoot 255 fuel Examples.mutual_loop 0 "a/x")
        = Some (inl (PathError "partialLookupInRoot" "/r/a/x" ELOOP)))
  /\ (forall fuel, 5 <= fuel ->
        option_map snd (partialLookupInRoot 2 fuel Examples.tail_chain 0 "a/extra")
        = Some (inr (6, "extra"))
        /\ option_map snd (partialLookupInRoot 1 fuel Examples.tail_chain 0 "a/extra")
           = Some (inl (PathError "partialLookupInRoot" "/r/a/extra" ELOOP))).
Proof.
  split; [exact partialLookupInRoot_terminates|].
  split; [exact continue_measure|].
  split; [exact body_symlink_counted|].
  split; [exact body_counts|].
  split.
  { intros limit root path lrp fuel w cur w' st' res H.
    assert (B : Walk.linksWalked (Walk.mk cur [] 0 "" path) <= limit)
      by (simpl; lia).
    destruct (loop_counter _ _ _ _ _ _ _ _ _ _ B H) as [C1 C2].
    pose proof (loop_too_many _ _ _ _ _ _ _ _ _ _ B H) as C3.
    destruct (loop_counts _ _ _ _ _ _ _ _ _ _ H) as [C4 C5].
    simpl in C4, C5. auto. }
  split; [|split]; intros fuel L.
  - destruct (partialLookupInRoot 255 257 Examples.self_loop 0 "a")
      as [[w' res]|] eqn:E; [|vm_compute in E; discriminate].
    rewrite (partialLookupInRoot_fuel_le _ _ _ _ _ _ _ L E).
    vm_compute in E. inv E. reflexivity.
  - destruct (partialLookupInRoot 255 257 Examples.mutual_loop 0 "a/x")
      as [[w' res]|] eqn:E; [|vm_compute in E; discriminate].
    rewrite (partialLookupInRoot_fuel_le _ _ _ _ _ _ _ L E).
    vm_compute in E. inv E. reflexivity.
  - split.
    + destruct (partialLookupInRoot 2 5 Examples.tail_chain 0 "a/extra")
        as [[w' res]|] eqn:E; [|vm_compute in E; discriminate].
      rewrite (partialLookupInRoot_fuel_le _ _ _ _ _ _ _ L E).
      vm_compute in E. inv E. reflexivity.
    + destruct (partialLookupInRoot 1 5 Examples.tail_chain 0 "a/extra")
        as [[w' res]|] eqn:E; [|vm_compute in E; discriminate].
      rewrite (partialLookupInRoot_fuel_le _ _ _ _ _ _ _ L E).
      vm_compute in E. inv E. reflexivity.
Qed.

(** X11 (links read).  A call reads at most [maxSymlinkLimit + 1] links,
    whatever the tree and the request: the reads of one call are bounded by
    the limit alone. *)
Theorem readlinkat_calls_bounded :
  forall limit fuel w root path w' res,
    partialLookupInRoot limit fuel w root path = Some (w', res) ->
    links_read (new_events w w') <= limit + 1.
Proof.
  intros limit fuel w root path w' res H. unfold partialLookupInRoot in H.
  pose proof (procSelfFdReadlink_world w root) as EW.
  destruct (OS.procSelfFdReadlink w root) as [w1 [err|lrp]] eqn:E1;
    simpl in EW; subst w1.
  { inv H. rewrite (new_events_ext w (OS.emit (EvProcSelfFdReadlink root) w)
                      [EvProcSelfFdReadlink root] eq_refl).
    unfold links_read. simpl. lia. }
  destruct (OS.dupFile _ root) as [w2 [err|cur]] eqn:E2;
    pose proof (dupFile_log _ _ _ _ E2) as L2; simpl in L2.
  { inv H. rewrite (new_events_ext _ _ [EvProcSelfFdReadlink root; EvDup root]).
    - unfold links_read. simpl. lia.
    - rewrite L2. now rewrite <- app_assoc. }
  destruct (loop limit root path lrp fuel w2 _) as [[[w3 st] r]|] eqn:E3;
    [|discriminate].
  inv H.
  assert (B0 : Walk.linksWalked (Walk.mk cur [] 0 "" path) <= limit)
    by (simpl; lia).
  pose proof (loop_links _ _ _ _ _ _ _ _ _ _ B0 E3) as F3.
  destruct (loop_evolves _ _ _ _ _ _ _ _ _ _ E3) as (c3 & V3 & _).
  destruct (evolves_log _ _ _ V3) as [e3 L3].
  rewrite (new_events_ext _ _ _ L3) in F3.
  assert (LD : log (deferred w3 st res) =
               log w ++ ([EvProcSelfFdReadlink root; EvDup root] ++ e3)
                     ++ map (fun e => EvClose (dir e)) (Walk.symlinkStack st)
                     ++ match res with
                        | inl _ => [EvClose (Walk.currentDir st)]
                        | inr _ => []
                        end).
  { unfold deferred. rewrite SymlinkStack_Close_eq.
    destruct res; rewrite ?log_Close, log_close_entries, L3, L2;
      simpl; rewrite <- ?app_assoc; simpl; rewrite ?app_nil_r; reflexivity. }
  rewrite (new_events_ext _ _ _ LD).
  rewrite !links_read_app, links_read_closes.
  unfold links_read in *. destruct res; simpl in *; lia.
Qed.

Lemma readlinkat_calls_bounded_witness :
  exists w' res,
    partialLookupInRoot 3 9 Examples.mutual_loop 0 "a" = Some (w', res)
    /\ links_read (new_events Examples.mutual_loop w') <= 4.
Proof.
  destruct (partialLookupInRoot 3 9 Examples.mutual_loop 0 "a")
    as [[w' res]|] eqn:E; [|vm_compute in E; discriminate].
  exists w', res. split; [reflexivity|].
  exact (readlinkat_calls_bounded 3 9 Examples.mutual_loop 0 "a" w' res E).
Defined.

(* ================================================================== *)
(** ** Walking down directories *)
(* ================================================================== *)

Section TreeFacts.

Lemma lookup_app : forall (l l' : Loc) (n : Inode),
  OS.lookup n (l ++ l') =
  match OS.lookup n l with
  | Some m => OS.lookup m l'
  | None => None
  end.
Proof.
  induction l as [|x l IH]; intros l' n; [reflexivity|].
  simpl. destruct n as [es| |]; try reflexivity.
  destruct (OS.find_entry x es); [apply IH|reflexivity].
Qed.

Lemma lookup_prefix_dir (l l' : Loc) n es :
  OS.lookup n (l ++ l') = Some (Dir es) ->
  exists es0, OS.lookup n l = Some (Dir es0).
Proof.
  rewrite lookup_app. destruct (OS.lookup n l) as [m|]; [|discriminate].
  destruct l' as [|x l']; simpl; [eauto|].
  destruct m as [es0| |]; try discriminate. eauto.
Qed.

Lemma lookup_snoc (l : Loc) n c :
  OS.lookup n (l ++ [c]) =
  match OS.lookup n l with
  | Some (Dir es) => OS.find_entry c es
  | _ => None
  end.
Proof.
  rewrite lookup_app. destruct (OS.lookup n l) as [[es| |]|]; try reflexivity.
  simpl. destruct (OS.find_entry c es); reflexivity.
Qed.

End TreeFacts.

Section Descend.

Variable maxSymlinkLimit : nat.
Variable root : Handle.
Variable unsafePath : string.
Variable logicalRootPath : string.
Variable rootLoc : Loc.

Local Abbreviation body := (loop_body maxSymlinkLimit root unsafePath logicalRootPath).
Local Abbreviation walk := (loop maxSymlinkLimit root unsafePath logicalRootPath).

(** The logical path after a name. *)
Lemma Join_name cp c :
  Forall plain (components cp) -> name_ok c ->
  Path.Join ["/"; cp; c] <> "/"
  /\ components (Path.Join ["/"; cp; c]) = components cp ++ [c]
  /\ Forall plain (components (Path.Join ["/"; cp; c])).
Proof.
  intros F (NE & NS & [P1 P2]).
  destruct (apply_part_good (components cp) c) as (G1 & G2 & G3).
  rewrite Join_apply_part by assumption.
  assert (EA : apply_part (components cp) c = components cp ++ [c]).
  { unfold apply_part. destruct (String.eqb_spec c "."); [contradiction|].
    destruct (String.eqb_spec c ".."); [contradiction|reflexivity]. }
  split; [|split].
  - intros E. apply rooted_is_root in E.
    + rewrite EA in E. destruct (components cp); discriminate.
    + auto using components_nonempty.
  - rewrite components_rooted
      by auto using components_no_slash, components_nonempty.
    exact EA.
  - rewrite components_rooted
      by auto using components_no_slash, components_nonempty.
    auto.
Qed.

(** A missing name that a directory could hold is reported as not
    found. *)
Lemma openat_errno_fits c :
  c <> "" -> fits c -> OS.openat_errno c ENOENT = ENOENT.
Proof.
  intros NE [N L]. unfold OS.openat_errno, OS.longer_than. rewrite N.
  destruct (String.eqb_spec c ""); [contradiction|].
  unfold OS.NAME_MAX, OS.PATH_MAX in *.
  destruct (Nat.ltb_spec (4096 - 1) (String.length c)); [lia|].
  destruct (Nat.ltb_spec 255 (String.length c)); [lia|reflexivity].
Qed.

(** A missing name that no directory can hold is refused. *)
Lemma openat_errno_refused c :
  c <> "" ->
  OS.has_nul c = true \/ OS.NAME_MAX < String.length c ->
  OS.openat_errno c ENOENT = if OS.has_nul c then EINVAL else ENAMETOOLONG.
Proof.
  intros NE R. unfold OS.openat_errno, OS.longer_than.
  destruct (OS.has_nul c); [reflexivity|].
  destruct R as [R|R]; [discriminate|].
  destruct (String.eqb_spec c ""); [contradiction|].
  destruct (Nat.ltb (OS.PATH_MAX - 1) (String.length c)); [reflexivity|].
  apply Nat.ltb_lt in R. now rewrite R.
Qed.

(** Where a name is opened, in a directory that is open at [l]. *)
Lemma open_target_name w cur l es c :
  OS.handle_loc w cur = Some l ->
  OS.lookup (host w) l = Some (Dir es) ->
  plain c ->
  open_target w cur c =
  match OS.find_entry c es with
  | Some _ => inr (l ++ [c])
  | None => inl (Base (Sys (OS.openat_errno c ENOENT)))
  end.
Proof.
  intros HL HK [P1 P2]. unfold open_target. rewrite HL, HK.
  destruct (String.eqb_spec c "."); [contradiction|].
  destruct (String.eqb_spec c ".."); [contradiction|reflexivity].
Qed.

Lemma Stat_new w l ev :
  OS.Stat (fst (OS.alloc (OS.emit ev w) l)) (next_handle w) =
  (OS.emit (EvStat (next_handle w)) (fst (OS.alloc (OS.emit ev w) l)),
   match OS.lookup (host w) l with
   | Some (Dir _) => inr ModeDir
   | Some (Symlink _) => inr ModeSymlink
   | Some Other => inr ModeOther
   | None => inl (Base (Sys EBADF))
   end).
Proof.
  unfold OS.Stat. rewrite loc_emit, loc_alloc, next_emit, Nat.eqb_refl.
  rewrite host_emit, host_alloc, host_emit.
  destruct (OS.lookup (host w) l) as [[?|?|]|]; reflexivity.
Qed.

(** One iteration on a name that is a directory. *)
Lemma body_enter_dir w cur lw cp rem c rest es :
  next_part rem = (c, rest) ->
  name_ok c ->
  Forall plain (components cp) ->
  OS.handle_loc w cur = Some (rootLoc ++ components cp) ->
  OS.lookup (host w) ((rootLoc ++ components cp) ++ [c]) = Some (Dir es) ->
  body w (Walk.mk cur [] lw cp rem) =
  (OS.Close (OS.emit (EvStat (next_handle w))
               (fst (OS.alloc (OS.emit (EvOpenat cur c) w)
                       ((rootLoc ++ components cp) ++ [c])))) cur,
   Continue (Walk.mk (next_handle w) [] lw (Path.Join ["/"; cp; c]) rest)).
Proof.
  intros EP NO F HL HK. pose proof NO as (NE & NS & P).
  destruct (Join_name cp c F NO) as (NR & _ & _).
  unfold loop_body. cbn [Walk.currentDir Walk.symlinkStack Walk.linksWalked
                          Walk.currentPath Walk.remainingPath].
  rewrite EP.
  destruct (String.eqb_spec c ""); [contradiction|].
  destruct (String.eqb_spec (Path.Join ["/"; cp; c]) "/"); [contradiction|].
  pose proof HK as HK'. rewrite lookup_snoc in HK'.
  destruct (OS.lookup (host w) (rootLoc ++ components cp)) as [[es0| |]|] eqn:ED;
    try discriminate.
  rewrite openatFile_eq, (open_target_name _ _ _ _ _ HL ED P), HK'.
  rewrite Stat_new, HK. cbn [SymlinkStack.PopPart SymlinkStack.popPart
                              SymlinkStack.IsEmpty length Nat.eqb errors_Is
                              Sentinel_eqb].
  destruct P as [_ P2]. destruct (String.eqb_spec c ".."); [contradiction|].
  reflexivity.
Qed.

(** One iteration on a name that the directory does not have. *)
Lemma body_missing w cur lw cp rem c rest es :
  next_part rem = (c, rest) ->
  name_ok c ->
  fits c ->
  Forall plain (components cp) ->
  OS.handle_loc w cur = Some (rootLoc ++ components cp) ->
  OS.lookup (host w) (rootLoc ++ components cp) = Some (Dir es) ->
  OS.find_entry c es = None ->
  body w (Walk.mk cur [] lw cp rem) =
  (OS.emit (EvOpenat cur c) w,
   Return (Walk.mk cur [] lw cp rest) (inr (cur, rem))).
Proof.
  intros EP NO FI F HL HK HF. pose proof NO as (NE & NS & P).
  destruct (Join_name cp c F NO) as (NR & _ & _).
  unfold loop_body. cbn [Walk.currentDir Walk.symlinkStack Walk.linksWalked
                          Walk.currentPath Walk.remainingPath].
  rewrite EP.
  destruct (String.eqb_spec c ""); [contradiction|].
  destruct (String.eqb_spec (Path.Join ["/"; cp; c]) "/"); [contradiction|].
  rewrite openatFile_eq, (open_target_name _ _ _ _ _ HL HK P), HF.
  rewrite (openat_errno_fits c NE FI). reflexivity.
Qed.

(** One iteration on a name that the directory does not have and could
    not hold: the error of [openatFile] is the result. *)
Lemma body_refused w cur lw cp rem c rest es :
  next_part rem = (c, rest) ->
  name_ok c ->
  OS.has_nul c = true \/ OS.NAME_MAX < String.length c ->
  Forall plain (components cp) ->
  OS.handle_loc w cur = Some (rootLoc ++ components cp) ->
  OS.lookup (host w) (rootLoc ++ components cp) = Some (Dir es) ->
  OS.find_entry c es = None ->
  body w (Walk.mk cur [] lw cp rem) =
  (OS.emit (EvOpenat cur c) w,
   Return (Walk.mk cur [] lw cp rest)
     (inl (Base (Sys (if OS.has_nul c then EINVAL else ENAMETOOLONG))))).
Proof.
  intros EP NO R F HL HK HF. pose proof NO as (NE & NS & P).
  destruct (Join_name cp c F NO) as (NR & _ & _).
  unfold loop_body. cbn [Walk.currentDir Walk.symlinkStack Walk.linksWalked
                          Walk.currentPath Walk.remainingPath].
  rewrite EP.
  destruct (String.eqb_spec c ""); [contradiction|].
  destruct (String.eqb_spec (Path.Join ["/"; cp; c]) "/"); [contradiction|].
  rewrite openatFile_eq, (open_target_name _ _ _ _ _ HL HK P), HF.
  rewrite (openat_errno_refused c NE R).
  destruct (OS.has_nul c); reflexivity.
Qed.

(** One iteration on a name that is neither a directory nor a symlink. *)
Lemma body_file w cur lw cp rem c rest es :
  next_part rem = (c, rest) ->
  name_ok c ->
  Forall plain (components cp) ->
  OS.handle_loc w cur = Some (rootLoc ++ components cp) ->
  OS.lookup (host w) (rootLoc ++ components cp) = Some (Dir es) ->
  OS.find_entry c es = Some Other ->
  body w (Walk.mk cur [] lw cp rem) =
  (OS.Close (OS.emit (EvStat (next_handle w))
               (fst (OS.alloc (OS.emit (EvOpenat cur c) w)
                       ((rootLoc ++ components cp) ++ [c])))) cur,
   Return (Walk.mk cur [] lw cp rest) (inr (next_handle w, rest))).
Proof.
  intros EP NO F HL HK HF. pose proof NO as (NE & NS & P).
  destruct (Join_name cp c F NO) as (NR & _ & _).
  unfold loop_body. cbn [Walk.currentDir Walk.symlinkStack Walk.linksWalked
                          Walk.currentPath Walk.remainingPath].
  rewrite EP.
  destruct (String.eqb_spec c ""); [contradiction|].
  destruct (String.eqb_spec (Path.Join ["/"; cp; c]) "/"); [contradiction|].
  rewrite openatFile_eq, (open_target_name _ _ _ _ _ HL HK P), HF.
  rewrite Stat_new, lookup_snoc, HK, HF. reflexivity.
Qed.

Lemma loc_after_enter w cur c l :
  cur < next_handle w ->
  OS.handle_loc
    (OS.Close (OS.emit (EvStat (next_handle w))
                 (fst (OS.alloc (OS.emit (EvOpenat cur c) w) l))) cur)
    (next_handle w) = Some l.
Proof.
  intros B. rewrite loc_Close.
  destruct (Nat.eqb_spec (next_handle w) cur); [lia|].
  rewrite loc_emit, loc_alloc, next_emit, Nat.eqb_refl. reflexivity.
Qed.

Lemma seg_not_empty c r : (c +++ "/" +++ r =? "") = false.
Proof.
  apply String.eqb_neq. destruct c; discriminate.
Qed.

(** The loop walks down a chain of directories, one iteration for each
    name. *)
Lemma loop_enter_dirs : forall names w cur lw cp tail fuel es,
  Forall name_ok names ->
  Forall plain (components cp) ->
  OS.handle_loc w cur = Some (rootLoc ++ components cp) ->
  cur < next_handle w ->
  OS.lookup (host w) ((rootLoc ++ components cp) ++ names) = Some (Dir es) ->
  exists w' cur' cp',
    walk (length names + fuel) w (Walk.mk cur [] lw cp (flat names +++ tail))
    = walk fuel w' (Walk.mk cur' [] lw cp' tail)
    /\ host w' = host w
    /\ OS.handle_loc w' cur' = Some (rootLoc ++ components cp')
    /\ cur' < next_handle w'
    /\ components cp' = components cp ++ names
    /\ Forall plain (components cp')
    /\ cur <= cur'
    /\ (forall h, h < cur -> OS.handle_loc w' h = OS.handle_loc w h).
Proof.
  induction names as [|c names IH]; intros w cur lw cp tail fuel es FN FP HL B HK.
  - exists w, cur, cp. rewrite app_nil_r. repeat split; auto.
  - inversion FN as [|? ? NO FN']; subst.
    assert (EF : flat (c :: names) +++ tail = c +++ "/" +++ flat names +++ tail).
    { simpl. now rewrite !append_assoc. }
    rewrite EF. cbn [length Nat.add]. rewrite loop_unfold.
    cbn [Walk.remainingPath]. rewrite seg_not_empty.
    assert (HK1 : OS.lookup (host w) (((rootLoc ++ components cp) ++ [c]) ++ names)
                  = Some (Dir es)) by (rewrite <- app_assoc; exact HK).
    destruct (lookup_prefix_dir _ _ _ _ HK1) as [es1 HD].
    assert (EP : next_part (c +++ "/" +++ flat names +++ tail)
                 = (c, flat names +++ tail))
      by (apply next_part_seg, NO).
    rewrite (body_enter_dir _ _ _ _ _ _ _ _ EP NO FP HL HD).
    destruct (Join_name cp c FP NO) as (_ & EC & FP1).
    set (w1 := OS.Close (OS.emit (EvStat (next_handle w))
                 (fst (OS.alloc (OS.emit (EvOpenat cur c) w)
                         ((rootLoc ++ components cp) ++ [c])))) cur).
    destruct (IH w1 (next_handle w) lw (Path.Join ["/"; cp; c]) tail fuel es
                FN' FP1)
      as (w' & cur' & cp' & E & H1 & H2 & H3 & H4 & H5 & H6 & H7).
    + rewrite EC, app_assoc. apply loc_after_enter, B.
    + unfold w1. rewrite next_Close. simpl. lia.
    + rewrite EC, app_assoc. exact HK1.
    + exists w', cur', cp'. split; [exact E|].
      split; [exact H1|]. split; [exact H2|]. split; [exact H3|].
      split; [rewrite H4, EC, <- app_assoc; reflexivity|].
      split; [exact H5|]. split; [lia|].
      intros h Bh. rewrite H7 by lia. unfold w1.
      rewrite loc_Close. destruct (Nat.eqb_spec h cur); [lia|].
      rewrite loc_emit, loc_alloc, next_emit, loc_emit.
      destruct (Nat.eqb_spec (next_handle w) h); [lia|reflexivity].
Qed.

End Descend.

Lemma Join_snoc ns c : Strings.Join (ns ++ [c]) "/" = flat ns +++ c.
Proof.
  induction ns as [|a ns IH]; [reflexivity|].
  change ((a :: ns) ++ [c]) with (a :: (ns ++ [c])).
  destruct (ns ++ [c]) as [|b l] eqn:E; [destruct ns; discriminate|].
  change (Strings.Join (a :: b :: l) "/") with (a +++ "/" +++ Strings.Join (b :: l) "/").
  rewrite IH. simpl. now rewrite !append_assoc.
Qed.

(** The call, up to the point where the loop has walked down the
    directories [names]. *)
Lemma lookup_descend limit w root rootLoc names es fuel tail :
  OS.handle_loc w root = Some rootLoc ->
  Forall name_ok names ->
  OS.lookup (host w) (rootLoc ++ names) = Some (Dir es) ->
  exists w2 cur cp,
    partialLookupInRoot limit (length names + fuel) w root (flat names +++ tail)
    = match loop limit root (flat names +++ tail) (OS.path_of_loc rootLoc)
              fuel w2 (Walk.mk cur [] 0 cp tail) with
      | None => None
      | Some (w3, st, res) => Some (deferred w3 st res, res)
      end
    /\ host w2 = host w
    /\ OS.handle_loc w2 cur = Some (rootLoc ++ names)
    /\ cur < next_handle w2
    /\ components cp = names
    /\ Forall plain (components cp)
    /\ next_handle w <= cur
    /\ (forall h, h < next_handle w -> OS.handle_loc w2 h = OS.handle_loc w h).
Proof.
  intros HR FN HK. unfold partialLookupInRoot.
  unfold OS.procSelfFdReadlink. rewrite loc_emit, HR.
  rewrite dupFile_eq, loc_emit, HR.
  set (w1 := fst (OS.alloc (OS.emit (EvDup root)
                   (OS.emit (EvProcSelfFdReadlink root) w)) rootLoc)).
  change (next_handle (OS.emit (EvProcSelfFdReadlink root) w))
    with (next_handle w).
  destruct (loop_enter_dirs limit root (flat names +++ tail)
              (OS.path_of_loc rootLoc) rootLoc names w1 (next_handle w) 0 ""
              tail fuel es FN)
    as (w2 & cur & cp & E & H1 & H2 & H3 & H4 & H5 & H6 & H7).
  - constructor.
  - unfold w1. rewrite loc_alloc, !next_emit, Nat.eqb_refl.
    change (components "") with (@nil string). now rewrite app_nil_r.
  - unfold w1. simpl. lia.
  - change (components "") with (@nil string). rewrite app_nil_r. exact HK.
  - exists w2, cur, cp. rewrite E.
    change (components "") with (@nil string) in H4. simpl in H4.
    rewrite H4 in H2. repeat split; auto.
    intros h Bh. rewrite H7 by exact Bh. unfold w1.
    rewrite loc_alloc, !next_emit, !loc_emit.
    destruct (Nat.eqb_spec (next_handle w) h); [lia|reflexivity].
Qed.

(** X12 (a chain of directories).  When the names of the request lead
    from the root through directories that exist, none of them a symlink,
    the call returns, without an error, a handle on the last directory and
    an empty remaining path; this holds with and without a slash after the
    last name, and for the request without any name. *)
Theorem lookup_existing_directories :
  forall limit fuel w root rootLoc names es path,
    OS.handle_loc w root = Some rootLoc ->
    Forall name_ok names ->
    OS.lookup (host w) (rootLoc ++ names) = Some (Dir es) ->
    length names < fuel ->
    path = Strings.Join names "/" \/ path = flat names ->
    exists w' h,
      partialLookupInRoot limit fuel w root path = Some (w', inr (h, ""))
      /\ OS.handle_loc w' h = Some (rootLoc ++ names).
Proof.
  intros limit fuel w root rootLoc names es path HR FN HK LF HP.
  assert (SL : forall ns f tl w2 cur cp lrp,
             partialLookupInRoot limit (length ns + S f) w root (flat ns +++ tl)
             = match loop limit root (flat ns +++ tl) lrp (S f) w2
                       (Walk.mk cur [] 0 cp "") with
               | None => None
               | Some (w3, st, res) => Some (deferred w3 st res, res)
               end ->
             partialLookupInRoot limit (length ns + S f) w root (flat ns +++ tl)
             = Some (w2, inr (cur, ""))).
  { intros ns f tl w2 cur cp lrp E. rewrite E. reflexivity. }
  destruct HP as [->| ->].
  - destruct names as [|c0 names0] using rev_ind.
    + destruct fuel as [|f]; [lia|].
      destruct (lookup_descend limit w root rootLoc [] es (S f) "" HR FN HK)
        as (w2 & cur & cp & E & H1 & H2 & _).
      exists w2, cur. split; [|exact H2]. exact (SL [] f "" w2 cur cp (OS.path_of_loc rootLoc) E).
    + clear IHnames0. rewrite Join_snoc.
      apply Forall_app in FN. destruct FN as [FN FC].
      inversion FC as [|? ? NO _]; subst.
      rewrite app_assoc in HK.
      destruct (lookup_prefix_dir _ _ _ _ HK) as [es0 HD].
      rewrite length_app in LF. simpl in LF.
      replace fuel with (length names0 + S (S (fuel - length names0 - 2))) by lia.
      destruct (lookup_descend limit w root rootLoc names0 es0
                  (S (S (fuel - length names0 - 2))) c0 HR FN HD)
        as (w2 & cur & cp & E & H1 & H2 & H3 & H4 & H5 & _).
      rewrite E, loop_unfold. cbn [Walk.remainingPath].
      destruct NO as (NE & NS & P).
      destruct (String.eqb_spec c0 ""); [contradiction|].
      assert (EP : next_part c0 = (c0, "")) by (unfold next_part; now rewrite NS).
      rewrite <- H4 in H2. rewrite <- H1, <- H4 in HK.
      rewrite (body_enter_dir _ _ _ _ _ _ _ _ _ _ _ _ _ EP
                 (conj NE (conj NS P)) H5 H2 HK).
      rewrite loop_unfold. cbn [Walk.remainingPath String.eqb deferred
                                 Walk.symlinkStack SymlinkStack.Close Walk.currentDir].
      do 2 eexists. split; [reflexivity|].
      rewrite loc_after_enter by exact H3. rewrite H4, app_assoc. reflexivity.
  - replace fuel with (length names + S (fuel - length names - 1)) by lia.
    destruct (lookup_descend limit w root rootLoc names es
                (S (fuel - length names - 1)) "" HR FN HK)
      as (w2 & cur & cp & E & H1 & H2 & _).
    exists w2, cur. split; [|exact H2].
    rewrite <- (append_nil_r (flat names)). exact (SL names _ "" w2 cur cp (OS.path_of_loc rootLoc) E).
Qed.

Lemma lookup_existing_directories_witness :
  exists w' h,
    partialLookupInRoot 255 3
      (Examples.world_r [("a", Dir [("b", Dir [])])]) 0 "a/b"
      = Some (w', inr (h, ""))
    /\ OS.handle_loc w' h = Some (["r"] ++ ["a"; "b"]).
Proof.
  apply (lookup_existing_directories 255 3
           (Examples.world_r [("a", Dir [("b", Dir [])])]) 0 ["r"] ["a"; "b"] []).
  - reflexivity.
  - repeat constructor; discriminate.
  - reflexivity.
  - simpl. lia.
  - left. reflexivity.
Defined.

Lemma next_part_nonempty tail c rest :
  next_part tail = (c, rest) -> c <> "" -> (tail =? "") = false.
Proof.
  intros EP NE. apply String.eqb_neq. intros ->. inv EP. now apply NE.
Qed.

(** X13 (the first missing name).  When the request leads through
    existing directories, none of them a symlink, to a name that the last
    of them does not have, and the name is one a directory can hold (no NUL
    byte, at most [NAME_MAX] bytes), the call returns, without an error, a
    handle on that last directory, and as remaining path the request from
    the missing name on, unchanged. *)
Theorem lookup_missing_component :
  forall limit fuel w root rootLoc names es tail c rest,
    OS.handle_loc w root = Some rootLoc ->
    Forall name_ok names ->
    OS.lookup (host w) (rootLoc ++ names) = Some (Dir es) ->
    next_part tail = (c, rest) ->
    name_ok c ->
    fits c ->
    OS.find_entry c es = None ->
    length names < fuel ->
    exists w' h,
      partialLookupInRoot limit fuel w root (flat names +++ tail)
        = Some (w', inr (h, tail))
      /\ OS.handle_loc w' h = Some (rootLoc ++ names).
Proof.
  intros limit fuel w root rootLoc names es tail c rest HR FN HK EP NO FI HF LF.
  replace fuel with (length names + S (fuel - length names - 1)) by lia.
  destruct (lookup_descend limit w root rootLoc names es
              (S (fuel - length names - 1)) tail HR FN HK)
    as (w2 & cur & cp & E & H1 & H2 & H3 & H4 & H5 & _).
  rewrite E, loop_unfold. cbn [Walk.remainingPath].
  rewrite (next_part_nonempty _ _ _ EP (proj1 NO)).
  rewrite <- H4 in H2. rewrite <- H1, <- H4 in HK.
  rewrite (body_missing _ _ _ _ _ _ _ _ _ _ _ _ _ EP NO FI H5 H2 HK HF).
  cbn [deferred Walk.symlinkStack SymlinkStack.Close].
  do 2 eexists. split; [reflexivity|]. rewrite loc_emit, <- H4. exact H2.
Qed.

Lemma lookup_missing_component_witness :
  exists w' h,
    partialLookupInRoot 255 3
      (Examples.world_r [("a", Dir [("b", Dir [])])]) 0 "a/x//y/"
      = Some (w', inr (h, "x//y/"))
    /\ OS.handle_loc w' h = Some (["r"] ++ ["a"]).
Proof.
  apply (lookup_missing_component 255 3
           (Examples.world_r [("a", Dir [("b", Dir [])])]) 0 ["r"] ["a"]
           [("b", Dir [])] "x//y/" "x" "/y/").
  - reflexivity.
  - repeat constructor; discriminate.
  - reflexivity.
  - reflexivity.
  - repeat constructor; discriminate.
  - split; [reflexivity|vm_compute; lia].
  - reflexivity.
  - simpl. lia.
Defined.

(** X14 (a name that is neither directory nor symlink).  When the request
    leads through existing directories, none of them a symlink, to a name
    that is neither a directory nor a symlink, the call returns, without
    an error, a handle on that object, and as remaining path what follows
    the name and its slash in the request. *)
Theorem lookup_stops_at_file :
  forall limit fuel w root rootLoc names es tail c rest,
    OS.handle_loc w root = Some rootLoc ->
    Forall name_ok names ->
    OS.lookup (host w) (rootLoc ++ names) = Some (Dir es) ->
    next_part tail = (c, rest) ->
    name_ok c ->
    OS.find_entry c es = Some Other ->
    length names < fuel ->
    exists w' h,
      partialLookupInRoot limit fuel w root (flat names +++ tail)
        = Some (w', inr (h, rest))
      /\ OS.handle_loc w' h = Some (rootLoc ++ names ++ [c]).
Proof.
  intros limit fuel w root rootLoc names es tail c rest HR FN HK EP NO HF LF.
  replace fuel with (length names + S (fuel - length names - 1)) by lia.
  destruct (lookup_descend limit w root rootLoc names es
              (S (fuel - length names - 1)) tail HR FN HK)
    as (w2 & cur & cp & E & H1 & H2 & H3 & H4 & H5 & _).
  rewrite E, loop_unfold. cbn [Walk.remainingPath].
  rewrite (next_part_nonempty _ _ _ EP (proj1 NO)).
  rewrite <- H4 in H2. rewrite <- H1, <- H4 in HK.
  rewrite (body_file _ _ _ _ _ _ _ _ _ _ _ _ _ EP NO H5 H2 HK HF).
  cbn [deferred Walk.symlinkStack SymlinkStack.Close].
  do 2 eexists. split; [reflexivity|].
  rewrite loc_after_enter by exact H3. rewrite H4, app_assoc. reflexivity.
Qed.

Lemma lookup_stops_at_file_witness :
  exists w' h,
    partialLookupInRoot 255 3
      (Examples.world_r [("a", Dir [("f", Other)])]) 0 "a/f/y"
      = Some (w', inr (h, "y"))
    /\ OS.handle_loc w' h = Some (["r"] ++ ["a"] ++ ["f"]).
Proof.
  apply (lookup_stops_at_file 255 3
           (Examples.world_r [("a", Dir [("f", Other)])]) 0 ["r"] ["a"]
           [("f", Other)] "f/y" "f" "y").
  - reflexivity.
  - repeat constructor; discriminate.
  - reflexivity.
  - reflexivity.
  - repeat constructor; discriminate.
  - reflexivity.
  - simpl. lia.
Defined.

(** X22 (a name no directory can hold).  When the request leads through
    existing directories, none of them a symlink, to a name that the last
    of them does not have and that holds a NUL byte or is longer than
    [NAME_MAX] bytes, the call returns no partial result: it returns the
    error of [openatFile], which is [EINVAL] for a name with a NUL byte and
    [ENAMETOOLONG] otherwise, and is no not-found error. *)
Theorem lookup_refused_name :
  forall limit fuel w root rootLoc names es tail c rest,
    OS.handle_loc w root = Some rootLoc ->
    Forall name_ok names ->
    OS.lookup (host w) (rootLoc ++ names) = Some (Dir es) ->
    next_part tail = (c, rest) ->
    name_ok c ->
    OS.has_nul c = true \/ OS.NAME_MAX < String.length c ->
    OS.find_entry c es = None ->
    length names < fuel ->
    exists w' err,
      partialLookupInRoot limit fuel w root (flat names +++ tail)
        = Some (w', inl err)
      /\ errors_Is err (Sys (if OS.has_nul c then EINVAL else ENAMETOOLONG))
         = true
      /\ errors_Is err ErrNotExist = false.
Proof.
  intros limit fuel w root rootLoc names es tail c rest HR FN HK EP NO R HF LF.
  replace fuel with (length names + S (fuel - length names - 1)) by lia.
  destruct (lookup_descend limit w root rootLoc names es
              (S (fuel - length names - 1)) tail HR FN HK)
    as (w2 & cur & cp & E & H1 & H2 & H3 & H4 & H5 & _).
  rewrite E, loop_unfold. cbn [Walk.remainingPath].
  rewrite (next_part_nonempty _ _ _ EP (proj1 NO)).
  rewrite <- H4 in H2. rewrite <- H1, <- H4 in HK.
  rewrite (body_refused _ _ _ _ _ _ _ _ _ _ _ _ _ EP NO R H5 H2 HK HF).
  do 2 eexists. split; [reflexivity|].
  destruct (OS.has_nul c); split; reflexivity.
Qed.

Lemma lookup_refused_name_witness :
  exists w' err,
    partialLookupInRoot 255 3 (Examples.world_r [("a", Dir [])]) 0
      (flat ["a"] +++ xs 256) = Some (w', inl err)
    /\ errors_Is err (Sys (if OS.has_nul (xs 256) then EINVAL else ENAMETOOLONG))
       = true
    /\ errors_Is err ErrNotExist = false.
Proof.
  apply (lookup_refused_name 255 3 (Examples.world_r [("a", Dir [])]) 0
           ["r"] ["a"] [] (xs 256) (xs 256) "").
  - reflexivity.
  - repeat constructor; discriminate.
  - reflexivity.
  - vm_compute. reflexivity.
  - repeat split; intros H; vm_compute in H; discriminate H.
  - right. vm_compute. lia.
  - reflexivity.
  - simpl. lia.
Defined.

(* ================================================================== *)
(** ** Leading slashes *)
(* ================================================================== *)

Ltac break_inner :=
  match goal with
  | |- context [match ?x with _ => _ end] =>
      lazymatch x with
      | context [match _ with _ => _ end] => fail
      | _ => destruct x eqn:?
      end
  end.

(** The request text enters an iteration only through the ELOOP error. *)
Lemma body_path_indep limit root p p' lrp w st :
  same_step (loop_body limit root p lrp w st) (loop_body limit root p' lrp w st).
Proof.
  unfold same_step, loop_body.
  repeat (break_inner; cbn [fst snd]).
  all: cbn [same_outcome]; auto.
Qed.

Lemma same_outcome_refl r : same_outcome r r.
Proof.
  destruct r; simpl; auto.
Qed.

Lemma loop_path_indep limit root p p' lrp fuel : forall w st w' st' res,
  loop limit root p lrp fuel w st = Some (w', st', res) ->
  exists res',
    loop limit root p' lrp fuel w st = Some (w', st', res')
    /\ same_outcome res res'.
Proof.
  induction fuel as [|fuel IH]; intros w st w' st' res H; [discriminate|].
  rewrite loop_unfold in H. rewrite loop_unfold.
  destruct (Walk.remainingPath st =? "")%string.
  - inv H. eexists. split; [reflexivity|apply same_outcome_refl].
  - pose proof (body_path_indep limit root p p' lrp w st) as [E1 E2].
    destruct (loop_body limit root p lrp w st) as [w1 [st1|st1 r1]];
      destruct (loop_body limit root p' lrp w st) as [w2 [st2|st2 r2]];
      simpl in E1, E2; try contradiction; subst.
    + apply IH. exact H.
    + destruct E2 as [-> E2]. inv H. eauto.
Qed.

(** Leading slashes are skipped, one iteration for each. *)
Lemma loop_skip_slashes limit root p lrp n : forall fuel w cur stk lw cp r,
  loop limit root p lrp (n + fuel) w (Walk.mk cur stk lw cp (slashes n +++ r))
  = loop limit root p lrp fuel w (Walk.mk cur stk lw cp r).
Proof.
  induction n as [|n IH]; intros fuel w cur stk lw cp r; [reflexivity|].
  cbn [Nat.add]. rewrite loop_unfold. cbn [Walk.remainingPath].
  change (slashes (S n) +++ r) with (String "/" (slashes n +++ r)).
  cbn [String.eqb]. unfold loop_body. simpl. apply IH.
Qed.

(** X15 (leading slashes).  A request with slashes in front is resolved
    like the request without them, from the root: the call leaves the same
    world, to the last log entry, and returns the same handle and remaining
    path, or an error where the other returns an error. *)
Theorem leading_slashes_ignored :
  forall limit fuel w root path n w' res,
    partialLookupInRoot limit fuel w root path = Some (w', res) ->
    exists res',
      partialLookupInRoot limit (n + fuel) w root (slashes n +++ path)
        = Some (w', res')
      /\ same_outcome res res'.
Proof.
  intros limit fuel w root path n w' res H. unfold partialLookupInRoot in *.
  destruct (OS.procSelfFdReadlink w root) as [w1 [err|lrp]].
  { inv H. eexists. split; [reflexivity|exact I]. }
  destruct (OS.dupFile w1 root) as [w2 [err|cur]].
  { inv H. eexists. split; [reflexivity|exact I]. }
  rewrite loop_skip_slashes.
  destruct (loop limit root path lrp fuel w2 _) as [[[w3 st] r]|] eqn:E;
    [|discriminate].
  inv H.
  destruct (loop_path_indep limit root path (slashes n +++ path) lrp fuel
              _ _ _ _ _ E) as (res' & E' & S).
  rewrite E'. exists res'. split; [|exact S].
  unfold deferred. destruct res, res'; simpl in S; try contradiction; reflexivity.
Qed.

Lemma leading_slashes_ignored_witness :
  exists w' res res',
    partialLookupInRoot 255 4 Examples.tail_chain 0 "a/extra" = Some (w', res)
    /\ partialLookupInRoot 255 (2 + 4) Examples.tail_chain 0
         (slashes 2 +++ "a/extra") = Some (w', res')
    /\ same_outcome res res'.
Proof.
  destruct (partialLookupInRoot 255 4 Examples.tail_chain 0 "a/extra")
    as [[w' res]|] eqn:E; [|vm_compute in E; discriminate].
  destruct (leading_slashes_ignored 255 4 Examples.tail_chain 0 "a/extra" 2
              w' res E) as (res' & E' & S).
  exists w', res, res'. split; [reflexivity|]. split; [exact E'|exact S].
Defined.

(* ================================================================== *)
(** ** Errors on a tree that does not change *)
(* ================================================================== *)

Section QuietFacts.

Implicit Types (w : World) (h d n : Handle) (s : symlinkStack) (l : Loc).

Lemma dupFile_err_closed w h w' e :
  OS.dupFile w h = (w', inl e) -> OS.handle_loc w h = None.
Proof.
  rewrite dupFile_eq. destruct (OS.handle_loc w h); [discriminate|reflexivity].
Qed.

Lemma open_target_exists w d part l :
  open_target w d part = inr l -> OS.lookup (host w) l <> None.
Proof.
  unfold open_target.
  destruct (OS.handle_loc w d) as [lc|]; [|discriminate].
  destruct (OS.lookup (host w) lc) as [[es|t|]|] eqn:EK; try discriminate.
  destruct (part =? ".")%string; [intros H; inv H; congruence|].
  destruct (part =? "..")%string.
  - intros H. inv H. destruct (lookup_removelast _ _ _ EK) as [es' E].
    congruence.
  - destruct (OS.find_entry part es) as [c|] eqn:EF; intros H; inv H.
    rewrite lookup_snoc, EK, EF. discriminate.
Qed.

Lemma Stat_mode w n w' m l :
  OS.Stat w n = (w', inr m) ->
  OS.handle_loc w n = Some l ->
  match m with
  | ModeDir => is_dir (host w) l
  | ModeSymlink => exists t, OS.lookup (host w) l = Some (Symlink t)
  | ModeOther => OS.lookup (host w) l = Some Other
  end.
Proof.
  unfold OS.Stat. rewrite loc_emit, host_emit. intros H HL. rewrite HL in H.
  destruct (OS.lookup (host w) l) as [[es|t|]|] eqn:E; inv H;
    unfold is_dir; rewrite ?E; eauto.
Qed.

Lemma Stat_err_missing w n w' e l :
  OS.Stat w n = (w', inl e) ->
  OS.handle_loc w n = Some l ->
  OS.lookup (host w) l = None.
Proof.
  unfold OS.Stat. rewrite loc_emit, host_emit. intros H HL. rewrite HL in H.
  destruct (OS.lookup (host w) l) as [[es|t|]|]; inv H. reflexivity.
Qed.

(** A component that was opened and found to be a symlink can be read. *)
Lemma readlink_of_symlink w d part l t w3 :
  open_target w d part = inr l ->
  OS.lookup (host w) l = Some (Symlink t) ->
  host w3 = host w ->
  OS.handle_loc w3 d = OS.handle_loc w d ->
  snd (OS.readlinkatFile w3 d part) = inr t.
Proof.
  unfold open_target, OS.readlinkatFile. intros HT HS EH EL.
  rewrite loc_emit, host_emit, EL, EH.
  destruct (OS.handle_loc w d) as [lc|]; [|discriminate].
  destruct (OS.lookup (host w) lc) as [[es|t0|]|] eqn:EK; try discriminate.
  destruct (part =? ".")%string; [inv HT; congruence|].
  destruct (part =? "..")%string.
  - inv HT. destruct (lookup_removelast _ _ _ EK) as [es' E]. congruence.
  - simpl. destruct (OS.find_entry part es) as [c|] eqn:EF; inv HT.
    rewrite lookup_snoc, EK, EF in HS. inv HS. reflexivity.
Qed.

Lemma SwapLink_err_kind w s part d rem target w' s' err :
  SymlinkStack.SwapLink w s part d rem target = (w', s', Some err) ->
  (exists msg, err = Wrap msg (Base errBrokenSymlinkStack))
  \/ OS.handle_loc w d = None.
Proof.
  unfold SymlinkStack.SwapLink.
  destruct (SymlinkStack.popPart s part) as [s1 r1] eqn:E.
  assert (P : forall s2, SymlinkStack.push w s2 d rem target = (w', s', Some err) ->
                         OS.handle_loc w d = None).
  { intros s2 H. apply push_cases in H.
    destruct H as [(_ & _ & _ & H)|[_ H]]; [discriminate|].
    destruct (OS.handle_loc w d); [|reflexivity].
    destruct H as (_ & _ & H). discriminate. }
  destruct r1 as [e1|]; [|eauto].
  apply popPart_err_shape in E. destruct E as [->|[msg ->]]; simpl; [eauto|].
  intros H. inv H. eauto.
Qed.

Lemma Join_app (A B : list string) :
  A <> [] -> B <> [] ->
  Strings.Join (A ++ B) "/" = Strings.Join A "/" +++ "/" +++ Strings.Join B "/".
Proof.
  induction A as [|a A IH]; intros NA NB; [contradiction|].
  destruct A as [|a' A].
  - destruct B as [|b B]; [contradiction|]. reflexivity.
  - change (Strings.Join ((a :: a' :: A) ++ B) "/")
      with (a +++ "/" +++ Strings.Join ((a' :: A) ++ B) "/").
    rewrite IH by (auto; discriminate).
    change (Strings.Join (a :: a' :: A) "/")
      with (a +++ "/" +++ Strings.Join (a' :: A) "/").
    now rewrite !append_assoc.
Qed.

(** The path the second check expects is the path of the directory the
    loop has walked to, when the root is not the host's [/]. *)
Lemma full_path_ok (rootLoc : Loc) cp part :
  rootLoc <> [] ->
  Forall plain (components cp) -> part <> "" -> no_slash part ->
  Path.Join ["/"; cp; part] <> "/" ->
  OS.path_of_loc (rootLoc ++ components (Path.Join ["/"; cp; part]))
  = OS.path_of_loc rootLoc +++ Path.Join ["/"; cp; part].
Proof.
  intros NR F NE NS NJ.
  destruct (apply_part_good (components cp) part) as (G1 & G2 & G3).
  rewrite Join_apply_part in * by assumption.
  rewrite components_rooted
    by auto using components_no_slash, components_nonempty.
  assert (NC : apply_part (components cp) part <> []).
  { intros E. apply NJ. rewrite E. reflexivity. }
  unfold OS.path_of_loc. rewrite Join_app by assumption.
  now rewrite !append_assoc.
Qed.

End QuietFacts.

Section BodyQuiet.

Variable maxSymlinkLimit : nat.
Variable root : Handle.
Variable unsafePath : string.
Variable n0 : Handle.
Variable rootLoc : Loc.

Local Abbreviation body :=
  (loop_body maxSymlinkLimit root unsafePath (OS.path_of_loc rootLoc)).

Hypothesis root_below : rootLoc <> [].

(** An error of one iteration is no alarm and no missing file. *)
Lemma body_quiet_return w st w' st' err :
  own_inv n0 root rootLoc w st ->
  is_dir (host w) (rootLoc ++ components (Walk.currentPath st)) ->
  body w st = (w', Return st' (inl err)) ->
  errors_Is err errPossibleBreakout = false
  /\ errors_Is err errPossibleAttack = false
  /\ errors_Is err ErrNotExist = false.
Proof.
  intros [RL RO ND BD CU PL SK] DI H. unfold loop_body in H.
  destruct (next_part (Walk.remainingPath st)) as [part rest] eqn:EP.
  pose proof (proj1 (next_part_cases _ _ _ EP)) as NS.
  destruct (String.eqb_spec part "") as [->|N]; [discriminate|].
  assert (Bcur : n0 <= Walk.currentDir st < next_handle w)
    by (apply BD; left; reflexivity).
  assert (Bst : forall x, In x (map dir (Walk.symlinkStack st)) ->
                          n0 <= x < next_handle w)
    by (intros x I; apply BD; right; exact I).
  unfold held in ND.
  repeat (break_match_hyp H; try discriminate); subst; inv H.
  all: repeat match goal with
    | E : SymlinkStack.PopTopSymlink _ = _ |- _ =>
        apply PopTopSymlink_cases in E;
        destruct E as [(? & ? & ?)|(? & ? & ?)]; subst; try discriminate
    | E : Some _ = Some _ |- _ => inv E
    end.
  all: string_eqs.
  (* the broken stack and the link limit *)
  all: try solve
    [ match goal with
      | HP : SymlinkStack.PopPart _ _ _ = (_, _, Some _) |- _ =>
          let msg := fresh "msg" in
          destruct (PopPart_err_shape _ _ _ _ _ _ HP) as [msg ->];
          repeat split; reflexivity
      end
    | repeat split; reflexivity ].
  (* a name that could not be opened, other than by being absent *)
  all: try match goal with
    | HO : OS.openatFile _ _ _ = (_, inl ?e),
      HE : errors_Is ?e ErrNotExist = false |- _ =>
        let x := fresh "x" in
        destruct (openatFile_err_shape _ _ _ _ _ HO) as [x ->];
        split; [reflexivity|split; [reflexivity|exact HE]]
    end.
  all: learn_ev.
  all: unfold allocated in *;
    repeat match goal with
    | A : _ /\ _ |- _ => destruct A
    end.
  all: learn_next.
  all: try match goal with
    | D : map dir (Walk.symlinkStack _) = map dir ?s ++ ?drop |- _ =>
        rewrite D in ND, Bst, SK;
        destruct (held_split _ _ _ ND) as [NDs Xd];
        assert (Bs : forall z, In z (map dir s) -> n0 <= z < next_handle w)
          by (let z := fresh "z" in let J := fresh "J" in
              intros z J; apply Bst, in_or_app; auto);
        assert (Bd : forall z, In z drop -> n0 <= z < next_handle w)
          by (let z := fresh "z" in let J := fresh "J" in
              intros z J; apply Bst, in_or_app; auto);
        clear ND Bst SK D
    end.
  all: rewrite ?next_Close in *.
  all: try match goal with
    | T : open_target _ _ _ = inr _ |- _ =>
        pose proof (open_target_exists _ _ _ _ T) as TX;
        destruct (open_target_loc _ _ _ _ _ _ CU PL N NS ltac:(assumption) T)
          as [TL TP]
    end.
  (* a failed [SwapLink] *)
  all: try match goal with
    | HS : SymlinkStack.SwapLink _ _ _ _ _ _ = (_, _, Some _) |- _ =>
        let HB := fresh "HB" in
        destruct (SwapLink_err_kind _ _ _ _ _ _ _ _ _ HS) as [[? ->]|HB];
        [repeat split; reflexivity
        |exfalso; revert HB; stab; rewrite CU; discriminate]
    end.
  all: exfalso.
  all: first
    [ (* the root could not be duplicated *)
      match goal with
      | HD : OS.dupFile _ root = (_, inl _) |- _ =>
          apply dupFile_err_closed in HD; revert HD; stab; rewrite RO;
          discriminate
      end
    | (* the new handle could not be examined *)
      match goal with
      | HS : OS.Stat ?w1 ?n = (_, inl _),
        HL : OS.handle_loc ?w1 ?n = Some ?l,
        EV : evolves _ ?w1 _ |- _ =>
          let M := fresh "M" in
          pose proof (Stat_err_missing _ _ _ _ _ HS HL) as M;
          rewrite (proj1 EV) in M; exact (TX M)
      end
    | (* the root is where it was *)
      match goal with
      | HC : OS.checkProcSelfFdPath _ (OS.path_of_loc rootLoc) root
             = (?w4, Some _) |- _ =>
          let HRL := fresh "HRL" in
          assert (HRL : OS.handle_loc w4 root = Some rootLoc)
            by (stab; exact RO);
          destruct (checkProcSelfFdPath_err _ _ _ _ _ _ HC HRL) as [NE _];
          apply NE; reflexivity
      end
    | (* the new directory is where the logical path says *)
      match goal with
      | HC : OS.checkProcSelfFdPath _ _ ?n = (?w5, Some _),
        HL : OS.handle_loc _ ?n = Some ?l |- _ =>
          let HNL := fresh "HNL" in
          assert (HNL : OS.handle_loc w5 n = Some l) by (stab; exact HL);
          destruct (checkProcSelfFdPath_err _ _ _ _ _ _ HC HNL) as [NE _];
          apply NE; rewrite TL; apply full_path_ok; assumption
      end
    | (* a symlink can be read *)
      match goal with
      | HR : OS.readlinkatFile ?w3 ?cur _ = (_, inl _),
        T : open_target ?w0 _ _ = inr ?l,
        HS : OS.Stat ?w1 ?n = (_, inr ModeSymlink),
        HL : OS.handle_loc ?w1 ?n = Some ?l,
        EV : evolves ?w0 ?w1 _,
        EV2 : evolves ?w1 _ _ |- _ =>
          let t := fresh "t" in let HT := fresh "HT" in
          destruct (Stat_mode _ _ _ _ _ HS HL) as [t HT];
          rewrite (proj1 EV) in HT;
          assert (EH : host w3 = host w0)
            by (rewrite host_Close, (proj1 EV2), (proj1 EV); reflexivity);
          assert (EL : OS.handle_loc w3 cur = OS.handle_loc w0 cur)
            by (stab; reflexivity);
          pose proof (readlink_of_symlink _ _ _ _ _ _ T HT EH EL) as RR;
          rewrite HR in RR; discriminate RR
      end ].
Qed.

Lemma body_quiet_continue w st w' st' :
  own_inv n0 root rootLoc w st ->
  is_dir (host w) rootLoc ->
  is_dir (host w) (rootLoc ++ components (Walk.currentPath st)) ->
  body w st = (w', Continue st') ->
  host w' = host w
  /\ is_dir (host w') (rootLoc ++ components (Walk.currentPath st')).
Proof.
  intros OI DR DI H.
  destruct (body_evolves _ _ _ _ _ _ _ _ H) as (c & V & _).
  pose proof (proj1 V) as EH. split; [exact EH|]. rewrite EH.
  destruct OI as [RL RO ND BD CU PL SK]. unfold loop_body in H.
  destruct (next_part (Walk.remainingPath st)) as [part rest] eqn:EP.
  pose proof (proj1 (next_part_cases _ _ _ EP)) as NS.
  destruct (String.eqb_spec part "") as [->|N].
  { inv H. exact DI. }
  repeat (break_match_hyp H; try discriminate); subst; inv H.
  all: string_eqs.
  all: cbn [Walk.currentPath].
  all: try assumption.
  all: try (change (components "/") with (@nil string);
            rewrite app_nil_r; assumption).
  all: try match goal with
    | HJ : Path.Join _ = "/" |- _ =>
        rewrite HJ; change (components "/") with (@nil string);
        rewrite app_nil_r; assumption
    end.
  all: match goal with
    | HO : OS.openatFile _ _ _ = (?w1, inr ?n),
      HS : OS.Stat ?w1 ?n = (_, inr ModeDir) |- _ =>
        let l := fresh "l" in let T := fresh "T" in
        let HL := fresh "HL" in let EV := fresh "EV" in
        let es := fresh "es" in let HD := fresh "HD" in
        let TL := fresh "TL" in
        destruct (openatFile_ok _ _ _ _ _ HO) as (l & T & _ & _ & HL & EV);
        destruct (Stat_mode _ _ _ _ _ HS HL) as [es HD];
        rewrite (proj1 EV) in HD;
        destruct (open_target_loc _ _ _ _ _ _ CU PL N NS ltac:(assumption) T)
          as [TL _];
        rewrite <- TL; exists es; exact HD
    end.
Qed.

End BodyQuiet.

Section LoopQuiet.

Variable maxSymlinkLimit : nat.
Variable root : Handle.
Variable unsafePath : string.
Variable n0 : Handle.
Variable rootLoc : Loc.

Local Abbreviation walk :=
  (loop maxSymlinkLimit root unsafePath (OS.path_of_loc rootLoc)).

Hypothesis root_below : rootLoc <> [].

Lemma loop_quiet fuel : forall w st w' st' err,
  own_inv n0 root rootLoc w st ->
  is_dir (host w) rootLoc ->
  is_dir (host w) (rootLoc ++ components (Walk.currentPath st)) ->
  walk fuel w st = Some (w', st', inl err) ->
  errors_Is err errPossibleBreakout = false
  /\ errors_Is err errPossibleAttack = false
  /\ errors_Is err ErrNotExist = false.
Proof.
  induction fuel as [|fuel IH]; intros w st w' st' err OI DR DI H;
    [discriminate|].
  rewrite loop_unfold in H.
  destruct (Walk.remainingPath st =? "")%string; [discriminate|].
  destruct (loop_body _ _ _ _ w st) as [w1 [st1|st1 res1]] eqn:EB.
  - destruct (body_quiet_continue _ _ _ _ _ _ _ _ _ OI DR DI EB) as [EH DI1].
    eapply IH; [| |exact DI1|exact H].
    + eapply body_own_continue; eauto.
    + now rewrite EH.
  - inv H. eapply body_quiet_return; eauto.
Qed.

End LoopQuiet.

(** X16 (no alarm on a tree that does not change).  In a world whose open
    files all came from the allocator, with the root handle open on a
    directory other than the host's [/], an error of the call is never a
    possible-breakout error, never a possible-attack error and never a
    not-found error: neither path check finds the root or the current
    directory out of place, a component found to be a symlink is read as
    one, and a not-found answer of [openatFile] ends the call with a
    result, not with an error. *)
Theorem quiet_tree_errors :
  forall limit fuel w root path rootLoc w' err,
    world_ok w ->
    OS.handle_loc w root = Some rootLoc ->
    rootLoc <> [] ->
    is_dir (host w) rootLoc ->
    partialLookupInRoot limit fuel w root path = Some (w', inl err) ->
    errors_Is err errPossibleBreakout = false
    /\ errors_Is err errPossibleAttack = false
    /\ errors_Is err ErrNotExist = false.
Proof.
  intros limit fuel w root path rootLoc w' err OK HR NR DR H.
  unfold partialLookupInRoot in H.
  unfold OS.procSelfFdReadlink in H at 1. rewrite loc_emit, HR in H.
  rewrite dupFile_eq, loc_emit, HR in H.
  set (w2 := fst (OS.alloc (OS.emit (EvDup root)
                   (OS.emit (EvProcSelfFdReadlink root) w)) rootLoc)) in *.
  destruct (loop limit root path (OS.path_of_loc rootLoc) fuel w2 _)
    as [[[w3 st] res]|] eqn:EL; [|discriminate].
  inv H.
  change (next_handle (OS.emit (EvProcSelfFdReadlink root) w))
    with (next_handle w) in EL.
  assert (I : own_inv (next_handle w) root rootLoc w2
                (Walk.mk (next_handle w) [] 0 "" path)).
  { pose proof (loc_open_lt _ _ _ OK HR) as B.
    constructor; unfold held; simpl.
    - exact B.
    - unfold w2. rewrite loc_alloc, !next_emit, !loc_emit.
      destruct (Nat.eqb_spec (next_handle w) root); [lia|exact HR].
    - constructor; [intros []|constructor].
    - intros x [<-|[]]. lia.
    - unfold w2. rewrite loc_alloc, !next_emit, Nat.eqb_refl.
      now rewrite app_nil_r.
    - constructor.
    - intros x []. }
  eapply (loop_quiet limit root path (next_handle w) rootLoc NR fuel);
    [exact I|exact DR| |exact EL].
  cbn [Walk.currentPath]. change (components "") with (@nil string).
  rewrite app_nil_r. exact DR.
Qed.

Lemma quiet_tree_errors_witness :
  exists w' err,
    partialLookupInRoot 3 9 Examples.mutual_loop 0 "a" = Some (w', inl err)
    /\ errors_Is err errPossibleBreakout = false
    /\ errors_Is err errPossibleAttack = false
    /\ errors_Is err ErrNotExist = false.
Proof.
  destruct (partialLookupInRoot 3 9 Examples.mutual_loop 0 "a")
    as [[w' [err|r]]|] eqn:E; try (vm_compute in E; discriminate).
  assert (OK : world_ok Examples.mutual_loop).
  { intros x l [I|[]]. inv I. simpl. lia. }
  exists w', err. split; [reflexivity|].
  apply (quiet_tree_errors 3 9 Examples.mutual_loop 0 "a" ["r"] w' err OK
           eq_refl ltac:(discriminate) ltac:(eexists; reflexivity) E).
Defined.

(* ================================================================== *)
(** ** The parent directory, from the root *)
(* ================================================================== *)

(** The logical path after [..]. *)
Lemma Join_dotdot cp :
  Forall plain (components cp) ->
  Path.Join ["/"; cp; ".."] = "/" +++ Strings.Join (removelast (components cp)) "/"
  /\ components (Path.Join ["/"; cp; ".."]) = removelast (components cp)
  /\ Forall plain (components (Path.Join ["/"; cp; ".."]))
  /\ (Path.Join ["/"; cp; ".."] = "/" <-> removelast (components cp) = []).
Proof.
  intros F.
  destruct (apply_part_good (components cp) "..") as (G1 & G2 & G3).
  assert (NE : ".." <> "") by discriminate.
  assert (NS : no_slash "..") by reflexivity.
  assert (EA : apply_part (components cp) ".." = removelast (components cp))
    by reflexivity.
  rewrite EA in *.
  pose proof (G3 (components_nonempty cp) NE) as G3'.
  pose proof (G2 (components_no_slash cp) NS) as G2'.
  rewrite (Join_apply_part cp ".." F NE NS), EA.
  rewrite components_rooted by assumption.
  split; [reflexivity|]. split; [reflexivity|]. split; [auto|]. split.
  - intros E. now apply rooted_is_root in E.
  - intros ->. reflexivity.
Qed.

Section DotDot.

Variable maxSymlinkLimit : nat.
Variable root : Handle.
Variable unsafePath : string.
Variable rootLoc : Loc.

Local Abbreviation body :=
  (loop_body maxSymlinkLimit root unsafePath (OS.path_of_loc rootLoc)).

Lemma body_dotdot_common w cur lw cp rem rest es :
  next_part rem = ("..", rest) ->
  Forall plain (components cp) ->
  removelast (components cp) <> [] ->
  OS.handle_loc w cur = Some (rootLoc ++ components cp) ->
  OS.lookup (host w) (rootLoc ++ components cp) = Some (Dir es) ->
  OS.handle_loc w root = Some rootLoc ->
  root < cur -> cur < next_handle w ->
  body w (Walk.mk cur [] lw cp rem) =
  (let st' := Walk.mk (next_handle w) [] lw (Path.Join ["/"; cp; ".."]) rest in
   if (OS.path_of_loc (rootLoc ++ removelast (components cp))%list
       =? OS.path_of_loc rootLoc +++ Path.Join ["/"; cp; ".."])%string
   then (after_dotdot root rootLoc w cur cp, Continue st')
   else (after_dotdot root rootLoc w cur cp,
         Return st' (inl (Wrap "walking into part had unexpected result"
                            (Wrap "unexpected path for handle"
                               (Base errPossibleBreakout)))))).
Proof.
  intros EP F NL HL HK HR B1 B2.
  destruct (Join_dotdot cp F) as (EJ & EC & FP & ER).
  assert (NR : Path.Join ["/"; cp; ".."] <> "/") by (intros E; now apply ER in E).
  assert (NC : components cp <> []) by (intros E; rewrite E in NL; now apply NL).
  unfold loop_body. cbn [Walk.currentDir Walk.symlinkStack Walk.linksWalked
                          Walk.currentPath Walk.remainingPath].
  rewrite EP. cbn [String.eqb Ascii.eqb Bool.eqb].
  destruct (String.eqb_spec (Path.Join ["/"; cp; ".."]) "/"); [contradiction|].
  rewrite openatFile_eq. unfold open_target. rewrite HL, HK.
  cbn [String.eqb Ascii.eqb Bool.eqb].
  rewrite Stat_new.
  destruct (lookup_removelast _ _ _ HK) as [es' HD]. rewrite HD.
  cbn [SymlinkStack.PopPart SymlinkStack.popPart SymlinkStack.IsEmpty length
       Nat.eqb errors_Is Sentinel_eqb].
  set (w3 := OS.Close _ cur).
  assert (R3 : OS.handle_loc w3 root = Some rootLoc).
  { unfold w3. rewrite loc_Close. destruct (Nat.eqb_spec root cur); [lia|].
    rewrite loc_emit, loc_alloc, next_emit, loc_emit.
    destruct (Nat.eqb_spec (next_handle w) root); [lia|exact HR]. }
  assert (N3 : OS.handle_loc w3 (next_handle w)
               = Some (rootLoc ++ removelast (components cp))).
  { unfold w3. rewrite loc_after_enter by exact B2.
    now rewrite removelast_app. }
  unfold OS.checkProcSelfFdPath at 1. rewrite loc_emit, R3, String.eqb_refl.
  unfold OS.checkProcSelfFdPath. rewrite !loc_emit, N3.
  unfold after_dotdot. fold w3.
  destruct (OS.path_of_loc (rootLoc ++ removelast (components cp))%list
            =? OS.path_of_loc rootLoc +++ Path.Join ["/"; cp; ".."])%string;
    reflexivity.
Qed.

(** One iteration on a [..] that folds the logical path to the root. *)
Lemma body_dotdot_jump w cur lw cp rem rest :
  next_part rem = ("..", rest) ->
  Forall plain (components cp) ->
  removelast (components cp) = [] ->
  OS.handle_loc w root = Some rootLoc ->
  body w (Walk.mk cur [] lw cp rem) =
  (OS.Close (fst (OS.alloc (OS.emit (EvDup root) w) rootLoc)) cur,
   Continue (Walk.mk (next_handle w) [] lw "/" rest)).
Proof.
  intros EP F NL HR.
  destruct (Join_dotdot cp F) as (_ & _ & _ & ER).
  apply ER in NL.
  unfold loop_body. cbn [Walk.currentDir Walk.symlinkStack Walk.linksWalked
                          Walk.currentPath Walk.remainingPath].
  rewrite EP. cbn [String.eqb Ascii.eqb Bool.eqb]. rewrite NL.
  cbn [String.eqb Ascii.eqb Bool.eqb SymlinkStack.PopPart SymlinkStack.popPart
       SymlinkStack.IsEmpty length Nat.eqb errors_Is Sentinel_eqb].
  rewrite dupFile_eq, HR. reflexivity.
Qed.

End DotDot.

Lemma string_not_cons (s : string) a : s <> String a s.
Proof.
  intros E. apply (f_equal String.length) in E. simpl in E. lia.
Qed.

(** X17 ([..] goes up, inside the root).  With the root handle open on a
    directory other than the host's [/], a request that walks down
    existing directories and ends in [..] returns, without an error, a
    handle on the parent of the last directory, and on the root itself when
    there is no directory or one to go up from: it never leaves the root. *)
Theorem dotdot_goes_up :
  forall limit fuel w root rootLoc names es,
    world_ok w ->
    OS.handle_loc w root = Some rootLoc ->
    rootLoc <> [] ->
    Forall name_ok names ->
    OS.lookup (host w) (rootLoc ++ names) = Some (Dir es) ->
    length names + 1 < fuel ->
    exists w' h,
      partialLookupInRoot limit fuel w root (flat names +++ "..")
        = Some (w', inr (h, ""))
      /\ OS.handle_loc w' h = Some (rootLoc ++ removelast names).
Proof.
  intros limit fuel w root rootLoc names es OK HR NR FN HK LF.
  replace fuel with (length names + S (S (fuel - length names - 2))) by lia.
  destruct (lookup_descend limit w root rootLoc names es
              (S (S (fuel - length names - 2))) ".." HR FN HK)
    as (w2 & cur & cp & E & H1 & H2 & H3 & H4 & H5 & H6 & H7).
  pose proof (loc_open_lt _ _ _ OK HR) as BR.
  assert (R2 : OS.handle_loc w2 root = Some rootLoc) by (rewrite H7; auto).
  rewrite E, loop_unfold. cbn [Walk.remainingPath String.eqb].
  assert (EP : next_part ".." = ("..", "")) by reflexivity.
  rewrite <- H4 in *. rewrite <- H1 in HK.
  destruct (list_eq_dec string_dec (removelast (components cp)) []) as [NL|NL].
  - rewrite (body_dotdot_jump _ _ _ _ _ _ _ _ _ _ EP H5 NL R2).
    rewrite loop_unfold. cbn [Walk.remainingPath String.eqb deferred
                               Walk.symlinkStack SymlinkStack.Close Walk.currentDir].
    do 2 eexists. split; [reflexivity|]. rewrite NL, app_nil_r, loc_Close.
    destruct (Nat.eqb_spec (next_handle w2) cur); [lia|].
    rewrite loc_alloc, next_emit, Nat.eqb_refl. reflexivity.
  - rewrite (body_dotdot_common _ _ _ _ _ _ _ _ _ _ _ EP H5 NL H2 HK R2
               ltac:(lia) H3).
    destruct (Join_dotdot cp H5) as (_ & EC & _ & ER).
    assert (NJ : Path.Join ["/"; cp; ".."] <> "/") by (intros J; now apply ER in J).
    pose proof (full_path_ok rootLoc cp ".." NR H5 ltac:(discriminate)
                  eq_refl NJ) as FP.
    rewrite EC in FP. rewrite FP, String.eqb_refl. cbv beta iota zeta.
    rewrite loop_unfold. cbn [Walk.remainingPath String.eqb deferred
                               Walk.symlinkStack SymlinkStack.Close Walk.currentDir].
    do 2 eexists. split; [reflexivity|].
    unfold after_dotdot. rewrite !loc_emit, loc_after_enter by exact H3.
    apply f_equal, removelast_app.
    intros EN. rewrite EN in NL. now apply NL.
Qed.

Lemma dotdot_goes_up_witness :
  exists w' h,
    partialLookupInRoot 255 4
      (Examples.world_r [("a", Dir [("b", Dir [])])]) 0 "a/b/.."
      = Some (w', inr (h, ""))
    /\ OS.handle_loc w' h = Some (["r"] ++ ["a"]).
Proof.
  assert (OK : world_ok (Examples.world_r [("a", Dir [("b", Dir [])])])).
  { intros x l [I|[]]. inv I. simpl. lia. }
  apply (dotdot_goes_up 255 4
           (Examples.world_r [("a", Dir [("b", Dir [])])]) 0 ["r"] ["a"; "b"] []
           OK).
  - reflexivity.
  - discriminate.
  - repeat constructor; discriminate.
  - reflexivity.
  - simpl. lia.
Defined.

(** X18 ([..] under a root that is the host's [/]).  When the root handle
    is open on the host's [/] itself, a [..] that is opened two or more
    directories down fails the check of the new current directory, although
    nothing moved: the path expected is the root's path followed by the
    logical path, which then starts with two slashes.  The call returns an
    error that is a possible-breakout one. *)
Theorem dotdot_under_host_root_rejected :
  forall limit fuel w root names es tail rest,
    world_ok w ->
    OS.handle_loc w root = Some [] ->
    Forall name_ok names ->
    2 <= length names ->
    OS.lookup (host w) names = Some (Dir es) ->
    next_part tail = ("..", rest) ->
    length names < fuel ->
    exists w' err,
      partialLookupInRoot limit fuel w root (flat names +++ tail)
        = Some (w', inl err)
      /\ errors_Is err errPossibleBreakout = true.
Proof.
  intros limit fuel w root names es tail rest OK HR FN L2 HK EP LF.
  replace fuel with (length names + S (fuel - length names - 1)) by lia.
  destruct (lookup_descend limit w root [] names es
              (S (fuel - length names - 1)) tail HR FN HK)
    as (w2 & cur & cp & E & H1 & H2 & H3 & H4 & H5 & H6 & H7).
  pose proof (loc_open_lt _ _ _ OK HR) as BR.
  assert (R2 : OS.handle_loc w2 root = Some []) by (rewrite H7; auto).
  rewrite E, loop_unfold. cbn [Walk.remainingPath].
  rewrite (next_part_nonempty _ _ _ EP ltac:(discriminate)).
  rewrite <- H4 in *. rewrite <- H1 in HK.
  assert (NL : removelast (components cp) <> []).
  { destruct (components cp) as [|a [|b C]]; simpl in L2; try lia. discriminate. }
  rewrite (body_dotdot_common _ _ _ _ _ _ _ _ _ _ _ EP H5 NL H2 HK R2
             ltac:(lia) H3).
  destruct (Join_dotdot cp H5) as (EJ & _).
  assert (NEQ : (OS.path_of_loc ([] ++ removelast (components cp))%list
                 =? OS.path_of_loc [] +++ Path.Join ["/"; cp; ".."])%string
                = false).
  { apply String.eqb_neq. rewrite EJ. unfold OS.path_of_loc. simpl.
    apply string_not_cons. }
  rewrite NEQ. cbv beta iota zeta. do 2 eexists. split; reflexivity.
Qed.

Lemma dotdot_under_host_root_rejected_witness :
  exists w' err,
    partialLookupInRoot 255 3
      (mkWorld (Dir [("a", Dir [("b", Dir [])])]) [(0, [])] 1 []) 0 "a/b/.."
      = Some (w', inl err)
    /\ errors_Is err errPossibleBreakout = true.
Proof.
  assert (OK : world_ok (mkWorld (Dir [("a", Dir [("b", Dir [])])])
                           [(0, [])] 1 [])).
  { intros x l [I|[]]. inv I. simpl. lia. }
  apply (dotdot_under_host_root_rejected 255 3
           (mkWorld (Dir [("a", Dir [("b", Dir [])])]) [(0, [])] 1 []) 0
           ["a"; "b"] [] ".." "" OK).
  - reflexivity.
  - repeat constructor; discriminate.
  - simpl. lia.
  - reflexivity.
  - reflexivity.
  - simpl. lia.
Defined.

(* ================================================================== *)
(** ** Following a symlink *)
(* ================================================================== *)

Section Follow.

Variable maxSymlinkLimit : nat.
Variable root : Handle.
Variable unsafePath : string.
Variable logicalRootPath : string.
Variable rootLoc : Loc.

Local Abbreviation body := (loop_body maxSymlinkLimit root unsafePath logicalRootPath).
Local Abbreviation walk := (loop maxSymlinkLimit root unsafePath logicalRootPath).

(** One iteration on a name that is a directory, the first unwalked
    component of the only stack entry. *)
Lemma body_enter_dir_link w cur lw cp rem c rest es d r more :
  next_part rem = (c, rest) ->
  name_ok c ->
  Forall plain (components cp) ->
  OS.handle_loc w cur = Some (rootLoc ++ components cp) ->
  OS.lookup (host w) ((rootLoc ++ components cp) ++ [c]) = Some (Dir es) ->
  body w (Walk.mk cur [mkEntry d r (c :: more)] lw cp rem) =
  (match more with
   | [] => OS.Close (after_enter w cur c ((rootLoc ++ components cp) ++ [c])) d
   | _ :: _ => after_enter w cur c ((rootLoc ++ components cp) ++ [c])
   end,
   Continue (Walk.mk (next_handle w)
               match more with
               | [] => []
               | _ :: _ => [mkEntry d r more]
               end
               lw (Path.Join ["/"; cp; c]) rest)).
Proof.
  intros EP NO F HL HK. pose proof NO as (NE & NS & P).
  destruct (Join_name cp c F NO) as (NR & _ & _).
  unfold loop_body. cbn [Walk.currentDir Walk.symlinkStack Walk.linksWalked
                          Walk.currentPath Walk.remainingPath].
  rewrite EP.
  destruct (String.eqb_spec c ""); [contradiction|].
  destruct (String.eqb_spec (Path.Join ["/"; cp; c]) "/"); [contradiction|].
  pose proof HK as HK'. rewrite lookup_snoc in HK'.
  destruct (OS.lookup (host w) (rootLoc ++ components cp)) as [[es0| |]|] eqn:ED;
    try discriminate.
  rewrite openatFile_eq, (open_target_name _ _ _ _ _ HL ED P), HK'.
  rewrite Stat_new, HK.
  unfold SymlinkStack.PopPart.
  change [mkEntry d r (c :: more)] with ([] ++ [mkEntry d r (c :: more)]).
  rewrite popPart_snoc. cbn [linkUnwalked]. rewrite String.eqb_refl.
  rewrite cleanup_spec. unfold consume_head. cbn [dir remainingPath linkUnwalked tl app].
  destruct P as [_ P2]. destruct (String.eqb_spec c ".."); [contradiction|].
  destruct more as [|c' more]; reflexivity.
Qed.

(** The loop walks down the directories a link names, and drops the
    link's entry after the last of them. *)
Lemma loop_enter_dirs_link : forall names w cur lw cp tail fuel es d r,
  names <> [] ->
  Forall name_ok names ->
  Forall plain (components cp) ->
  OS.handle_loc w cur = Some (rootLoc ++ components cp) ->
  cur < next_handle w ->
  d < next_handle w ->
  OS.lookup (host w) ((rootLoc ++ components cp) ++ names) = Some (Dir es) ->
  exists w' cur' cp',
    walk (length names + fuel) w
      (Walk.mk cur [mkEntry d r names] lw cp (flat names +++ tail))
    = walk fuel w' (Walk.mk cur' [] lw cp' tail)
    /\ host w' = host w
    /\ OS.handle_loc w' cur' = Some (rootLoc ++ components cp')
    /\ cur' < next_handle w'
    /\ components cp' = components cp ++ names
    /\ Forall plain (components cp').
Proof.
  induction names as [|c more IH];
    intros w cur lw cp tail fuel es d r NN FN FP HL B Bd HK; [contradiction|].
  inversion FN as [|? ? NO FN']; subst.
  assert (EF : flat (c :: more) +++ tail = c +++ "/" +++ flat more +++ tail).
  { simpl. now rewrite !append_assoc. }
  rewrite EF. cbn [length Nat.add]. rewrite loop_unfold.
  cbn [Walk.remainingPath]. rewrite seg_not_empty.
  assert (HK1 : OS.lookup (host w) (((rootLoc ++ components cp) ++ [c]) ++ more)
                = Some (Dir es)) by (rewrite <- app_assoc; exact HK).
  destruct (lookup_prefix_dir _ _ _ _ HK1) as [es1 HD].
  assert (EP : next_part (c +++ "/" +++ flat more +++ tail)
               = (c, flat more +++ tail))
    by (apply next_part_seg, NO).
  rewrite (body_enter_dir_link _ _ _ _ _ _ _ _ _ _ _ EP NO FP HL HD).
  destruct (Join_name cp c FP NO) as (_ & EC & FP1).
  set (l := (rootLoc ++ components cp) ++ [c]) in *.
  assert (LN : OS.handle_loc (after_enter w cur c l) (next_handle w) = Some l)
    by (apply loc_after_enter, B).
  destruct more as [|c' m].
  - exists (OS.Close (after_enter w cur c l) d), (next_handle w),
      (Path.Join ["/"; cp; c]).
    split; [reflexivity|]. split; [reflexivity|]. split.
    { rewrite loc_Close. destruct (Nat.eqb_spec (next_handle w) d); [lia|].
      rewrite LN, EC. unfold l. now rewrite app_assoc. }
    split; [simpl; lia|]. split; [exact EC|exact FP1].
  - destruct (IH (after_enter w cur c l) (next_handle w) lw
                (Path.Join ["/"; cp; c]) tail fuel es d r
                ltac:(discriminate) FN' FP1)
      as (w' & cur' & cp' & E & H1 & H2 & H3 & H4 & H5).
    + rewrite EC, app_assoc. exact LN.
    + simpl. lia.
    + simpl. lia.
    + rewrite EC, app_assoc. exact HK1.
    + exists w', cur', cp'. split; [exact E|].
      split; [exact H1|]. split; [exact H2|]. split; [exact H3|].
      split; [|exact H5]. rewrite H4, EC, <- app_assoc. reflexivity.
Qed.

(** The handles handed out before a component was opened and closed
    again are where they were. *)
Lemma loc_opened_closed w ev1 ev2 l h :
  h < next_handle w ->
  OS.handle_loc
    (OS.Close (OS.emit ev1 (fst (OS.alloc (OS.emit ev2 w) l))) (next_handle w)) h
  = OS.handle_loc w h.
Proof.
  intros B. rewrite loc_Close. destruct (Nat.eqb_spec h (next_handle w)); [lia|].
  rewrite loc_emit, loc_alloc, next_emit, loc_emit.
  destruct (Nat.eqb_spec (next_handle w) h); [lia|reflexivity].
Qed.

Lemma loc_after_link w cur c l lcur h :
  h < next_handle w ->
  OS.handle_loc (after_link w cur c l lcur) h = OS.handle_loc w h.
Proof.
  intros B. unfold after_link. rewrite loc_alloc.
  cbn [next_handle OS.emit OS.Close OS.alloc fst].
  destruct (Nat.eqb_spec (S (next_handle w)) h); [lia|].
  rewrite !loc_emit. now apply loc_opened_closed.
Qed.

(** One iteration on a name that is a symlink, outside any link. *)
Lemma body_follow_link w cur lw cp rem link rest es target :
  next_part rem = (link, rest) ->
  name_ok link ->
  Forall plain (components cp) ->
  OS.handle_loc w cur = Some (rootLoc ++ components cp) ->
  OS.lookup (host w) (rootLoc ++ components cp) = Some (Dir es) ->
  OS.find_entry link es = Some (Symlink target) ->
  lw + 1 <= maxSymlinkLimit ->
  components target <> [] ->
  cur < next_handle w ->
  OS.handle_loc w root = Some rootLoc ->
  root < next_handle w ->
  body w (Walk.mk cur [] lw cp rem) =
  (let W := after_link w cur link ((rootLoc ++ components cp) ++ [link])
              (rootLoc ++ components cp) in
   let stk := [mkEntry (S (next_handle w)) rem (components target)] in
   if Path.IsAbs target then
     (OS.Close (fst (OS.alloc (OS.emit (EvDup root) W) rootLoc)) cur,
      Continue (Walk.mk (S (S (next_handle w))) stk (lw + 1) "/"
                  (target +++ "/" +++ rest)))
   else
     (W, Continue (Walk.mk cur stk (lw + 1) cp (target +++ "/" +++ rest)))).
Proof.
  intros EP NO F HL HK HF LL NT B HR BR. pose proof NO as (NE & NS & P).
  destruct (Join_name cp link F NO) as (NR & _ & _).
  unfold loop_body. cbn [Walk.currentDir Walk.symlinkStack Walk.linksWalked
                          Walk.currentPath Walk.remainingPath].
  rewrite EP.
  destruct (String.eqb_spec link ""); [contradiction|].
  destruct (String.eqb_spec (Path.Join ["/"; cp; link]) "/"); [contradiction|].
  rewrite openatFile_eq, (open_target_name _ _ _ _ _ HL HK P), HF.
  rewrite Stat_new, lookup_snoc, HK, HF.
  set (W1 := OS.Close (OS.emit (EvStat (next_handle w))
                         (fst (OS.alloc (OS.emit (EvOpenat cur link) w)
                                 ((rootLoc ++ components cp) ++ [link]))))
               (next_handle w)).
  assert (C1 : OS.handle_loc W1 cur = Some (rootLoc ++ components cp))
    by (unfold W1; rewrite loc_opened_closed by exact B; exact HL).
  unfold OS.readlinkatFile. rewrite loc_emit, C1.
  change (host (OS.emit (EvReadlinkat cur link) W1)) with (host w).
  rewrite HK. destruct P as [P1 P2].
  destruct (String.eqb_spec link "."); [contradiction|].
  destruct (String.eqb_spec link ".."); [contradiction|].
  cbn [orb]. rewrite HF.
  destruct (Nat.ltb_spec maxSymlinkLimit (lw + 1)) as [LT|_]; [lia|].
  unfold SymlinkStack.SwapLink.
  cbn [SymlinkStack.popPart SymlinkStack.IsEmpty length Nat.eqb errors_Is
       Sentinel_eqb negb].
  unfold SymlinkStack.push. fold (components target).
  destruct (components target) as [|t0 ts] eqn:ET; [contradiction|].
  cbn [length Nat.eqb]. rewrite dupFile_eq, loc_emit, C1.
  cbn [app].
  change (fst (OS.alloc (OS.emit (EvDup cur) (OS.emit (EvReadlinkat cur link) W1))
                 (rootLoc ++ components cp)))
    with (after_link w cur link ((rootLoc ++ components cp) ++ [link])
            (rootLoc ++ components cp)).
  change (next_handle (OS.emit (EvReadlinkat cur link) W1))
    with (next_handle W1).
  change (next_handle W1) with (S (next_handle w)).
  destruct (Path.IsAbs target); [|reflexivity].
  rewrite dupFile_eq, loc_after_link by exact BR. rewrite HR. reflexivity.
Qed.

End Follow.

Lemma flat_Join (A : list string) :
  A <> [] -> Strings.Join A "/" +++ "/" = flat A.
Proof.
  induction A as [|a A IH]; intros N; [contradiction|].
  destruct A as [|b A]; [reflexivity|].
  change (Strings.Join (a :: b :: A) "/")
    with (a +++ "/" +++ Strings.Join (b :: A) "/").
  rewrite !append_assoc, IH by discriminate. reflexivity.
Qed.

Lemma components_Join_names (A : list string) :
  A <> [] -> Forall name_ok A -> components (Strings.Join A "/") = A.
Proof.
  intros N F. rewrite components_filter, Split_Join.
  - apply filter_nonempty_id. eapply Forall_impl; [|exact F].
    intros c H. apply H.
  - exact N.
  - eapply Forall_impl; [|exact F]. intros c H. apply H.
Qed.

Lemma IsAbs_Join_names (A : list string) :
  Forall name_ok A -> Path.IsAbs (Strings.Join A "/") = false.
Proof.
  intros F. destruct A as [|a A]; [reflexivity|].
  inversion F as [|? ? (NE & NS & _) _]; subst.
  assert (H : exists x s, a = String x s /\ x <> "/"%char).
  { destruct a as [|x s]; [contradiction|]. exists x, s. split; [reflexivity|].
    apply no_slash_cons in NS. apply NS. }
  destruct H as (x & s & -> & NX).
  destruct A; simpl; destruct (Ascii.eqb_spec x "/"); congruence.
Qed.

(** X19 (a relative symlink).  When the request leads through existing
    directories to a symlink whose target is a relative path of names, and
    those names lead from the symlink's directory through existing
    directories, the call follows the link: it returns, without an error, a
    handle on the directory the target names, and an empty remaining
    path. *)
Theorem relative_symlink_followed :
  forall limit fuel w root rootLoc names es link tnames es',
    world_ok w ->
    OS.handle_loc w root = Some rootLoc ->
    1 <= limit ->
    Forall name_ok names ->
    OS.lookup (host w) (rootLoc ++ names) = Some (Dir es) ->
    name_ok link ->
    OS.find_entry link es = Some (Symlink (Strings.Join tnames "/")) ->
    tnames <> [] ->
    Forall name_ok tnames ->
    OS.lookup (host w) (rootLoc ++ names ++ tnames) = Some (Dir es') ->
    length names + length tnames + 1 < fuel ->
    exists w' h,
      partialLookupInRoot limit fuel w root (flat names +++ link)
        = Some (w', inr (h, ""))
      /\ OS.handle_loc w' h = Some (rootLoc ++ names ++ tnames).
Proof.
  intros limit fuel w root rootLoc names es link tnames es'
    OK HR L1 FN HK NO HF NT FT HK' LF.
  set (f := fuel - length names - length tnames - 2).
  replace fuel with (length names + S (length tnames + S f)) by (unfold f; lia).
  destruct (lookup_descend limit w root rootLoc names es
              (S (length tnames + S f)) link HR FN HK)
    as (w2 & cur & cp & E & H1 & H2 & H3 & H4 & H5 & H6 & H7).
  pose proof (loc_open_lt _ _ _ OK HR) as BR.
  assert (R2 : OS.handle_loc w2 root = Some rootLoc) by (rewrite H7; auto).
  rewrite E, loop_unfold. cbn [Walk.remainingPath].
  pose proof NO as (NE & NS & P).
  destruct (String.eqb_spec link ""); [contradiction|].
  assert (EP : next_part link = (link, "")) by (unfold next_part; now rewrite NS).
  rewrite <- H4 in *. rewrite <- H1 in HK, HK'.
  rewrite (body_follow_link limit root _ _ rootLoc w2 cur 0 cp link link ""
             es (Strings.Join tnames "/") EP NO H5 H2 HK HF)
    by (try rewrite components_Join_names by assumption; auto; lia).
  rewrite components_Join_names, IsAbs_Join_names by assumption.
  cbv beta iota zeta. rewrite flat_Join by assumption.
  rewrite <- (append_nil_r (flat tnames)).
  set (W := after_link w2 cur link ((rootLoc ++ components cp) ++ [link])
              (rootLoc ++ components cp)).
  destruct (loop_enter_dirs_link limit root (flat (components cp) +++ link)
              (OS.path_of_loc rootLoc) rootLoc tnames W cur (0 + 1) cp ""
              (S f) es' (S (next_handle w2)) link NT FT H5)
    as (w' & cur' & cp' & E' & G1 & G2 & G3 & G4 & G5).
  - unfold W. rewrite loc_after_link by exact H3. exact H2.
  - unfold W. simpl. lia.
  - unfold W. simpl. lia.
  - rewrite <- app_assoc. exact HK'.
  - rewrite E', loop_unfold.
    cbn [Walk.remainingPath String.eqb deferred Walk.symlinkStack
         SymlinkStack.Close Walk.currentDir].
    exists w', cur'. split; [reflexivity|]. rewrite G2, G4. reflexivity.
Qed.

Lemma relative_symlink_followed_witness :
  exists w' h,
    partialLookupInRoot 255 5
      (Examples.world_r [("d", Dir [("l", Symlink "t/u");
                                    ("t", Dir [("u", Dir [])])])]) 0 "d/l"
      = Some (w', inr (h, ""))
    /\ OS.handle_loc w' h = Some (["r"] ++ ["d"] ++ ["t"; "u"]).
Proof.
  assert (OK : world_ok (Examples.world_r
                [("d", Dir [("l", Symlink "t/u"); ("t", Dir [("u", Dir [])])])])).
  { intros x l [I|[]]. inv I. simpl. lia. }
  apply (relative_symlink_followed 255 5 _ 0 ["r"] ["d"]
           [("l", Symlink "t/u"); ("t", Dir [("u", Dir [])])] "l" ["t"; "u"] []
           OK).
  - reflexivity.
  - lia.
  - repeat constructor; discriminate.
  - reflexivity.
  - repeat constructor; discriminate.
  - reflexivity.
  - discriminate.
  - repeat constructor; discriminate.
  - reflexivity.
  - simpl. lia.
Defined.

(** X20 (an absolute symlink).  When the request leads through existing
    directories to a symlink whose target is an absolute path of names,
    the target is resolved from the root handle's directory, not from the
    host's [/]: if the names lead from the root through existing
    directories, the call returns, without an error, a handle on the
    directory they name below the root, and an empty remaining path. *)
Theorem absolute_symlink_stays_in_root :
  forall limit fuel w root rootLoc names es link tnames es',
    world_ok w ->
    OS.handle_loc w root = Some rootLoc ->
    1 <= limit ->
    Forall name_ok names ->
    OS.lookup (host w) (rootLoc ++ names) = Some (Dir es) ->
    name_ok link ->
    OS.find_entry link es = Some (Symlink ("/" +++ Strings.Join tnames "/")) ->
    tnames <> [] ->
    Forall name_ok tnames ->
    OS.lookup (host w) (rootLoc ++ tnames) = Some (Dir es') ->
    length names + length tnames + 2 < fuel ->
    exists w' h,
      partialLookupInRoot limit fuel w root (flat names +++ link)
        = Some (w', inr (h, ""))
      /\ OS.handle_loc w' h = Some (rootLoc ++ tnames).
Proof.
  intros limit fuel w root rootLoc names es link tnames es'
    OK HR L1 FN HK NO HF NT FT HK' LF.
  set (f := fuel - length names - length tnames - 3).
  replace fuel with (length names + S (1 + (length tnames + S f)))
    by (unfold f; lia).
  destruct (lookup_descend limit w root rootLoc names es
              (S (1 + (length tnames + S f))) link HR FN HK)
    as (w2 & cur & cp & E & H1 & H2 & H3 & H4 & H5 & H6 & H7).
  pose proof (loc_open_lt _ _ _ OK HR) as BR.
  assert (R2 : OS.handle_loc w2 root = Some rootLoc) by (rewrite H7; auto).
  rewrite E, loop_unfold. cbn [Walk.remainingPath].
  pose proof NO as (NE & NS & P).
  destruct (String.eqb_spec link ""); [contradiction|].
  assert (EP : next_part link = (link, "")) by (unfold next_part; now rewrite NS).
  rewrite <- H4 in *. rewrite <- H1 in HK, HK'.
  assert (CT : components ("/" +++ Strings.Join tnames "/") = tnames)
    by (change ("/" +++ Strings.Join tnames "/")
          with (String "/" (Strings.Join tnames "/"));
        rewrite components_slash; now apply components_Join_names).
  rewrite (body_follow_link limit root _ _ rootLoc w2 cur 0 cp link link ""
             es ("/" +++ Strings.Join tnames "/") EP NO H5 H2 HK HF)
    by (try rewrite CT; auto; lia).
  rewrite CT. cbn [Path.IsAbs String.append Ascii.eqb Bool.eqb].
  cbv beta iota zeta.
  change (String "/" (Strings.Join tnames "/" +++ String "/" ""))
    with (slashes 1 +++ (Strings.Join tnames "/" +++ "/")).
  rewrite loop_skip_slashes, flat_Join by assumption.
  rewrite <- (append_nil_r (flat tnames)).
  set (W := after_link w2 cur link ((rootLoc ++ components cp) ++ [link])
              (rootLoc ++ components cp)).
  set (W3 := OS.Close (fst (OS.alloc (OS.emit (EvDup root) W) rootLoc)) cur).
  destruct (loop_enter_dirs_link limit root (flat (components cp) +++ link)
              (OS.path_of_loc rootLoc) rootLoc tnames W3
              (S (S (next_handle w2))) (0 + 1) "/" "" (S f) es'
              (S (next_handle w2)) link NT FT)
    as (w' & cur' & cp' & E' & G1 & G2 & G3 & G4 & G5).
  - constructor.
  - unfold W3. rewrite loc_Close.
    destruct (Nat.eqb_spec (S (S (next_handle w2))) cur); [lia|].
    rewrite loc_alloc. change (next_handle (OS.emit (EvDup root) W))
      with (S (S (next_handle w2))).
    rewrite Nat.eqb_refl. change (components "/") with (@nil string).
    now rewrite app_nil_r.
  - unfold W3, W. simpl. lia.
  - unfold W3, W. simpl. lia.
  - change (components "/") with (@nil string). rewrite app_nil_r. exact HK'.
  - rewrite E', loop_unfold.
    cbn [Walk.remainingPath String.eqb deferred Walk.symlinkStack
         SymlinkStack.Close Walk.currentDir].
    exists w', cur'. split; [reflexivity|]. rewrite G2, G4. reflexivity.
Qed.

Lemma absolute_symlink_stays_in_root_witness :
  exists w' h,
    partialLookupInRoot 255 5
      (mkWorld (Dir [("etc", Dir []);
                     ("r", Dir [("l", Symlink "/etc"); ("etc", Dir [])])])
         [(0, ["r"])] 1 []) 0 "l"
      = Some (w', inr (h, ""))
    /\ OS.handle_loc w' h = Some (["r"] ++ ["etc"]).
Proof.
  assert (OK : world_ok
                 (mkWorld (Dir [("etc", Dir []);
                                ("r", Dir [("l", Symlink "/etc"); ("etc", Dir [])])])
                    [(0, ["r"])] 1 [])).
  { intros x l [I|[]]. inv I. simpl. lia. }
  apply (absolute_symlink_stays_in_root 255 5 _ 0 ["r"] []
           [("l", Symlink "/etc"); ("etc", Dir [])] "l" ["etc"] [] OK).
  - reflexivity.
  - lia.
  - constructor.
  - reflexivity.
  - repeat constructor; discriminate.
  - reflexivity.
  - discriminate.
  - repeat constructor; discriminate.
  - reflexivity.
  - simpl. lia.
Defined.

(** One iteration on a name that the directory does not have, inside a
    link: the oldest entry is the result. *)
Lemma body_missing_in_link limit root path lrp rootLoc
  w cur lw cp rem c rest es e stk :
  next_part rem = (c, rest) ->
  name_ok c ->
  fits c ->
  Forall plain (components cp) ->
  OS.handle_loc w cur = Some (rootLoc ++ components cp) ->
  OS.lookup (host w) (rootLoc ++ components cp) = Some (Dir es) ->
  OS.find_entry c es = None ->
  loop_body limit root path lrp w (Walk.mk cur (e :: stk) lw cp rem) =
  (OS.Close (OS.emit (EvOpenat cur c) w) cur,
   Return (Walk.mk cur stk lw cp (remainingPath e))
     (inr (dir e, remainingPath e))).
Proof.
  intros EP NO FI F HL HK HF. pose proof NO as (NE & NS & P).
  destruct (Join_name cp c F NO) as (NR & _ & _).
  unfold loop_body. cbn [Walk.currentDir Walk.symlinkStack Walk.linksWalked
                          Walk.currentPath Walk.remainingPath].
  rewrite EP.
  destruct (String.eqb_spec c ""); [contradiction|].
  destruct (String.eqb_spec (Path.Join ["/"; cp; c]) "/"); [contradiction|].
  rewrite openatFile_eq, (open_target_name _ _ _ _ _ HL HK P), HF.
  rewrite (openat_errno_fits c NE FI). reflexivity.
Qed.

(** X21 (a dangling symlink).  When the request leads through existing
    directories to a symlink whose target is a relative path of names, the
    first of which its directory does not have and is a name a directory
    can hold (no NUL byte, at most [NAME_MAX] bytes), the call returns,
    without an error, a handle on the symlink's directory, a duplicate made
    when the link was entered, and as remaining path the request from the
    symlink's name on: the link is reported as the missing component. *)
Theorem dangling_symlink_reported_at_link :
  forall limit fuel w root rootLoc names es tail link rest t0 ts,
    world_ok w ->
    OS.handle_loc w root = Some rootLoc ->
    1 <= limit ->
    Forall name_ok names ->
    OS.lookup (host w) (rootLoc ++ names) = Some (Dir es) ->
    next_part tail = (link, rest) ->
    name_ok link ->
    OS.find_entry link es = Some (Symlink (Strings.Join (t0 :: ts) "/")) ->
    Forall name_ok (t0 :: ts) ->
    fits t0 ->
    OS.find_entry t0 es = None ->
    length names + 1 < fuel ->
    exists w' h,
      partialLookupInRoot limit fuel w root (flat names +++ tail)
        = Some (w', inr (h, tail))
      /\ OS.handle_loc w' h = Some (rootLoc ++ names).
Proof.
  intros limit fuel w root rootLoc names es tail link rest t0 ts
    OK HR L1 FN HK EP NO HF FT FI HM LF.
  set (f := fuel - length names - 2).
  replace fuel with (length names + S (S f)) by (unfold f; lia).
  destruct (lookup_descend limit w root rootLoc names es (S (S f)) tail HR FN HK)
    as (w2 & cur & cp & E & H1 & H2 & H3 & H4 & H5 & H6 & H7).
  pose proof (loc_open_lt _ _ _ OK HR) as BR.
  assert (R2 : OS.handle_loc w2 root = Some rootLoc) by (rewrite H7; auto).
  rewrite E, loop_unfold. cbn [Walk.remainingPath].
  rewrite (next_part_nonempty _ _ _ EP (proj1 NO)).
  rewrite <- H4 in *. rewrite <- H1 in HK.
  assert (NT : t0 :: ts <> []) by discriminate.
  rewrite (body_follow_link limit root _ _ rootLoc w2 cur 0 cp tail link rest
             es (Strings.Join (t0 :: ts) "/") EP NO H5 H2 HK HF)
    by (try rewrite components_Join_names by assumption; auto; lia).
  rewrite components_Join_names, IsAbs_Join_names by assumption.
  cbv beta iota zeta.
  set (W := after_link w2 cur link ((rootLoc ++ components cp) ++ [link])
              (rootLoc ++ components cp)).
  rewrite loop_unfold. cbn [Walk.remainingPath].
  assert (ER : Strings.Join (t0 :: ts) "/" +++ "/" +++ rest
               = t0 +++ "/" +++ flat ts +++ rest).
  { rewrite <- append_assoc, (flat_Join (t0 :: ts) NT). simpl.
    now rewrite !append_assoc. }
  rewrite ER, seg_not_empty.
  inversion FT as [|? ? NO0 _]; subst.
  assert (EP0 : next_part (t0 +++ "/" +++ flat ts +++ rest)
                = (t0, flat ts +++ rest)) by (apply next_part_seg, NO0).
  rewrite (body_missing_in_link _ _ _ _ rootLoc W cur _ cp _ t0 _ es _ _
             EP0 NO0 FI H5).
  - cbn [deferred Walk.symlinkStack SymlinkStack.Close dir remainingPath].
    do 2 eexists. split; [reflexivity|].
    rewrite loc_Close.
    destruct (Nat.eqb_spec (S (next_handle w2)) cur); [lia|].
    rewrite loc_emit. unfold W, after_link. rewrite loc_alloc.
    cbn [next_handle OS.emit OS.Close OS.alloc fst]. rewrite Nat.eqb_refl.
    reflexivity.
  - unfold W. rewrite loc_after_link by exact H3. exact H2.
  - exact HK.
  - exact HM.
Qed.

Lemma dangling_symlink_reported_at_link_witness :
  exists w' h,
    partialLookupInRoot 255 4
      (Examples.world_r [("d", Dir [("l", Symlink "gone/u")])]) 0 "d/l/x"
      = Some (w', inr (h, "l/x"))
    /\ OS.handle_loc w' h = Some (["r"] ++ ["d"]).
Proof.
  assert (OK : world_ok (Examples.world_r [("d", Dir [("l", Symlink "gone/u")])])).
  { intros x l [I|[]]. inv I. simpl. lia. }
  apply (dangling_symlink_reported_at_link 255 4 _ 0 ["r"] ["d"]
           [("l", Symlink "gone/u")] "l/x" "l" "x" "gone" ["u"] OK).
  - reflexivity.
  - lia.
  - repeat constructor; discriminate.
  - reflexivity.
  - reflexivity.
  - repeat constructor; discriminate.
  - reflexivity.
  - repeat constructor; discriminate.
  - split; [reflexivity|vm_compute; lia].
  - reflexivity.
  - simpl. lia.
Defined.
